(** * EV-Insights: the Smart EV Match Finder

    A shallow embedding of [improved_ev_advisor.py]: the budget filter of
    [create_improved_ev_advisor], the scoring and ranking part of
    [display_recommendations] (up to the local [ranked]) and
    [get_diverse_alternatives].

    Modelling conventions.
    - A pandas float cell is an exact rational or NaN ([option Q], [None]
      is NaN); arithmetic propagates NaN, comparisons with NaN are false.
      Arithmetic is exact, except where a statement depends on rounding:
      the price score is also given with every operation rounded
      ([price_score_fl]).  Infinities can only come from the value
      ratio [range / (msrp + 1)] at [msrp = -1]; statements about that ratio
      say where they need a non-negative MSRP.
    - A DataFrame is a list of column names together with its rows in
      positional order; every row carries its index label, which pandas
      keeps through [copy], boolean indexing and [sort_values].
    - Python exceptions are values of [exn] in the error monad [result].
    - Streamlit rendering is not modelled. *)

From Stdlib Require Import QArith ZArith NArith List String Ascii Bool Lia Lqa.
From Stdlib Require Import Permutation Sorted Qround Qpower.
Import ListNotations.

Set Implicit Arguments.

(* ================================================================= *)
(** ** Exceptions *)

Inductive exn : Type :=
| KeyError (key : string)
| TypeError.

Inductive result (A : Type) : Type :=
| Ok (a : A)
| Raise (e : exn).

Arguments Ok {A} a.
Arguments Raise {A} e.

Definition bind {A B : Type} (m : result A) (k : A -> result B) : result B :=
  match m with
  | Ok a => k a
  | Raise e => Raise e
  end.

Notation "x <- m ;; k" := (bind m (fun x => k))
  (at level 61, m at next level, right associativity).

(* ================================================================= *)
(** ** Cells and Series *)

Definition cell : Type := option Q.

Definition NaN : cell := None.

Definition notna (c : cell) : bool :=
  match c with Some _ => true | None => false end.

Definition isna (c : cell) : bool := negb (notna c).

Definition cell_map2 (f : Q -> Q -> Q) (a b : cell) : cell :=
  match a, b with
  | Some x, Some y => Some (f x y)
  | _, _ => NaN
  end.

Definition cell_add : cell -> cell -> cell := cell_map2 Qplus.
Definition cell_sub : cell -> cell -> cell := cell_map2 Qminus.
Definition cell_mul : cell -> cell -> cell := cell_map2 Qmult.
Definition cell_div : cell -> cell -> cell := cell_map2 Qdiv.

(** [Series.fillna(v)] on one cell. *)
Definition fillna (v : Q) (c : cell) : Q :=
  match c with Some x => x | None => v end.

(** [Series.dropna()]. *)
Fixpoint dropna (s : list cell) : list Q :=
  match s with
  | [] => []
  | Some x :: t => x :: dropna t
  | None :: t => dropna t
  end.

Definition Qmin2 (x y : Q) : Q := if Qle_bool x y then x else y.
Definition Qmax2 (x y : Q) : Q := if Qle_bool x y then y else x.

(** [min()] and [max()] of a Series without NaN; NaN on the empty Series. *)
Fixpoint values_min (l : list Q) : cell :=
  match l with
  | [] => NaN
  | x :: t => match values_min t with
              | None => Some x
              | Some m => Some (Qmin2 x m)
              end
  end.

Fixpoint values_max (l : list Q) : cell :=
  match l with
  | [] => NaN
  | x :: t => match values_max t with
              | None => Some x
              | Some m => Some (Qmax2 x m)
              end
  end.

(** [Series.min()] and [Series.max()] skip NaN. *)
Definition series_min (s : list cell) : cell := values_min (dropna s).
Definition series_max (s : list cell) : cell := values_max (dropna s).

(** [a > b] on scalars that may be NaN. *)
Definition cell_gt (a b : cell) : bool :=
  match a, b with
  | Some x, Some y => negb (Qle_bool x y)
  | _, _ => false
  end.

(** [a != b] on scalars taken from a Series without NaN. *)
Definition cell_ne (a b : cell) : bool :=
  match a, b with
  | Some x, Some y => negb (Qeq_bool x y)
  | _, _ => true
  end.

(* ================================================================= *)
(** ** Strings *)

Open Scope string_scope.
Open Scope list_scope.

Definition lower_ascii (c : ascii) : ascii :=
  let n := nat_of_ascii c in
  if (65 <=? n)%nat && (n <=? 90)%nat then ascii_of_nat (n + 32) else c.

Fixpoint lower (s : string) : string :=
  match s with
  | EmptyString => EmptyString
  | String c t => String (lower_ascii c) (lower t)
  end.

(** [pat in s]. *)
Fixpoint contains (pat s : string) : bool :=
  if String.prefix pat s then true
  else match s with
       | EmptyString => false
       | String _ t => contains pat t
       end.

(** [.astype(str).str.contains(pat, case=False, na=False)] on one entry;
    a missing entry becomes the text [nan].  Case is folded on the letters
    A-Z only; the regular expression behind [case=False] also lets the
    dotted capital I (U+0130) and the dotless i (U+0131) match [i], so
    texts that hold one of these two letters are outside this model. *)
Definition str_contains_nocase (pat : string) (c : option string) : bool :=
  contains (lower pat) (lower (match c with Some s => s | None => "nan" end)).

Definition opt_string_eqb (a b : option string) : bool :=
  match a, b with
  | Some x, Some y => String.eqb x y
  | None, None => true
  | _, _ => false
  end.

(* ================================================================= *)
(** ** Vehicles and frames *)

Record Vehicle : Type := mkVehicle {
  label : nat;
  Make : option string;
  Model : option string;
  Model_Year : cell;
  Electric_Range : cell;
  Base_MSRP : cell;
  Electric_Vehicle_Type : option string;
  CAFV_Eligibility : option string
}.

Record Frame (R : Type) : Type := mkFrame {
  columns : list string;
  rows : list R
}.

Definition col_in {R : Type} (name : string) (df : Frame R) : bool :=
  existsb (String.eqb name) (columns df).

(** [df.empty]: one of the two axes has length zero. *)
Definition empty {R : Type} (df : Frame R) : bool :=
  match rows df, columns df with
  | [], _ => true
  | _, [] => true
  | _, _ => false
  end.

(** [df[mask]]. *)
Definition select {R : Type} (mask : R -> bool) (df : Frame R) : Frame R :=
  mkFrame (columns df) (filter mask (rows df)).

Definition c_Make := "Make".
Definition c_Model_Year := "Model Year".
Definition c_Electric_Range := "Electric Range".
Definition c_Base_MSRP := "Base MSRP".
Definition c_CAFV := "Clean Alternative Fuel Vehicle (CAFV) Eligibility".
Definition c_value_score := "value_score".

(* ================================================================= *)
(** ** The budget filter of [create_improved_ev_advisor] *)

Definition budget_ranges : list (string * (Q * Q)) :=
  [ ("Budget-conscious (< $40k)", (0, 40000));
    ("Mid-range ($40k - $60k)", (40000, 60000));
    ("Premium ($60k - $80k)", (60000, 80000));
    ("Luxury (> $80k)", (80000, 999999));
    ("No preference", (0, 999999)) ]%Q.

(** [d[key]] on a dict written as a literal. *)
Fixpoint dict_get {V : Type} (d : list (string * V)) (key : string)
  : result V :=
  match d with
  | [] => Raise (KeyError key)
  | (k, v) :: t => if String.eqb k key then Ok v else dict_get t key
  end.

(** The mask of lines 161-164 on one row. *)
Definition budget_mask (min_price max_price : Q) (v : Vehicle) : bool :=
  Qle_bool min_price (fillna 999999 (Base_MSRP v)) &&
  Qle_bool (fillna 999999 (Base_MSRP v)) max_price.

Definition budget_filter (budget_choice : string) (candidates : Frame Vehicle)
  : result (Frame Vehicle) :=
  r <- dict_get budget_ranges budget_choice ;;
  let '(min_price, max_price) := r in
  if col_in c_Base_MSRP candidates
  then Ok (select (budget_mask min_price max_price) candidates)
  else Ok candidates.

(* ================================================================= *)
(** ** Scoring: lines 453-485 of [display_recommendations] *)

Record Scored : Type := mkScored {
  vehicle : Vehicle;
  Electric_Range_norm : cell;
  Base_MSRP_norm : cell;
  Model_Year_norm : cell;
  range_score : cell;
  price_score : cell;
  newness_score : cell;
  value_raw : cell;
  value_score : cell;
  cafv_bonus : cell;
  composite_score : cell
}.

(** Lines 456-464 for one column: what is written into the [_norm] column,
    as a function of the row's own cell.  [present] is
    [col in score_df.columns], [col] the column.  The arithmetic is exact
    here; [norm_column_fl] below is the same with every operation
    rounded. *)
Definition norm_column (present : bool) (col : list cell) : cell -> cell :=
  if present then
    let col_series := dropna col in
    if negb (match col_series with [] => true | _ => false end)
       && cell_ne (values_min col_series) (values_max col_series)
    then fun x => cell_div (cell_sub x (values_min col_series))
                           (cell_sub (values_max col_series)
                                     (values_min col_series))
    else fun _ => Some 0.5%Q
  else fun _ => Some 0.5%Q.

(** Line 473 on one row. *)
Definition value_raw_of (v : Vehicle) : cell :=
  cell_div (Electric_Range v) (cell_add (Base_MSRP v) (Some 1%Q)).

(** Lines 472-479: what is written into [value_score]. *)
Definition value_column (df : Frame Vehicle) : Vehicle -> cell :=
  if col_in c_Electric_Range df && col_in c_Base_MSRP df then
    let raw := map value_raw_of (rows df) in
    if cell_gt (series_max raw) (series_min raw)
    then fun v => cell_div (cell_sub (value_raw_of v) (series_min raw))
                           (cell_sub (series_max raw) (series_min raw))
    else fun _ => Some 0.5%Q
  else fun _ => Some 0.5%Q.

Definition value_raw_column (df : Frame Vehicle) : Vehicle -> cell :=
  if col_in c_Electric_Range df && col_in c_Base_MSRP df
  then value_raw_of
  else fun _ => NaN.

Definition opt_eqb (a : option string) (s : string) : bool :=
  match a with Some x => String.eqb x s | None => false end.

(** Lines 482-485. *)
Definition cafv_column (df : Frame Vehicle) (cafv_pref : option string)
  : Vehicle -> cell :=
  if opt_eqb cafv_pref "Prefer CAFV eligible" && col_in c_CAFV df
  then fun v =>
         Some ((if str_contains_nocase "eligible" (CAFV_Eligibility v)
                then 1 else 0) * 0.1)%Q
  else fun _ => Some 0%Q.

(* ================================================================= *)
(** ** Weights: lines 488-516 *)

Inductive dim : Type := k_price | k_range | k_value | k_newness.

Record Weights : Type := mkWeights {
  w_price : Q;
  w_range : Q;
  w_value : Q;
  w_newness : Q
}.

(** [weights[k]]. *)
Definition weight_of (w : Weights) (k : dim) : Q :=
  match k with
  | k_price => w_price w
  | k_range => w_range w
  | k_value => w_value w
  | k_newness => w_newness w
  end.

(** [weights[k] += x]. *)
Definition weight_add (w : Weights) (k : dim) (x : Q) : Weights :=
  match k with
  | k_price => mkWeights (w_price w + x) (w_range w) (w_value w) (w_newness w)
  | k_range => mkWeights (w_price w) (w_range w + x) (w_value w) (w_newness w)
  | k_value => mkWeights (w_price w) (w_range w) (w_value w + x) (w_newness w)
  | k_newness => mkWeights (w_price w) (w_range w) (w_value w) (w_newness w + x)
  end%Q.

Definition use_case_weights : list (string * Weights) :=
  [ ("Daily commuting (< 50 mi/day)", mkWeights 0.45 0.20 0.25 0.10);
    ("Regular road trips (> 200 mi)", mkWeights 0.25 0.50 0.15 0.10);
    ("Family hauling & errands", mkWeights 0.35 0.30 0.25 0.10);
    ("Weekend fun & performance", mkWeights 0.30 0.30 0.15 0.25);
    ("General purpose / Not sure", mkWeights 0.35 0.30 0.25 0.10) ]%Q.

Definition weight_map : list (string * dim) :=
  [ ("Lowest price", k_price);
    ("Longest range", k_range);
    ("Brand reputation", k_newness);
    ("Latest technology", k_newness);
    ("Best value (range/price)", k_value) ].

(** [d.get(key, default)]. *)
Fixpoint dict_get_default {V : Type} (d : list (string * V)) (key : string)
  (default : V) : V :=
  match d with
  | [] => default
  | (k, v) :: t => if String.eqb k key then v else dict_get_default t key default
  end.

(** Lines 501-514. *)
Definition priority_weights (priorities : string * string * string) : Weights :=
  let '(p1, p2, p3) := priorities in
  let weights := mkWeights 0 0 0 0 in
  let weights := weight_add weights (dict_get_default weight_map p1 k_value) 0.50 in
  let weights := weight_add weights (dict_get_default weight_map p2 k_price) 0.30 in
  let weights := weight_add weights (dict_get_default weight_map p3 k_range) 0.20 in
  weights.

Definition select_weights (use_case method : string)
  (priorities : option (string * string * string)) : result Weights :=
  if String.eqb method "quick" then dict_get use_case_weights use_case
  else match priorities with
       | Some ps => Ok (priority_weights ps)
       | None => Ok (mkWeights 0.35 0.30 0.25 0.10)
       end.

(* ================================================================= *)
(** ** Composite score: lines 519-525 *)

Definition composite (weights : Weights) (price_s range_s value_s newness_s bonus : cell)
  : cell :=
  cell_add
    (cell_add
       (cell_add
          (cell_add (cell_mul (Some (w_price weights)) price_s)
                    (cell_mul (Some (w_range weights)) range_s))
          (cell_mul (Some (w_value weights)) value_s))
       (cell_mul (Some (w_newness weights)) newness_s))
    bonus.

(** The row of [score_df] after line 485, built from one row of [df];
    [composite_score] is not a column yet. *)
Definition component_row (df : Frame Vehicle) (cafv_pref : option string)
  (v : Vehicle) : Scored :=
  let er_norm :=
    norm_column (col_in c_Electric_Range df) (map Electric_Range (rows df))
                (Electric_Range v) in
  let msrp_norm :=
    norm_column (col_in c_Base_MSRP df) (map Base_MSRP (rows df))
                (Base_MSRP v) in
  let my_norm :=
    norm_column (col_in c_Model_Year df) (map Model_Year (rows df))
                (Model_Year v) in
  mkScored v er_norm msrp_norm my_norm
           er_norm (cell_sub (Some 1%Q) msrp_norm) my_norm
           (value_raw_column df v) (value_column df v)
           (cafv_column df cafv_pref v) NaN.

Definition component_columns (df : Frame Vehicle) : list string :=
  columns df
  ++ ["Electric Range_norm"; "Base MSRP_norm"; "Model Year_norm";
      "range_score"; "price_score"; "newness_score"]
  ++ (if col_in c_Electric_Range df && col_in c_Base_MSRP df
      then ["value_raw"] else [])
  ++ [c_value_score; "cafv_bonus"].

(** [score_df] after line 485. *)
Definition component_frame (df : Frame Vehicle) (cafv_pref : option string)
  : Frame Scored :=
  mkFrame (component_columns df) (map (component_row df cafv_pref) (rows df)).

Definition set_composite (weights : Weights) (s : Scored) : Scored :=
  mkScored (vehicle s) (Electric_Range_norm s) (Base_MSRP_norm s)
           (Model_Year_norm s) (range_score s) (price_score s)
           (newness_score s) (value_raw s) (value_score s) (cafv_bonus s)
           (composite weights (price_score s) (range_score s) (value_score s)
                      (newness_score s) (cafv_bonus s)).

(** Lines 519-525: [score_df['composite_score'] = ...]. *)
Definition assign_composite (weights : Weights) (score_df : Frame Scored)
  : Frame Scored :=
  mkFrame (columns score_df ++ ["composite_score"])
          (map (set_composite weights) (rows score_df)).

(** [score_df] just before the sort of line 528. *)
Definition score_frame (df : Frame Vehicle) (cafv_pref : option string)
  (weights : Weights) : Frame Scored :=
  assign_composite weights (component_frame df cafv_pref).

(* ================================================================= *)
(** ** Sorting: line 528, [sort_values('composite_score', ascending=False)]

    pandas sorts one column through [nargsort], which hands the values that
    are not NaN to [ndarray.argsort(kind)]; the call of line 528 passes no
    [kind], so the kernel is NumPy's default [quicksort].  The kernel is a
    parameter here; [npy_aquicksort] below models NumPy's scalar routine,
    [avx2_argsort] and [avx512_argsort] its vectorised ones on short
    inputs, and [stable_argsort] is what [kind='stable'] would give. *)

Definition v_at (v : list Q) (i : nat) : Q := nth i v 0%Q.

(** [frame.take(indexer)]; the indexers of [nargsort] are in range. *)
Definition take {R : Type} (l : list R) (indexer : list nat) : list R :=
  flat_map (fun i => match nth_error l i with
                     | Some r => [r]
                     | None => []
                     end) indexer.

(** [idx[mask]] for [idx = np.arange(len(items))] and the mask [p(items)]. *)
Definition idx_where (p : cell -> bool) (items : list cell) : list nat :=
  filter (fun i => p (nth i items NaN)) (seq 0 (List.length items)).

Section SortValues.

Variable argsort : list Q -> list nat.

(** [nargsort(items, kind, ascending=False, na_position='last')]. *)
Definition nargsort_desc (items : list cell) : list nat :=
  let non_nans := dropna items in
  let non_nan_idx := idx_where notna items in
  let nan_idx := idx_where isna items in
  let non_nans := rev non_nans in
  let non_nan_idx := rev non_nan_idx in
  let indexer := map (fun k => nth k non_nan_idx 0%nat) (argsort non_nans) in
  let indexer := rev indexer in
  indexer ++ nan_idx.

Definition sort_values_desc {R : Type} (by_col : R -> cell) (df : Frame R)
  : Frame R :=
  mkFrame (columns df) (take (rows df) (nargsort_desc (map by_col (rows df)))).

(** The local [ranked] of [display_recommendations]: [None] is the early
    return on an empty frame.  [budget] and [range_need] are parameters
    the body never reads. *)
Definition display_recommendations_ranked (df : Frame Vehicle)
  (use_case budget range_need method : string)
  (priorities : option (string * string * string))
  (cafv_pref : option string) : result (option (Frame Scored)) :=
  if empty df then Ok None
  else
    let score_df := component_frame df cafv_pref in
    weights <- select_weights use_case method priorities ;;
    let score_df := assign_composite weights score_df in
    Ok (Some (sort_values_desc composite_score score_df)).

End SortValues.

(** What the documentation of [argsort] promises for every [kind]: the
    result lists every position once, in ascending order of the values. *)
Definition argsort_sorts (argsort : list Q -> list nat) : Prop :=
  forall v : list Q,
    Permutation (argsort v) (seq 0 (List.length v)) /\
    StronglySorted (fun i j => (v_at v i <= v_at v j)%Q) (argsort v).

(** What only a stable kind promises in addition: equal values keep their
    relative order. *)
Definition argsort_stable (argsort : list Q -> list nat) : Prop :=
  forall v : list Q,
    StronglySorted (fun i j => (v_at v i == v_at v j)%Q -> (i < j)%nat)
                   (argsort v).

(** The values [nargsort] hands to the kernel, [non_nans[::-1]], and the
    frame position of the [k]-th of them, [non_nan_idx[::-1][k]]. *)
Definition vals (items : list cell) : list Q := rev (dropna items).

Definition pos (items : list cell) (k : nat) : nat :=
  nth k (rev (idx_where notna items)) 0%nat.

(** *** [kind='stable']: an insertion sort of the positions *)

Fixpoint insert_idx (v : list Q) (i : nat) (l : list nat) : list nat :=
  match l with
  | [] => [i]
  | j :: t => if Qle_bool (v_at v i) (v_at v j) then i :: l
              else j :: insert_idx v i t
  end.

Definition stable_argsort (v : list Q) : list nat :=
  fold_right (insert_idx v) [] (seq 0 (List.length v)).

(** *** [kind='quicksort']: NumPy's introsort on an array of positions

    The portable (scalar) routine [aquicksort_] of NumPy for doubles:
    median-of-three partitioning while a partition spans more than
    [SMALL_QUICKSORT] positions, insertion sort below, heapsort for a
    partition popped with an exhausted depth budget. *)

Definition a_get (a : list nat) (p : nat) : nat := nth p a 0%nat.

Fixpoint a_set (a : list nat) (p x : nat) : list nat :=
  match a, p with
  | [], _ => []
  | _ :: t, O => x :: t
  | y :: t, S p' => y :: a_set t p' x
  end.

Definition intp_swap (a : list nat) (p q : nat) : list nat :=
  let tmp := a_get a q in
  a_set (a_set a q (a_get a p)) p tmp.

Definition Qlt_b (x y : Q) : bool := negb (Qle_bool y x).

(** [less(v[*p], v[*q])]. *)
Definition less_at (v : list Q) (a : list nat) (p q : nat) : bool :=
  Qlt_b (v_at v (a_get a p)) (v_at v (a_get a q)).

Definition SMALL_QUICKSORT : nat := 16.

(** [do ++pi; while (less(v[*pi], vp))]. *)
Fixpoint scan_up (fuel : nat) (v : list Q) (a : list nat) (vp : Q) (pi : nat)
  : nat :=
  match fuel with
  | O => pi
  | S f => let pi := S pi in
           if Qlt_b (v_at v (a_get a pi)) vp then scan_up f v a vp pi else pi
  end.

(** [do --pj; while (less(vp, v[*pj]))]. *)
Fixpoint scan_down (fuel : nat) (v : list Q) (a : list nat) (vp : Q) (pj : nat)
  : nat :=
  match fuel with
  | O => pj
  | S f => let pj := pred pj in
           if Qlt_b vp (v_at v (a_get a pj)) then scan_down f v a vp pj else pj
  end.

Fixpoint partition_loop (fuel : nat) (v : list Q) (a : list nat) (vp : Q)
  (pi pj : nat) : list nat * nat :=
  match fuel with
  | O => (a, pi)
  | S f =>
      let pi := scan_up (List.length a) v a vp pi in
      let pj := scan_down (List.length a) v a vp pj in
      if (pj <=? pi)%nat then (a, pi)
      else partition_loop f v (intp_swap a pi pj) vp pi pj
  end.

(** One pass of the partitioning loop body on [pl..pr]; returns the array
    and the final place [pi] of the pivot. *)
Definition partition (v : list Q) (a : list nat) (pl pr : nat)
  : list nat * nat :=
  let pm := (pl + Nat.div2 (pr - pl))%nat in
  let a := if less_at v a pm pl then intp_swap a pm pl else a in
  let a := if less_at v a pr pm then intp_swap a pr pm else a in
  let a := if less_at v a pm pl then intp_swap a pm pl else a in
  let vp := v_at v (a_get a pm) in
  let a := intp_swap a pm (pr - 1) in
  let '(a, pi) := partition_loop (List.length a) v a vp pl (pr - 1) in
  (intp_swap a pi (pr - 1), pi).

(** [while (pj > pl && less(vp, v[*pk])) *pj-- = *pk--;  *pj = vi]. *)
Fixpoint shift_right (fuel : nat) (v : list Q) (a : list nat) (pl vi pj : nat)
  : list nat :=
  match fuel with
  | O => a_set a pj vi
  | S f =>
      if (pl <? pj)%nat && Qlt_b (v_at v vi) (v_at v (a_get a (pj - 1)))
      then shift_right f v (a_set a pj (a_get a (pj - 1))) pl vi (pj - 1)
      else a_set a pj vi
  end.

Definition insertion_range (v : list Q) (a : list nat) (pl pr : nat)
  : list nat :=
  fold_left (fun a pi => shift_right (List.length a) v a pl (a_get a pi) pi)
            (seq (pl + 1) (pr - pl)) a.

(** Heapsort addresses the partition from one: [a[k]] is [tosort[pl+k-1]]. *)
Definition hp (pl k : nat) : nat := (pl + k - 1)%nat.

Fixpoint sift (fuel : nat) (v : list Q) (a : list nat) (pl n tmp i j : nat)
  : list nat :=
  match fuel with
  | O => a_set a (hp pl i) tmp
  | S f =>
      if (j <=? n)%nat then
        let j := if (j <? n)%nat && less_at v a (hp pl j) (hp pl (j + 1))
                 then (j + 1)%nat else j in
        if Qlt_b (v_at v tmp) (v_at v (a_get a (hp pl j)))
        then sift f v (a_set a (hp pl i) (a_get a (hp pl j))) pl n tmp j (j + j)
        else a_set a (hp pl i) tmp
      else a_set a (hp pl i) tmp
  end.

Definition aheapsort (v : list Q) (a : list nat) (pl n : nat) : list nat :=
  let a :=
    fold_left (fun a l => sift (S n) v a pl n (a_get a (hp pl l)) l (l + l))
              (rev (seq 1 (Nat.div2 n))) a in
  fold_left (fun a m =>
               let tmp := a_get a (hp pl m) in
               let a := a_set a (hp pl m) (a_get a (hp pl 1)) in
               sift (S n) v a pl (m - 1) tmp 1 2)
            (rev (seq 2 (n - 1))) a.

(** The outer loop with its stack of pending partitions.  [top] is true on
    entry and after a pop, where the depth budget is checked. *)
Fixpoint aquicksort_loop (fuel : nat) (v : list Q) (a : list nat)
  (pl pr : nat) (cdepth : Z) (stack : list (nat * nat * Z)) (top : bool)
  : list nat :=
  match fuel with
  | O => a
  | S f =>
      if top && (cdepth <? 0)%Z then
        let a := aheapsort v a pl (pr - pl + 1) in
        match stack with
        | [] => a
        | (pl', pr', d') :: st => aquicksort_loop f v a pl' pr' d' st true
        end
      else if (SMALL_QUICKSORT <? pr - pl)%nat then
        let '(a, pi) := partition v a pl pr in
        let cdepth := (cdepth - 1)%Z in
        if (pi - pl <? pr - pi)%nat
        then aquicksort_loop f v a pl (pi - 1) cdepth
                             ((pi + 1, pr, cdepth)%nat :: stack) false
        else aquicksort_loop f v a (pi + 1) pr cdepth
                             ((pl, pi - 1, cdepth)%nat :: stack) false
      else
        let a := insertion_range v a pl pr in
        match stack with
        | [] => a
        | (pl', pr', d') :: st => aquicksort_loop f v a pl' pr' d' st true
        end
  end.

Definition npy_aquicksort (v : list Q) : list nat :=
  let num := List.length v in
  match num with
  | O => []
  | S _ => aquicksort_loop (2 * num + 2) v (seq 0 num) 0 (num - 1)
                           (Z.of_nat (Nat.log2 num) * 2) [] true
  end.

(** *** [kind='quicksort'] on x86 with AVX2 or AVX-512: x86-simd-sort

    Where the CPU has AVX-512 or AVX2, NumPy's [npy_aquicksort] for doubles
    first tries the vectorised [argsort] of x86-simd-sort and only falls
    back to the scalar routine above when none is dispatched.  An input that
    fits one vector register is sorted by a bitonic network on a pair of
    registers, keys and positions: the keys are gathered through the
    positions, the lanes beyond the input are padded with the largest key,
    and after the network the first [N] positions are stored back.  Longer
    inputs go through merge networks over several registers and a vectorised
    partition; those are not modelled, the routines below are for inputs of
    at most one register. *)

(** A key lane: a double of the input or the padding [zmm_max()]. *)
Inductive key : Type :=
| Fin (q : Q)
| Inf.

Definition key_le (a b : key) : bool :=
  match a, b with
  | Fin x, Fin y => Qle_bool x y
  | _, Inf => true
  | Inf, Fin _ => false
  end.

Definition key_eq (a b : key) : bool := key_le a b && key_le b a.

Definition key_min (a b : key) : key := if key_le a b then a else b.

Definition key_max (a b : key) : key := if key_le a b then b else a.

(** A lane of the register pair: the key and the position it came from. *)
Definition lane : Type := (key * nat)%type.

Definition lane_at (reg : list lane) (i : nat) : lane := nth i reg (Inf, 0%nat).

(** [cmp_merge(in1, in2, indexes1, indexes2, mask)] with [in2] and
    [indexes2] the lanes of [in1] and [indexes1] permuted by [perm]: a lane
    whose mask bit is set takes the larger key, the others the smaller one
    ([0 -> min, 1 -> max]), and a lane keeps its own position exactly when
    the key it ends up with equals its own
    ([mask_mov(indexes2, eq(tmp_keys, in1), indexes1)]). *)
Definition cmp_merge (perm : list nat) (mask : N) (reg : list lane)
  : list lane :=
  map (fun i =>
         let '(in1, indexes1) := lane_at reg i in
         let '(in2, indexes2) := lane_at reg (nth i perm i) in
         let tmp_keys := if N.testbit mask (N.of_nat i)
                         then key_max in1 in2 else key_min in1 in2 in
         (tmp_keys, if key_eq tmp_keys in1 then indexes1 else indexes2))
      (seq 0 (List.length reg)).

(** [SHUFFLE_MASK(1, 1, 1, 1)] on 64-bit lanes: neighbours swapped. *)
Definition swap_neighbours : list nat := [1; 0; 3; 2; 5; 4; 7; 6]%nat.

(** The lane each lane reads under [NETWORK_64BIT_1], [_2] and [_3]. *)
Definition NETWORK_64BIT_1 : list nat := [3; 2; 1; 0; 7; 6; 5; 4]%nat.

Definition NETWORK_64BIT_2 : list nat := [7; 6; 5; 4; 3; 2; 1; 0]%nat.

Definition NETWORK_64BIT_3 : list nat := [2; 3; 0; 1; 6; 7; 4; 5]%nat.

(** AVX-512, eight lanes of 64 bits. *)
Definition sort_zmm_64bit (reg : list lane) : list lane :=
  let reg := cmp_merge swap_neighbours 0xAA reg in
  let reg := cmp_merge NETWORK_64BIT_1 0xCC reg in
  let reg := cmp_merge swap_neighbours 0xAA reg in
  let reg := cmp_merge NETWORK_64BIT_2 0xF0 reg in
  let reg := cmp_merge NETWORK_64BIT_3 0xCC reg in
  cmp_merge swap_neighbours 0xAA reg.

(** AVX2, four lanes of 64 bits: [SHUFFLE_MASK(2, 3, 0, 1)] swaps
    neighbours, [SHUFFLE_MASK(0, 1, 2, 3)] reverses the register. *)
Definition sort_ymm_64bit (reg : list lane) : list lane :=
  let reg := cmp_merge [1; 0; 3; 2]%nat 0xA reg in
  let reg := cmp_merge [3; 2; 1; 0]%nat 0xC reg in
  cmp_merge [1; 0; 3; 2]%nat 0xA reg.

(** [argsort_n_vec] with one register: masked load of the first [N]
    positions ([0 .. N-1] on entry), masked gather of their keys, the
    network, masked store. *)
Definition argsort_one_vec (numlanes : nat) (sort_vec : list lane -> list lane)
  (v : list Q) : list nat :=
  let N := List.length v in
  let reg := map (fun i => if (i <? N)%nat then (Fin (v_at v i), i)
                           else (Inf, 0%nat))
                 (seq 0 numlanes) in
  map snd (firstn N (sort_vec reg)).

(** The two vectorised kernels on the inputs that fit one register; a
    longer input is beyond this model and is handed back unsorted. *)
Definition avx2_argsort (v : list Q) : list nat :=
  if (List.length v <=? 4)%nat then argsort_one_vec 4 sort_ymm_64bit v
  else seq 0 (List.length v).

Definition avx512_argsort (v : list Q) : list nat :=
  if (List.length v <=? 8)%nat then argsort_one_vec 8 sort_zmm_64bit v
  else seq 0 (List.length v).

(* ================================================================= *)
(** ** [get_diverse_alternatives] *)

(** [m in used_makes]; a missing make equals a missing make. *)
Definition isin (used_makes : list (option string)) (m : option string) : bool :=
  existsb (opt_string_eqb m) used_makes.

(** [ranked_df[~ranked_df['Make'].isin(used_makes)]]: the subscript
    [ranked_df['Make']] raises when the frame has no such column. *)
Definition not_isin (ranked_df : Frame Scored)
  (used_makes : list (option string)) : result (Frame Scored) :=
  if col_in c_Make ranked_df
  then Ok (select (fun s => negb (isin used_makes (Make (vehicle s)))) ranked_df)
  else Raise (KeyError c_Make).

(** One pass over the rows keeping the best known cell seen so far;
    [better q b] says that [q] replaces the current best [b]. *)
Fixpoint pick {R : Type} (better : Q -> Q -> bool) (key : R -> cell)
  (l : list R) (best : option (R * Q)) : option (R * Q) :=
  match l with
  | [] => best
  | r :: t =>
      match key r, best with
      | Some q, None => pick better key t (Some (r, q))
      | Some q, Some (_, b) =>
          if better q b then pick better key t (Some (r, q))
          else pick better key t best
      | None, _ => pick better key t best
      end
  end.

(** The single row of [df.nsmallest(1, col)] and [df.nlargest(1, col)], on
    which [.iloc[0]] and [.iloc[-1]] agree: rows with a NaN cell come after
    all others, in frame order. *)
Definition select_n1 {R : Type} (better : Q -> Q -> bool) (key : R -> cell)
  (l : list R) : option R :=
  match pick better key l None with
  | Some (r, _) => Some r
  | None => hd_error l
  end.

(** [keep='first'] (the default) or [keep='last'] among equal cells. *)
Definition nsmallest1 {R : Type} (keep_last : bool) (key : R -> cell)
  (l : list R) : option R :=
  select_n1 (if keep_last then Qle_bool else Qlt_b) key l.

Definition nlargest1 {R : Type} (key : R -> cell) (l : list R) : option R :=
  select_n1 (fun q b => Qlt_b b q) key l.

(** The titles of the three slots, without the pictograph each one starts
    with in the source. *)
Definition t_affordable := "Most Affordable".
Definition t_range := "Longest Range".
Definition t_value := "Best Value".

(** An alternative is its title and its vehicle; the third component of the
    source's tuples, a display text, is left out. *)
Definition get_diverse_alternatives (ranked_df : Frame Scored)
  (top_vehicle : Scored) : result (list (string * Scored)) :=
  let alternatives := [] in
  let used_makes := [Make (vehicle top_vehicle)] in
  (* Strategy 1: best price from different brand *)
  price_candidates <- not_isin ranked_df used_makes ;;
  let '(alternatives, used_makes) :=
    if negb (empty price_candidates) && col_in c_Base_MSRP price_candidates
    then match nsmallest1 false (fun s => Base_MSRP (vehicle s))
                          (rows price_candidates) with
         | Some best_price =>
             (alternatives ++ [(t_affordable, best_price)],
              used_makes ++ [Make (vehicle best_price)])
         | None => (alternatives, used_makes)
         end
    else (alternatives, used_makes) in
  (* Strategy 2: best range from different brand *)
  range_candidates <- not_isin ranked_df used_makes ;;
  let '(alternatives, used_makes) :=
    if negb (empty range_candidates) && col_in c_Electric_Range range_candidates
    then match nsmallest1 true (fun s => Electric_Range (vehicle s))
                          (rows range_candidates) with
         | Some best_range =>
             (alternatives ++ [(t_range, best_range)],
              used_makes ++ [Make (vehicle best_range)])
         | None => (alternatives, used_makes)
         end
    else (alternatives, used_makes) in
  (* Strategy 3: best value (range/price) from different brand *)
  value_candidates <- not_isin ranked_df used_makes ;;
  let alternatives :=
    if negb (empty value_candidates) && col_in c_value_score value_candidates
    then match nlargest1 value_score (rows value_candidates) with
         | Some best_value =>
             if col_in c_Electric_Range value_candidates
                && col_in c_Base_MSRP value_candidates
             then alternatives ++ [(t_value, best_value)]
             else alternatives
         | None => alternatives
         end
    else alternatives in
  Ok (firstn 3 alternatives).

(** [ranked.iloc[0]]. *)
Definition iloc0 {R : Type} (df : Frame R) : option R := hd_error (rows df).

(* ================================================================= *)
(** ** [display_recommendations] over a store of frame objects

    Python passes [df] by reference.  The store holds the frame objects; a
    call reads its argument there, works on the copy made by [df.copy()]
    and leaves [ranked] in a fresh object. *)

Inductive obj : Type :=
| ODataFrame (df : Frame Vehicle)
| OScoreFrame (df : Frame Scored).

Definition heap : Type := list obj.
Definition loc : Type := nat.

Definition St (A : Type) : Type := heap -> heap * result A.

Definition ret {A : Type} (a : A) : St A := fun h => (h, Ok a).

Definition bindS {A B : Type} (m : St A) (k : A -> St B) : St B :=
  fun h => match m h with
           | (h', Ok a) => k a h'
           | (h', Raise e) => (h', Raise e)
           end.

Notation "x <~ m ;; k" := (bindS m (fun x => k))
  (at level 61, m at next level, right associativity).

Definition alloc (o : obj) : St loc :=
  fun h => (h ++ [o], Ok (List.length h)).

Fixpoint heap_set (h : heap) (l : loc) (o : obj) : heap :=
  match h, l with
  | [], _ => []
  | _ :: t, O => o :: t
  | x :: t, S l' => x :: heap_set t l' o
  end.

Definition write (l : loc) (o : obj) : St unit :=
  fun h => (heap_set h l o, Ok tt).

(** A reference that holds no frame of the expected kind. *)
Definition not_a_frame : exn := TypeError.

Definition read_frame (l : loc) : St (Frame Vehicle) :=
  fun h => match nth_error h l with
           | Some (ODataFrame f) => (h, Ok f)
           | _ => (h, Raise not_a_frame)
           end.

Definition read_scored (l : loc) : St (Frame Scored) :=
  fun h => match nth_error h l with
           | Some (OScoreFrame f) => (h, Ok f)
           | _ => (h, Raise not_a_frame)
           end.

Definition lift {A : Type} (r : result A) : St A := fun h => (h, r).

Section Display.

Variable argsort : list Q -> list nat.

(** Returns where [ranked] lives, or [None] after the early return. *)
Definition display_recommendations (df : loc)
  (use_case budget range_need method : string)
  (priorities : option (string * string * string))
  (cafv_pref : option string) : St (option loc) :=
  f <~ read_frame df ;;
  if empty f then ret None
  else
    (* score_df = df.copy() *)
    score_df <~ alloc (ODataFrame f) ;;
    (* lines 456-485: columns assigned on score_df *)
    g <~ read_frame score_df ;;
    _ <~ write score_df (OScoreFrame (component_frame g cafv_pref)) ;;
    weights <~ lift (select_weights use_case method priorities) ;;
    (* lines 519-525 *)
    s <~ read_scored score_df ;;
    _ <~ write score_df (OScoreFrame (assign_composite weights s)) ;;
    (* line 528 *)
    s <~ read_scored score_df ;;
    ranked <~ alloc (OScoreFrame (sort_values_desc argsort composite_score s)) ;;
    ret (Some ranked).

End Display.

(** The frame a call leaves behind, read back from the store. *)
Definition outcome (hr : heap * result (option loc))
  : result (option (Frame Scored)) :=
  match hr with
  | (h, Ok (Some l)) => match nth_error h l with
                        | Some (OScoreFrame f) => Ok (Some f)
                        | _ => Raise not_a_frame
                        end
  | (_, Ok None) => Ok None
  | (_, Raise e) => Raise e
  end.

(* ================================================================= *)
(** ** Vocabulary of the statements *)

(** The three columns normalised by lines 456-464. *)
Inductive field : Type := f_range | f_msrp | f_year.

Definition field_name (f : field) : string :=
  match f with
  | f_range => c_Electric_Range
  | f_msrp => c_Base_MSRP
  | f_year => c_Model_Year
  end.

Definition field_cell (f : field) (v : Vehicle) : cell :=
  match f with
  | f_range => Electric_Range v
  | f_msrp => Base_MSRP v
  | f_year => Model_Year v
  end.

Definition field_norm (f : field) (s : Scored) : cell :=
  match f with
  | f_range => Electric_Range_norm s
  | f_msrp => Base_MSRP_norm s
  | f_year => Model_Year_norm s
  end.

(** The score that lines 467-469 derive from the field. *)
Definition field_score (f : field) (s : Scored) : cell :=
  match f with
  | f_range => range_score s
  | f_msrp => price_score s
  | f_year => newness_score s
  end.

(** A column with fewer than two distinct known values: constant, or
    entirely missing. *)
Definition degenerate (col : list cell) : Prop :=
  forall x y : Q, In (Some x) col -> In (Some y) col -> (x == y)%Q.

(** A column with at least two distinct known values. *)
Definition two_distinct (col : list cell) : Prop :=
  exists x y : Q, In (Some x) col /\ In (Some y) col /\ ~ (x == y)%Q.

(** The data model's non-negative MSRP. *)
Definition msrp_nonneg (df : Frame Vehicle) : Prop :=
  forall v x, In v (rows df) -> Base_MSRP v = Some x -> (0 <= x)%Q.

Definition dim_eqb (a b : dim) : bool :=
  match a, b with
  | k_price, k_price | k_range, k_range
  | k_value, k_value | k_newness, k_newness => true
  | _, _ => false
  end.

(** The share a rank puts on dimension [k]. *)
Definition share (d k : dim) (x : Q) : Q := if dim_eqb d k then x else 0%Q.

Definition brand (a : string * Scored) : option string := Make (vehicle (snd a)).

(** [l] lists some of the entries of [m], in the order of [m]. *)
Fixpoint subseq (l m : list string) : bool :=
  match l, m with
  | [], _ => true
  | _ :: _, [] => false
  | x :: l', y :: m' => if String.eqb x y then subseq l' m' else subseq l m'
  end.

(** What C8 asks of the alternatives returned for [top_vehicle]: at most
    three, titled in the fixed order, of pairwise different brands, none of
    the top match's brand, all taken from the ranked frame. *)
Definition alternatives_ok (ranked_df : Frame Scored) (top_vehicle : Scored)
  (alts : list (string * Scored)) : Prop :=
  (List.length alts <= 3)%nat /\
  subseq (map fst alts) [t_affordable; t_range; t_value] = true /\
  NoDup (map brand alts) /\
  Forall (fun a => brand a <> Make (vehicle top_vehicle) /\
                   In (snd a) (rows ranked_df)) alts.

(** Descending order of two cells, NaN after every number. *)
Definition cell_desc (a b : cell) : Prop :=
  match a, b with
  | Some x, Some y => (y <= x)%Q
  | Some _, None => True
  | None, Some _ => False
  | None, None => True
  end.

(** Two cells holding the same number. *)
Definition cell_tie (a b : cell) : Prop :=
  match a, b with
  | Some x, Some y => (x == y)%Q
  | _, _ => False
  end.

(** Descending composite order with the undefined scores last. *)
Definition ranks_before (s s' : Scored) : Prop :=
  cell_desc (composite_score s) (composite_score s').

Definition same_score (s s' : Scored) : Prop :=
  cell_tie (composite_score s) (composite_score s').

(** Candidates with equal composite score appear in load order: the ranking
    holds the rows of the candidate frame at the positions [order], every
    position once, and of two ranks with the same score the earlier one
    holds the row that was loaded first. *)
Definition ties_keep_load_order (argsort : list Q -> list nat) : Prop :=
  forall (df : Frame Vehicle) (use_case budget range_need method : string)
         (priorities : option (string * string * string))
         (cafv_pref : option string) (ranked : Frame Scored),
    display_recommendations_ranked argsort df use_case budget range_need
                                   method priorities cafv_pref
    = Ok (Some ranked) ->
    exists order : list nat,
      Permutation order (seq 0 (List.length (rows df))) /\
      map (fun s => Some (vehicle s)) (rows ranked)
      = map (nth_error (rows df)) order /\
      forall a b i j sa sb,
        (a < b)%nat ->
        nth_error order a = Some i -> nth_error order b = Some j ->
        nth_error (rows ranked) a = Some sa ->
        nth_error (rows ranked) b = Some sb ->
        same_score sa sb ->
        (i < j)%nat.

(** The same in terms of the index labels, for every frame whose labels
    increase with the load order (as a [RangeIndex] does, also after rows
    were filtered out). *)
Definition ties_keep_label_order (argsort : list Q -> list nat) : Prop :=
  forall (df : Frame Vehicle) (use_case budget range_need method : string)
         (priorities : option (string * string * string))
         (cafv_pref : option string) (ranked : Frame Scored),
    StronglySorted lt (map label (rows df)) ->
    display_recommendations_ranked argsort df use_case budget range_need
                                   method priorities cafv_pref
    = Ok (Some ranked) ->
    forall a b sa sb,
      (a < b)%nat ->
      nth_error (rows ranked) a = Some sa ->
      nth_error (rows ranked) b = Some sb ->
      same_score sa sb ->
      (label (vehicle sa) < label (vehicle sb))%nat.

(** Every object of [h] is still there, unchanged, in [h']. *)
Definition preserved (h h' : heap) : Prop :=
  forall l o, nth_error h l = Some o -> nth_error h' l = Some o.

(* ================================================================= *)
(** ** Sample data *)

Definition all_columns : list string :=
  [c_Make; "Model"; c_Model_Year; c_Electric_Range; c_Base_MSRP;
   "Electric Vehicle Type"; c_CAFV].

Definition veh (i : nat) (make : string) (range msrp year : Z) : Vehicle :=
  mkVehicle i (Some make) (Some "EV") (Some (inject_Z year))
            (Some (inject_Z range)) (Some (inject_Z msrp))
            (Some "Battery Electric Vehicle (BEV)") None.

Definition ex_fleet : Frame Vehicle :=
  mkFrame all_columns
          [ veh 0 "TESLA" 300 40000 2022;
            veh 1 "NISSAN" 150 30000 2019;
            veh 2 "CHEVROLET" 250 35000 2020;
            veh 3 "KIA" 200 45000 2021 ].

(** The fleet without the Kia. *)
Definition ex_trio : Frame Vehicle :=
  mkFrame all_columns (firstn 3 (rows ex_fleet)).

(** A vehicle whose MSRP is unknown. *)
Definition ex_unpriced : Vehicle :=
  mkVehicle 0 (Some "LUCID") (Some "AIR") (Some 2023%Q) (Some 400%Q) NaN
            (Some "Battery Electric Vehicle (BEV)") None.

(** Eighteen registrations of one and the same model. *)
Definition ex_eighteen : Frame Vehicle :=
  mkFrame all_columns
          (map (fun i => veh i "TESLA" 300 40000 2022) (seq 0 18)).

(** The fleet as a frame that has no [Make] column. *)
Definition ex_no_make : Frame Vehicle :=
  mkFrame ["Model"; c_Model_Year; c_Electric_Range; c_Base_MSRP]
          (map (fun v => mkVehicle (label v) None (Model v) (Model_Year v)
                                   (Electric_Range v) (Base_MSRP v) None None)
               (rows ex_fleet)).

(** Two registrations, the second without a known range. *)
Definition ex_gap : Frame Vehicle :=
  mkFrame all_columns
          [ mkVehicle 0 (Some "BMW") (Some "I3") (Some 2018%Q) NaN
                      (Some 44000%Q) None None;
            veh 1 "NISSAN" 150 30000 2019;
            veh 2 "CHEVROLET" 250 35000 2020 ].

Definition general_purpose := "General purpose / Not sure".

Definition ranked_or_empty (r : result (option (Frame Scored))) : Frame Scored :=
  match r with
  | Ok (Some f) => f
  | _ => mkFrame [] []
  end.

Definition ex_ranked : Frame Scored :=
  ranked_or_empty
    (display_recommendations_ranked stable_argsort ex_fleet general_purpose
       "No preference" "Moderate (occasional trips)" "quick" None None).

Definition ex_ranked_no_make : Frame Scored :=
  ranked_or_empty
    (display_recommendations_ranked stable_argsort ex_no_make general_purpose
       "No preference" "Moderate (occasional trips)" "quick" None None).

(** The eighteen identical registrations, ranked with NumPy's default
    kernel. *)
Definition ex_ranked_eighteen : Frame Scored :=
  ranked_or_empty
    (display_recommendations_ranked npy_aquicksort ex_eighteen general_purpose
       "No preference" "Moderate (occasional trips)" "quick" None None).

(** Two registrations each of two models. *)
Definition ex_pairs : Frame Vehicle :=
  mkFrame all_columns
          [ veh 0 "NISSAN" 150 30000 2019;
            veh 1 "NISSAN" 150 30000 2019;
            veh 2 "TESLA" 300 40000 2022;
            veh 3 "TESLA" 300 40000 2022 ].

(** The two pairs ranked with the vectorised kernels. *)
Definition ex_ranked_pairs_avx2 : Frame Scored :=
  ranked_or_empty
    (display_recommendations_ranked avx2_argsort ex_pairs general_purpose
       "No preference" "Moderate (occasional trips)" "quick" None None).

Definition ex_ranked_pairs_avx512 : Frame Scored :=
  ranked_or_empty
    (display_recommendations_ranked avx512_argsort ex_pairs general_purpose
       "No preference" "Moderate (occasional trips)" "quick" None None).

(** The float64 and the float32 next above 30000: [30000 + 2^-38] and
    [30000 + 2^-9]. *)
Definition above_30000_double : Q := (8246337208320001 # 274877906944)%Q.

Definition above_30000_single : Q := (15360001 # 512)%Q.

Definition priced (i : nat) (msrp : Q) : Vehicle :=
  mkVehicle i (Some "TESLA") (Some "MODEL 3") (Some 2022%Q) (Some 300%Q)
            (Some msrp) (Some "Battery Electric Vehicle (BEV)") None.

(** Three registrations at 30000, [above] and 130000. *)
Definition ex_close_prices (above : Q) : Frame Vehicle :=
  mkFrame all_columns
          [ priced 0 30000; priced 1 above; priced 2 130000 ].

(** Every input of [n] keys drawn from 0, 1 and 2. *)
Fixpoint small_inputs (n : nat) : list (list Q) :=
  match n with
  | O => [[]]
  | S m => flat_map (fun t => [0%Q :: t; 1%Q :: t; 2%Q :: t]) (small_inputs m)
  end.

Fixpoint ascending (l : list Q) : bool :=
  match l with
  | a :: ((b :: _) as t) => Qle_bool a b && ascending t
  | _ => true
  end.

(** [kernel v] lists every position of [v] once, in ascending order of the
    keys. *)
Definition sorts_input (kernel : list Q -> list nat) (v : list Q) : bool :=
  ascending (map (v_at v) (kernel v))
  && forallb (fun i => (count_occ Nat.eq_dec (kernel v) i =? 1)%nat)
             (seq 0 (List.length v))
  && (List.length (kernel v) =? List.length v)%nat.

Definition ex_ranked_gap : Frame Scored :=
  ranked_or_empty
    (display_recommendations_ranked stable_argsort ex_gap general_purpose
       "No preference" "Moderate (occasional trips)" "quick" None None).

(** Thirty-five values with repetitions, for the kernels. *)
Definition ex_values : list Q :=
  map inject_Z
      [5; 3; 9; 1; 1; 7; 3; 22; 4; 6; 8; 0; 15; 13; 2; 2; 9; 10; 11; 5; 5; 5;
       30; 1; 17; 16; 3; 12; 14; 19; 18; 21; 20; 4; 4]%Z.

Definition top_or (d : Scored) (f : Frame Scored) : Scored :=
  match iloc0 f with Some s => s | None => d end.

Definition blank : Scored :=
  mkScored (mkVehicle 0 None None NaN NaN NaN None None)
           NaN NaN NaN NaN NaN NaN NaN NaN NaN NaN.

(** [df.iloc[i]], a blank row out of range. *)
Definition row_at (df : Frame Scored) (i : nat) : Scored := nth i (rows df) blank.

(* ================================================================= *)
(** ** The rest of the advisor: exceptions beyond [KeyError]

    The filters of [create_improved_ev_advisor], what
    [display_recommendations] renders after the sort, and [apply_filters]
    of [Dashboard.py], which builds the frame the advisor receives.  HTML
    and widget calls are left out; what is kept of a rendering step is what
    it computes from the data and whether it raises. *)

Inductive error : Type :=
| Exn (e : exn)
| ValueError
| IndexError.

Inductive attempt (A : Type) : Type :=
| Done (a : A)
| Fails (e : error).

Arguments Done {A} a.
Arguments Fails {A} e.

Definition bindA {A B : Type} (m : attempt A) (k : A -> attempt B) : attempt B :=
  match m with
  | Done a => k a
  | Fails e => Fails e
  end.

Notation "x <-- m ;; k" := (bindA m (fun x => k))
  (at level 61, m at next level, right associativity).

Definition of_result {A : Type} (r : result A) : attempt A :=
  match r with
  | Ok a => Done a
  | Raise e => Fails (Exn e)
  end.

(** [int(x)] on a float: truncation towards zero, [ValueError] on NaN. *)
Definition trunc (q : Q) : Z := Z.quot (Qnum q) (Zpos (Qden q)).

Definition py_int (c : cell) : attempt Z :=
  match c with
  | Some q => Done (trunc q)
  | None => Fails ValueError
  end.

(** [row.get(col)] and [row.get(col, default)] on a row of frame [df]. *)
Definition get_cell {R : Type} (df : Frame R) (col : string) (c : cell) : cell :=
  if col_in col df then c else NaN.

Definition get_cell_default {R : Type} (df : Frame R) (col : string) (c : cell)
  (default : Q) : cell :=
  if col_in col df then c else Some default.

(* ================================================================= *)
(** ** The range filter: lines 61-93 and 166-169 *)

Definition range_need_options : list string :=
  [ "Not critical (city driving)";
    "Moderate (occasional trips)";
    "Important (regular highway)";
    "Essential (frequent road trips)" ].

Definition range_row (a b c d : Q) : list (string * Q) :=
  [ ("Not critical (city driving)", a);
    ("Moderate (occasional trips)", b);
    ("Important (regular highway)", c);
    ("Essential (frequent road trips)", d) ].

Definition range_requirements : list (string * list (string * Q)) :=
  [ ("Daily commuting (< 50 mi/day)", range_row 100 150 200 250);
    ("Regular road trips (> 200 mi)", range_row 200 250 300 350);
    ("Family hauling & errands", range_row 120 180 240 280);
    ("Weekend fun & performance", range_row 150 200 250 300);
    ("General purpose / Not sure", range_row 120 180 220 260) ]%Q.

(** [range_requirements[use_case][range_need]]. *)
Definition range_requirement (use_case range_need : string) : result Q :=
  row <- dict_get range_requirements use_case ;;
  dict_get row range_need.

Definition range_mask (min_range : Q) (v : Vehicle) : bool :=
  Qle_bool min_range (fillna 0 (Electric_Range v)).

Definition range_filter (min_range : Q) (candidates : Frame Vehicle)
  : Frame Vehicle :=
  if col_in c_Electric_Range candidates
  then select (range_mask min_range) candidates
  else candidates.

(** Lines 156-169 and 286-301: both tabs start with these two filters. *)
Definition hard_filters (df_filtered : Frame Vehicle)
  (use_case budget_choice range_need : string)
  : result (Frame Vehicle * Q) :=
  candidates <- budget_filter budget_choice df_filtered ;;
  min_range <- range_requirement use_case range_need ;;
  Ok (range_filter min_range candidates, min_range).

(* ================================================================= *)
(** ** What [display_recommendations] renders: lines 530-650 *)

(** The figures of the top card, lines 546-562: year and range are shown
    as N/A when unknown, the price is converted unconditionally. *)
Record Card : Type := mkCard {
  card_year : option Z;
  card_range : option Z;
  card_price : Z
}.

Definition shown_int (c : cell) : attempt (option Z) :=
  match c with
  | Some q => Done (Some (trunc q))
  | None => Done None
  end.

Definition top_card (ranked : Frame Scored) (top_vehicle : Scored)
  : attempt Card :=
  year <-- shown_int (get_cell ranked c_Model_Year
                               (Model_Year (vehicle top_vehicle))) ;;
  range <-- shown_int (get_cell ranked c_Electric_Range
                                (Electric_Range (vehicle top_vehicle))) ;;
  price <-- (if col_in c_Base_MSRP ranked
             then py_int (Base_MSRP (vehicle top_vehicle))
             else Fails (Exn (KeyError c_Base_MSRP))) ;;
  Done (mkCard year range price).

(** The reasons of lines 572-589, each without the figure in its text.
    The value ratio of line 578 divides NumPy scalars, which gives inf or
    NaN on a zero divisor and does not raise. *)
Inductive reason : Type :=
| r_price | r_range | r_value | r_newness | r_incentive.

Definition why_this_match (weights : Weights) (ranked : Frame Scored)
  (top_vehicle : Scored) : attempt (list reason) :=
  let v := vehicle top_vehicle in
  reasons1 <-- (if Qlt_b 0.35 (w_price weights)
                then _ <-- py_int (get_cell_default ranked c_Base_MSRP
                                                    (Base_MSRP v) 0) ;;
                     Done [r_price]
                else Done []) ;;
  reasons2 <-- (if Qlt_b 0.35 (w_range weights)
                then _ <-- py_int (get_cell_default ranked c_Electric_Range
                                                    (Electric_Range v) 0) ;;
                     Done [r_range]
                else Done []) ;;
  let reasons3 := if Qlt_b 0.20 (w_value weights) then [r_value] else [] in
  reasons4 <-- (if Qlt_b 0.20 (w_newness weights)
                then _ <-- py_int (get_cell_default ranked c_Model_Year
                                                    (Model_Year v) 0) ;;
                     Done [r_newness]
                else Done []) ;;
  let reasons5 :=
    if col_in c_CAFV ranked then
      match CAFV_Eligibility v with
      | Some cafv_status =>
          if contains "eligible" (lower cafv_status) then [r_incentive] else []
      | None => []
      end
    else [] in
  Done (reasons1 ++ reasons2 ++ reasons3 ++ reasons4 ++ reasons5).

(** [Series.round(0)]: to the nearest integer, halves to the even one. *)
Definition round_half_even (q : Q) : Z :=
  let f := Qfloor q in
  match Qcompare (q - inject_Z f) 0.5 with
  | Lt => f
  | Gt => (f + 1)%Z
  | Eq => if Z.even f then f else (f + 1)%Z
  end.

(** [(composite_score * 100).round(0).astype(int)] on one entry. *)
Definition match_score (c : cell) : attempt Z :=
  match c with
  | Some q => Done (round_half_even (q * 100))
  | None => Fails ValueError
  end.

(* ================================================================= *)
(** ** Floating-point arithmetic (lines 456-468)

    pandas computes the [_norm] columns and the scores on float columns:
    float64 from [data_loader.py], float32 for [Base MSRP] after the
    downcast of [load_ev_data] in [data_utils.py].  Every operation of
    lines 459 and 467 returns the exact result rounded to the format.  The
    rounded operations take the rounding [fl] as a parameter;
    [round_float prec] is round-to-nearest, ties to even, on [prec] bits of
    significand.  The exponent range is not bounded: overflow to infinity
    and the loss of precision below the smallest normal number are outside
    this model. *)

Definition pow2 (z : Z) : Q := (2 ^ z)%Q.

(** The binary exponent of a positive number: [2^mag q <= q < 2^(mag q + 1)]. *)
Definition mag (q : Q) : Z :=
  let k := (Z.log2 (Qnum q) - Z.log2 (Zpos (Qden q)))%Z in
  if Qle_bool (pow2 k) q then k else (k - 1)%Z.

(** A positive number rounded to [prec] significant bits. *)
Definition round_pos (prec : Z) (q : Q) : Q :=
  let s := (prec - 1 - mag q)%Z in
  (inject_Z (round_half_even (q * pow2 s)) * pow2 (- s))%Q.

Definition round_float (prec : Z) (q : Q) : Q :=
  match Qcompare q 0 with
  | Eq => 0%Q
  | Gt => round_pos prec q
  | Lt => (- round_pos prec (- q))%Q
  end.

(** float64 and float32. *)
Definition binary64 : Q -> Q := round_float 53.

Definition binary32 : Q -> Q := round_float 24.

(** What the statements below need of a rounding: it keeps the order, and
    the difference of two distinct numbers of the format does not round to
    zero. *)
Definition rounding (fl : Q -> Q) : Prop :=
  (forall x y : Q, (x <= y)%Q -> (fl x <= fl y)%Q) /\
  (forall x y : Q, (fl x == x)%Q -> (fl y == y)%Q -> (x < y)%Q ->
                   (0 < fl (y - x))%Q).

Section Rounded.

Variable fl : Q -> Q.

Definition cell_fsub : cell -> cell -> cell :=
  cell_map2 (fun x y => fl (x - y)).

Definition cell_fdiv : cell -> cell -> cell :=
  cell_map2 (fun x y => fl (x / y)).

(** [norm_column] with the subtractions and the division of line 459
    rounded. *)
Definition norm_column_fl (present : bool) (col : list cell) : cell -> cell :=
  if present then
    let col_series := dropna col in
    if negb (match col_series with [] => true | _ => false end)
       && cell_ne (values_min col_series) (values_max col_series)
    then fun x => cell_fdiv (cell_fsub x (values_min col_series))
                            (cell_fsub (values_max col_series)
                                       (values_min col_series))
    else fun _ => Some 0.5%Q
  else fun _ => Some 0.5%Q.

(** Line 467 on the row of [v]:
    [1 - score_df.get('Base MSRP_norm', 0.5)]. *)
Definition price_score_fl (df : Frame Vehicle) (v : Vehicle) : cell :=
  cell_fsub (Some 1%Q)
            (norm_column_fl (col_in c_Base_MSRP df) (map Base_MSRP (rows df))
                            (Base_MSRP v)).

End Rounded.

Fixpoint mapA {A B : Type} (f : A -> attempt B) (l : list A)
  : attempt (list B) :=
  match l with
  | [] => Done []
  | a :: t => b <-- f a ;; bs <-- mapA f t ;; Done (b :: bs)
  end.

(** Lines 638-644: the ten best rows with their match score in percent. *)
Definition comparison_table (ranked : Frame Scored)
  : attempt (list (Scored * option Z)) :=
  let display_df := firstn 10 (rows ranked) in
  if col_in "composite_score" ranked
  then mapA (fun s => z <-- match_score (composite_score s) ;;
                      Done (s, Some z)) display_df
  else Done (map (fun s => (s, None)) display_df).

Record View : Type := mkView {
  view_ranked : Frame Scored;
  view_top : Scored;
  view_card : Card;
  view_reasons : list reason;
  view_alternatives : list (string * Scored);
  view_table : list (Scored * option Z)
}.

Section Render.

Variable argsort : list Q -> list nat.

(** [display_recommendations] in full: [None] is the early return. *)
Definition display_recommendations_view (df : Frame Vehicle)
  (use_case budget range_need method : string)
  (priorities : option (string * string * string))
  (cafv_pref : option string) : attempt (option View) :=
  if empty df then Done None
  else
    let score_df := component_frame df cafv_pref in
    weights <-- of_result (select_weights use_case method priorities) ;;
    let score_df := assign_composite weights score_df in
    let ranked := sort_values_desc argsort composite_score score_df in
    top_vehicle <-- match iloc0 ranked with
                    | Some s => Done s
                    | None => Fails IndexError
                    end ;;
    card <-- top_card ranked top_vehicle ;;
    reasons <-- why_this_match weights ranked top_vehicle ;;
    alternatives <-- of_result (get_diverse_alternatives ranked top_vehicle) ;;
    table <-- comparison_table ranked ;;
    Done (Some (mkView ranked top_vehicle card reasons alternatives table)).

(** What a submitted form leads to: the warning that nothing matches, with
    the range it suggests to fall back to, or the recommendations. *)
Inductive shown : Type :=
| NoMatches (min_range suggested : Q)
| Recommended (view : option View).

(** Lines 154-182: the quick tab after submission. *)
Definition quick_match (df_filtered : Frame Vehicle)
  (use_case budget_choice range_need : string) : attempt shown :=
  cm <-- of_result (hard_filters df_filtered use_case budget_choice range_need) ;;
  let '(candidates, min_range) := cm in
  if empty candidates
  then Done (NoMatches min_range (min_range - 50))
  else
    view <-- display_recommendations_view candidates use_case budget_choice
               range_need "quick" None None ;;
    Done (Recommended view).

End Render.

(* ================================================================= *)
(** ** The detailed tab: lines 240-257 and 284-347 *)

(** Lines 248-257: the bounds and the default computed for the slider for
    the minimum model year; [None] when the frame has no such column.  What
    Streamlit does with these arguments is outside the model. *)
Definition year_slider (df_filtered : Frame Vehicle)
  : attempt (option (Z * Z * Z)) :=
  if col_in c_Model_Year df_filtered then
    year_min <-- py_int (series_min (map Model_Year (rows df_filtered))) ;;
    year_max <-- py_int (series_max (map Model_Year (rows df_filtered))) ;;
    Done (Some (year_min, year_max, Z.max year_min (year_max - 3)))
  else Done None.

Definition c_EV_Type := "Electric Vehicle Type".

Definition type_map : list (string * string) :=
  [ ("Battery Electric (BEV only)", "Battery Electric Vehicle (BEV)");
    ("Plug-in Hybrid (PHEV only)", "Plug-in Hybrid Electric Vehicle (PHEV)") ].

Definition type_mask (t : string) (v : Vehicle) : bool :=
  opt_string_eqb (Electric_Vehicle_Type v) (Some t).

Definition brand_mask (brand_pref : list string) (v : Vehicle) : bool :=
  isin (map Some brand_pref) (Make v).

(** [candidates['Model Year'] >= year_pref]: false on NaN. *)
Definition year_mask (year_pref : Z) (v : Vehicle) : bool :=
  match Model_Year v with
  | Some y => Qle_bool (inject_Z year_pref) y
  | None => false
  end.

Definition cafv_mask (v : Vehicle) : bool :=
  str_contains_nocase "eligible" (CAFV_Eligibility v).

(** Lines 286-334.  [year_pref] is [None] when the form defined no such
    local, which is when [df_filtered] has no model-year column. *)
Definition detailed_candidates (df_filtered : Frame Vehicle)
  (use_case budget range_need ev_type_pref : string)
  (brand_pref : list string) (year_pref : option Z) (cafv_pref : string)
  : result (Frame Vehicle) :=
  cm <- hard_filters df_filtered use_case budget range_need ;;
  let candidates := fst cm in
  candidates <-
    (if negb (String.eqb ev_type_pref "Any (show me all)")
        && col_in c_EV_Type candidates
     then t <- dict_get type_map ev_type_pref ;;
          Ok (select (type_mask t) candidates)
     else Ok candidates) ;;
  let candidates :=
    if negb (match brand_pref with [] => true | _ => false end)
       && col_in c_Make candidates
    then select (brand_mask brand_pref) candidates
    else candidates in
  let candidates :=
    match year_pref with
    | Some y => if col_in c_Model_Year candidates
                then select (year_mask y) candidates
                else candidates
    | None => candidates
    end in
  let candidates :=
    if negb (String.eqb cafv_pref "Don't care") && col_in c_CAFV candidates
    then if String.eqb cafv_pref "Must be CAFV eligible"
         then select cafv_mask candidates
         else candidates
    else candidates in
  Ok candidates.

Section Detailed.

Variable argsort : list Q -> list nat.

(** What the year slider of the form hands on as [year_pref]: the user's
    choice, or the slider's default when it is left alone; nothing when the
    frame has no model-year column, where the form defines no [year_pref]. *)
Definition slider_value (slider : option (Z * Z * Z)) (year_choice : option Z)
  : option Z :=
  match slider with
  | Some (_, _, default) =>
      Some (match year_choice with Some y => y | None => default end)
  | None => None
  end.

(** Lines 187-347, a run in which the detailed form is submitted.  The form
    is built first, which computes the arguments of the year slider (lines
    248-257) and raises where [year_slider] does; then the submission is
    handled (lines 284-347).  [None] stands for the warning that nothing
    matches. *)
Definition detailed_match (df_filtered : Frame Vehicle)
  (use_case budget range_need ev_type_pref : string)
  (brand_pref : list string) (year_choice : option Z) (cafv_pref : string)
  (priorities : string * string * string) : attempt (option (option View)) :=
  slider <-- year_slider df_filtered ;;
  let year_pref := slider_value slider year_choice in
  candidates <-- of_result (detailed_candidates df_filtered use_case budget
                              range_need ev_type_pref brand_pref year_pref
                              cafv_pref) ;;
  if empty candidates then Done None
  else
    view <-- display_recommendations_view argsort candidates use_case budget
               range_need "detailed" (Some priorities) (Some cafv_pref) ;;
    Done (Some view).

End Detailed.

(* ================================================================= *)
(** ** [apply_filters] of [Dashboard.py]: lines 137-161

    The two sidebar choices are parameters: the manufacturer, and the year
    range as a function of the slider's bounds ([None]: the slider is left
    at its default, the full range).  The widgets are taken to return a
    choice; Streamlit's own checks of their arguments are outside the
    model. *)

Definition make_is (manufacturer : string) (v : Vehicle) : bool :=
  opt_string_eqb (Make v) (Some manufacturer).

Definition year_between (lo hi : Z) (v : Vehicle) : bool :=
  match Model_Year v with
  | Some y => Qle_bool (inject_Z lo) y && Qle_bool y (inject_Z hi)
  | None => false
  end.

Definition apply_filters (ev_df : Frame Vehicle) (manufacturer : string)
  (year_range : option (Z * Z)) : attempt (Frame Vehicle) :=
  if negb (col_in c_Make ev_df) then Fails (Exn (KeyError c_Make))
  else
    let filtered :=
      if negb (String.eqb manufacturer "All")
      then select (make_is manufacturer) ev_df
      else ev_df in
    if col_in c_Model_Year ev_df then
      year_min <-- py_int (series_min (map Model_Year (rows ev_df))) ;;
      year_max <-- py_int (series_max (map Model_Year (rows ev_df))) ;;
      let '(lo, hi) := match year_range with
                       | Some r => r
                       | None => (year_min, year_max)
                       end in
      Done (select (year_between lo hi) filtered)
    else Done filtered.

(* ================================================================= *)
(** ** Vocabulary of the further statements *)

(** A cell that is a number between 0 and 1. *)
Definition unit_cell (c : cell) : Prop :=
  match c with
  | Some q => (0 <= q <= 1)%Q
  | None => True
  end.

(** Weights that are non-negative and total 1. *)
Definition weights_ok (w : Weights) : Prop :=
  (0 <= w_price w /\ 0 <= w_range w /\ 0 <= w_value w /\ 0 <= w_newness w /\
   w_price w + w_range w + w_value w + w_newness w == 1)%Q.

Definition is_weight_reason (r : reason) : bool :=
  match r with
  | r_incentive => false
  | _ => true
  end.

(** A model year that is a whole number. *)
Definition whole_years (df : Frame Vehicle) : Prop :=
  forall v y, In v (rows df) -> Model_Year v = Some y ->
              exists z : Z, y = inject_Z z.

Definition bounded_budget (budget_choice : string) : Prop :=
  budget_choice = "Budget-conscious (< $40k)" \/
  budget_choice = "Mid-range ($40k - $60k)" \/
  budget_choice = "Premium ($60k - $80k)".

(** The place of an option on the range-importance slider. *)
Fixpoint index_of (s : string) (l : list string) : option nat :=
  match l with
  | [] => None
  | x :: t => if String.eqb x s then Some 0%nat
              else option_map S (index_of s t)
  end.

(** Some weight exceeds the threshold of its reason (lines 574-581). *)
Definition triggers (w : Weights) : bool :=
  Qlt_b 0.35 (w_price w) || Qlt_b 0.35 (w_range w)
  || Qlt_b 0.20 (w_value w) || Qlt_b 0.20 (w_newness w).

(** A row whose composite score is defined. *)
Definition scored_known (s : Scored) : bool :=
  match composite_score s with Some _ => true | None => false end.

(** The row of the comparison table made from a row with a defined score. *)
Definition table_entry (s : Scored) : Scored * option Z :=
  (s, Some (round_half_even (fillna 0 (composite_score s) * 100))).

(** A vehicle whose MSRP, range and model year are all known. *)
Definition complete (v : Vehicle) : Prop :=
  exists p r y : Q,
    Base_MSRP v = Some p /\ Electric_Range v = Some r /\
    Model_Year v = Some y.

(* ================================================================= *)
(** ** Further sample data *)

(** The candidates of the sample fleet under the mid-range budget. *)
Definition ex_mid_range : Frame Vehicle :=
  mkFrame all_columns
          [ veh 0 "TESLA" 300 40000 2022; veh 3 "KIA" 200 45000 2021 ].

Definition moderate := "Moderate (occasional trips)".
Definition mid_range := "Mid-range ($40k - $60k)".

(** The weights of the general-purpose use case. *)
Definition ex_weights : Weights := mkWeights 0.35 0.30 0.25 0.10.

(** A registration whose CAFV status denies eligibility. *)
Definition ex_not_eligible : Vehicle :=
  mkVehicle 4 (Some "FORD") (Some "FUSION") (Some 2017%Q) (Some 21%Q)
            (Some 0%Q) (Some "Plug-in Hybrid Electric Vehicle (PHEV)")
            (Some "Not eligible due to low battery range").

Definition view_or_blank (r : attempt (option View)) : View :=
  match r with
  | Done (Some view) => view
  | _ => mkView (mkFrame [] []) blank (mkCard None None 0) [] [] []
  end.

(** What [display_recommendations] renders for the sample fleet. *)
Definition ex_view : View :=
  view_or_blank
    (display_recommendations_view stable_argsort ex_fleet general_purpose
       "No preference" moderate "quick" None None).

(* ================================================================= *)
(** * Properties *)

(** ** Auxiliary facts *)

(** *** Rational comparisons *)

Lemma Qlt_b_true (x y : Q) : Qlt_b x y = true <-> (x < y)%Q.
Proof.
  unfold Qlt_b. rewrite negb_true_iff.
  split; intro H.
  - apply Qnot_le_lt. intro Hle. apply Qle_bool_iff in Hle. congruence.
  - destruct (Qle_bool y x) eqn:E; [|reflexivity].
    apply Qle_bool_iff in E. exfalso. exact (Qlt_not_le _ _ H E).
Qed.

Lemma Qle_bool_false (x y : Q) : Qle_bool x y = false -> (y < x)%Q.
Proof.
  intro H. apply Qlt_b_true. unfold Qlt_b. now rewrite H.
Qed.

(** *** Minimum and maximum of a Series *)

Lemma In_dropna (s : list cell) (x : Q) : In x (dropna s) <-> In (Some x) s.
Proof.
  induction s as [|[y|] t IH]; simpl.
  - tauto.
  - rewrite IH. split; intros [H|H]; auto; left; congruence.
  - rewrite IH. split; [auto|]. intros [H|H]; [discriminate|assumption].
Qed.

Lemma values_min_spec (l : list Q) :
  l <> [] ->
  exists m, values_min l = Some m /\ In m l /\ forall x, In x l -> (m <= x)%Q.
Proof.
  induction l as [|a t IH]; [congruence|]. intros _. simpl.
  destruct t as [|b t'].
  - simpl. exists a. repeat split; auto.
    intros x [<-|[]]. apply Qle_refl.
  - destruct IH as (m & Hm & Hin & Hle); [discriminate|].
    rewrite Hm. unfold Qmin2.
    destruct (Qle_bool a m) eqn:E.
    + exists a. repeat split; auto.
      intros x [<-|Hx]; [apply Qle_refl|].
      apply Qle_bool_iff in E. eapply Qle_trans; eauto.
    + exists m. repeat split; auto.
      intros x [<-|Hx]; [|auto].
      apply Qlt_le_weak. now apply Qle_bool_false.
Qed.

Lemma values_max_spec (l : list Q) :
  l <> [] ->
  exists m, values_max l = Some m /\ In m l /\ forall x, In x l -> (x <= m)%Q.
Proof.
  induction l as [|a t IH]; [congruence|]. intros _. simpl.
  destruct t as [|b t'].
  - simpl. exists a. repeat split; auto.
    intros x [<-|[]]. apply Qle_refl.
  - destruct IH as (m & Hm & Hin & Hle); [discriminate|].
    rewrite Hm. unfold Qmax2.
    destruct (Qle_bool a m) eqn:E.
    + exists m. repeat split; auto.
      intros x [<-|Hx]; [|auto]. now apply Qle_bool_iff.
    + exists a. repeat split; auto.
      intros x [<-|Hx]; [apply Qle_refl|].
      apply Qlt_le_weak. eapply Qle_lt_trans; [apply Hle, Hx|].
      now apply Qle_bool_false.
Qed.

(** *** The normaliser of lines 456-464 *)

Lemma norm_column_degenerate (present : bool) (col : list cell) (c : cell) :
  present = false \/ degenerate col ->
  norm_column present col c = Some 0.5%Q.
Proof.
  intros H. unfold norm_column.
  destruct present; [|reflexivity].
  destruct H as [H|H]; [discriminate|].
  destruct (dropna col) as [|a t] eqn:E; [reflexivity|].
  destruct (values_min_spec (l := a :: t)) as (m & Hm & Hmin & _); [discriminate|].
  destruct (values_max_spec (l := a :: t)) as (M & HM & Hmax & _); [discriminate|].
  rewrite Hm, HM. simpl.
  rewrite <- E in Hmin, Hmax. apply In_dropna in Hmin, Hmax.
  assert (Heq : (m == M)%Q) by (apply H; assumption).
  apply Qeq_bool_iff in Heq. now rewrite Heq.
Qed.

Lemma norm_column_spread (col : list cell) :
  two_distinct col ->
  exists m M : Q,
    (m < M)%Q /\
    (forall x, In (Some x) col -> (m <= x <= M)%Q) /\
    forall c, norm_column true col c
              = cell_div (cell_sub c (Some m)) (Some (M - m)%Q).
Proof.
  intros (x & y & Hx & Hy & Hxy).
  assert (Hne : dropna col <> []).
  { intro E. apply In_dropna in Hx. rewrite E in Hx. destruct Hx. }
  destruct (values_min_spec Hne) as (m & Hm & Hmin & Hlo).
  destruct (values_max_spec Hne) as (M & HM & Hmax & Hhi).
  assert (Hbounds : forall z, In (Some z) col -> (m <= z <= M)%Q).
  { intros z Hz. apply In_dropna in Hz. split; auto. }
  assert (HmM : (m < M)%Q).
  { destruct (Hbounds x Hx), (Hbounds y Hy).
    destruct (Qlt_le_dec m M) as [|HMm]; [assumption|].
    exfalso. apply Hxy. lra. }
  exists m, M. repeat split; try apply Hbounds; auto.
  intro c. unfold norm_column.
  destruct (dropna col) as [|a t] eqn:E; [congruence|].
  rewrite Hm, HM. simpl.
  destruct (Qeq_bool m M) eqn:Eq; [|reflexivity].
  apply Qeq_bool_iff in Eq. lra.
Qed.

(** *** Rows of the scored frame *)

Lemma In_score_frame (df : Frame Vehicle) (cafv_pref : option string)
  (weights : Weights) (s : Scored) :
  In s (rows (score_frame df cafv_pref weights)) <->
  exists v, In v (rows df) /\
            s = set_composite weights (component_row df cafv_pref v).
Proof.
  unfold score_frame, assign_composite, component_frame. simpl.
  rewrite map_map, in_map_iff.
  split; intros (v & H1 & H2); exists v; split; auto.
Qed.

Lemma value_column_degenerate (df : Frame Vehicle) (v : Vehicle) :
  col_in c_Electric_Range df = false \/ col_in c_Base_MSRP df = false \/
  degenerate (map value_raw_of (rows df)) ->
  value_column df v = Some 0.5%Q.
Proof.
  intros H. unfold value_column.
  destruct (col_in c_Electric_Range df); [|reflexivity].
  destruct (col_in c_Base_MSRP df); [|reflexivity]. simpl.
  destruct H as [H|[H|H]]; try discriminate.
  unfold series_max, series_min.
  destruct (dropna (map value_raw_of (rows df))) as [|a t] eqn:E; [reflexivity|].
  destruct (values_min_spec (l := a :: t)) as (m & Hm & Hmin & _); [discriminate|].
  destruct (values_max_spec (l := a :: t)) as (M & HM & Hmax & _); [discriminate|].
  rewrite Hm, HM. simpl.
  rewrite <- E in Hmin, Hmax. apply In_dropna in Hmin, Hmax.
  assert (Heq : (M == m)%Q) by (apply H; assumption).
  assert (Hle : (M <= m)%Q) by lra.
  apply Qle_bool_iff in Hle. now rewrite Hle.
Qed.

(** *** Selecting one row: [nsmallest(1, col)] and [nlargest(1, col)] *)

Lemma opt_string_eqb_eq (a b : option string) :
  opt_string_eqb a b = true <-> a = b.
Proof.
  destruct a as [x|], b as [y|]; simpl; try (split; congruence).
  rewrite String.eqb_eq. split; congruence.
Qed.

Lemma isin_false (used : list (option string)) (m : option string) :
  isin used m = false <-> ~ In m used.
Proof.
  unfold isin. split.
  - intros H Hin.
    assert (Hex : existsb (opt_string_eqb m) used = true).
    { apply existsb_exists. exists m. split; [assumption|].
      now apply opt_string_eqb_eq. }
    congruence.
  - intros H. destruct (existsb (opt_string_eqb m) used) eqn:E; [|reflexivity].
    apply existsb_exists in E. destruct E as (u & Hu & Heq).
    apply opt_string_eqb_eq in Heq. subst u. contradiction.
Qed.

Lemma pick_In {R : Type} (better : Q -> Q -> bool) (key : R -> cell)
  (l : list R) (best : option (R * Q)) (r : R) (q : Q) :
  pick better key l best = Some (r, q) ->
  best = Some (r, q) \/ (In r l /\ key r = Some q).
Proof.
  revert best. induction l as [|a t IH]; intros best H; simpl in H.
  - now left.
  - destruct (key a) as [qa|] eqn:Ka.
    + destruct best as [[b qb]|].
      * destruct (better qa qb).
        -- apply IH in H. destruct H as [H|[H1 H2]].
           ++ injection H as <- <-. right. split; [now left|assumption].
           ++ right. split; [now right|assumption].
        -- apply IH in H. destruct H as [H|[H1 H2]]; [now left|].
           right. split; [now right|assumption].
      * apply IH in H. destruct H as [H|[H1 H2]].
        -- injection H as <- <-. right. split; [now left|assumption].
        -- right. split; [now right|assumption].
    + apply IH in H. destruct H as [H|[H1 H2]]; [now left|].
      right. split; [now right|assumption].
Qed.

Lemma select_n1_In {R : Type} (better : Q -> Q -> bool) (key : R -> cell)
  (l : list R) (r : R) :
  select_n1 better key l = Some r -> In r l.
Proof.
  unfold select_n1.
  destruct (pick better key l None) as [[b q]|] eqn:E.
  - intros H. injection H as <-.
    apply pick_In in E. destruct E as [E|[E _]]; [discriminate|assumption].
  - destruct l; simpl; [discriminate|]. intros H. injection H as <-. now left.
Qed.

Lemma pick_least {R : Type} (better : Q -> Q -> bool) (key : R -> cell)
  (l : list R) (best : option (R * Q)) (r : R) (q : Q) :
  (forall x y, better x y = true -> (x <= y)%Q) ->
  (forall x y, better x y = false -> (y <= x)%Q) ->
  pick better key l best = Some (r, q) ->
  (forall b qb, best = Some (b, qb) -> (q <= qb)%Q) /\
  (forall r' q', In r' l -> key r' = Some q' -> (q <= q')%Q).
Proof.
  intros Ht Hf. revert best.
  induction l as [|a t IH]; intros best H; simpl in H.
  - split; [|intros ? ? []].
    intros b qb Hb. rewrite Hb in H. injection H as _ <-. apply Qle_refl.
  - destruct (key a) as [qa|] eqn:Ka.
    + destruct best as [[b qb]|].
      * destruct (better qa qb) eqn:E; apply IH in H; destruct H as [H1 H2];
          specialize (H1 _ _ eq_refl).
        -- split.
           ++ intros b' qb' Hb. injection Hb as _ <-.
              eapply Qle_trans; [exact H1|now apply Ht].
           ++ intros r' q' [<-|Hr] Hk; [|eauto].
              rewrite Ka in Hk. injection Hk as <-. exact H1.
        -- split.
           ++ intros b' qb' Hb. injection Hb as _ <-. exact H1.
           ++ intros r' q' [<-|Hr] Hk; [|eauto].
              rewrite Ka in Hk. injection Hk as <-.
              eapply Qle_trans; [exact H1|now apply Hf].
      * apply IH in H. destruct H as [H1 H2]. split; [discriminate|].
        intros r' q' [<-|Hr] Hk; [|eauto].
        rewrite Ka in Hk. injection Hk as <-. exact (H1 _ _ eq_refl).
    + apply IH in H. destruct H as [H1 H2]. split; [exact H1|].
      intros r' q' [<-|Hr] Hk; [congruence|eauto].
Qed.

Lemma pick_from_some {R : Type} (better : Q -> Q -> bool) (key : R -> cell)
  (l : list R) (b : R * Q) :
  pick better key l (Some b) <> None.
Proof.
  revert b. induction l as [|a t IH]; intros [b qb]; simpl; [discriminate|].
  destruct (key a) as [qa|]; [|apply IH].
  destruct (better qa qb); apply IH.
Qed.

Lemma pick_none {R : Type} (better : Q -> Q -> bool) (key : R -> cell)
  (l : list R) :
  pick better key l None = None -> forall x, In x l -> key x = None.
Proof.
  induction l as [|a t IH]; intros H x []; simpl in H.
  - subst a. destruct (key x); [|reflexivity].
    exfalso. exact (pick_from_some _ _ _ _ H).
  - destruct (key a); [exfalso; exact (pick_from_some _ _ _ _ H)|].
    now apply IH.
Qed.

(** What line 686 selects: a row whose known range is the least in the
    pool. *)
Lemma nsmallest1_least {R : Type} (keep_last : bool) (key : R -> cell)
  (l : list R) (r : R) (q : Q) :
  nsmallest1 keep_last key l = Some r -> key r = Some q ->
  forall r' q', In r' l -> key r' = Some q' -> (q <= q')%Q.
Proof.
  unfold nsmallest1, select_n1. intros H Hq r' q' Hr Hk.
  destruct (pick (if keep_last then Qle_bool else Qlt_b) key l None)
    as [[b qb]|] eqn:E.
  - injection H as ->.
    destruct (pick_In _ _ _ _ E) as [Hn|[_ Hb]]; [discriminate|].
    assert (qb = q) by congruence. subst qb.
    refine (proj2 (pick_least _ _ _ _ _ _ E) r' q' Hr Hk).
    + intros x y. destruct keep_last; intros Hxy.
      * now apply Qle_bool_iff.
      * apply Qlt_le_weak. now apply Qlt_b_true.
    + intros x y. destruct keep_last; intros Hxy.
      * apply Qlt_le_weak. now apply Qle_bool_false.
      * unfold Qlt_b in Hxy. apply negb_false_iff in Hxy.
        now apply Qle_bool_iff.
  - rewrite (pick_none _ _ _ E r' Hr) in Hk. discriminate.
Qed.

(** *** Lists: positions, [take], strongly sorted lists *)

Lemma take_seq_shift {R : Type} (pre l : list R) :
  take (pre ++ l) (seq (List.length pre) (List.length l)) = l.
Proof.
  revert pre. induction l as [|x t IH]; intros pre; [reflexivity|].
  simpl. rewrite nth_error_app2 by lia. rewrite Nat.sub_diag. simpl.
  f_equal.
  specialize (IH (pre ++ [x])).
  rewrite <- app_assoc, length_app in IH. simpl in IH.
  rewrite Nat.add_1_r in IH. exact IH.
Qed.

Lemma take_seq {R : Type} (l : list R) : take l (seq 0 (List.length l)) = l.
Proof. exact (take_seq_shift [] l). Qed.

Lemma take_Permutation {R : Type} (l : list R) (idx : list nat) :
  Permutation idx (seq 0 (List.length l)) -> Permutation (take l idx) l.
Proof.
  intros H. rewrite <- (take_seq l) at 2.
  unfold take. now apply Permutation_flat_map.
Qed.

Lemma take_map {R : Type} (d : R) (l : list R) (idx : list nat) :
  Forall (fun i => (i < List.length l)%nat) idx ->
  take l idx = map (fun i => nth i l d) idx.
Proof.
  induction 1 as [|i t Hi _ IH]; [reflexivity|].
  simpl. rewrite <- IH.
  destruct (nth_error l i) as [r|] eqn:E.
  - now rewrite (nth_error_nth _ _ d E).
  - apply nth_error_None in E. lia.
Qed.

Lemma map_nth_seq {A : Type} (d : A) (l : list A) :
  map (fun k => nth k l d) (seq 0 (List.length l)) = l.
Proof.
  rewrite <- (take_map d); [apply take_seq|].
  apply Forall_forall. intros i Hi. apply in_seq in Hi. lia.
Qed.

Lemma filter_split_Permutation {A : Type} (f : A -> bool) (l : list A) :
  Permutation (filter f l ++ filter (fun x => negb (f x)) l) l.
Proof.
  induction l as [|x t IH]; [constructor|].
  simpl. destruct (f x); simpl.
  - now constructor.
  - apply Permutation_sym, Permutation_cons_app, Permutation_sym, IH.
Qed.

Lemma StronglySorted_app {A : Type} (R : A -> A -> Prop) (l1 l2 : list A) :
  StronglySorted R l1 -> StronglySorted R l2 ->
  (forall a b, In a l1 -> In b l2 -> R a b) ->
  StronglySorted R (l1 ++ l2).
Proof.
  induction 1 as [|a t Ht IH Ha]; intros H2 Hx; [exact H2|].
  simpl. constructor.
  - apply IH; [assumption|]. intros; apply Hx; simpl; auto.
  - apply Forall_app. split; [assumption|].
    apply Forall_forall. intros b Hb. apply Hx; simpl; auto.
Qed.

Lemma StronglySorted_rev {A : Type} (R : A -> A -> Prop) (l : list A) :
  StronglySorted (fun a b => R b a) l -> StronglySorted R (rev l).
Proof.
  induction 1 as [|a t Ht IH Ha]; [constructor|].
  simpl. apply StronglySorted_app; [assumption|repeat constructor|].
  intros x y Hx [<-|[]]. apply in_rev in Hx.
  rewrite Forall_forall in Ha. now apply Ha.
Qed.

Lemma StronglySorted_map {A B : Type} (R : B -> B -> Prop) (f : A -> B)
  (l : list A) :
  StronglySorted (fun a b => R (f a) (f b)) l -> StronglySorted R (map f l).
Proof.
  induction 1 as [|a t Ht IH Ha]; [constructor|].
  simpl. constructor; [assumption|].
  apply Forall_map. exact Ha.
Qed.

Lemma StronglySorted_impl_In {A : Type} (R R' : A -> A -> Prop) (l : list A) :
  (forall a b, In a l -> In b l -> R a b -> R' a b) ->
  StronglySorted R l -> StronglySorted R' l.
Proof.
  intros Himp H. induction H as [|a t Ht IH Ha]; [constructor|].
  constructor.
  - apply IH. intros; apply Himp; simpl; auto.
  - rewrite Forall_forall in *. intros b Hb.
    apply Himp; simpl; auto.
Qed.

Lemma StronglySorted_nth_error {A : Type} (R : A -> A -> Prop) (l : list A)
  (i j : nat) (a b : A) :
  StronglySorted R l -> (i < j)%nat ->
  nth_error l i = Some a -> nth_error l j = Some b -> R a b.
Proof.
  intros H. revert i j. induction H as [|x t Ht IH Hx]; intros i j Hij Hi Hj.
  - destruct i; discriminate.
  - destruct j as [|j]; [lia|]. simpl in Hj.
    destruct i as [|i]; simpl in Hi.
    + injection Hi as <-. rewrite Forall_forall in Hx.
      apply Hx. eapply nth_error_In; eauto.
    + apply (IH i j); auto. lia.
Qed.

(** *** Positions of the known and of the missing cells *)

Lemma idx_where_cons (p : cell -> bool) (c : cell) (t : list cell) :
  idx_where p (c :: t)
  = (if p c then [0%nat] else []) ++ map S (idx_where p t).
Proof.
  unfold idx_where. simpl List.length.
  change (seq 0 (S (List.length t))) with (0%nat :: seq 1 (List.length t)).
  rewrite <- seq_shift.
  assert (Hshift : forall l,
             filter (fun i => p (nth i (c :: t) NaN)) (map S l)
             = map S (filter (fun i => p (nth i t NaN)) l)).
  { induction l as [|i l IH]; [reflexivity|].
    simpl. destruct (p (nth i t NaN)); simpl; now rewrite <- IH. }
  cbn [filter nth]. rewrite Hshift. destruct (p c); reflexivity.
Qed.

Lemma idx_where_In (p : cell -> bool) (items : list cell) (i : nat) :
  In i (idx_where p items) -> p (nth i items NaN) = true.
Proof.
  unfold idx_where. rewrite filter_In. tauto.
Qed.

Lemma idx_where_increasing (p : cell -> bool) (items : list cell) :
  StronglySorted lt (idx_where p items).
Proof.
  induction items as [|c t IH]; [constructor|].
  rewrite idx_where_cons.
  apply StronglySorted_app.
  - destruct (p c); repeat constructor.
  - apply StronglySorted_map.
    eapply StronglySorted_impl_In; [|exact IH]. intros; lia.
  - intros a b Ha Hb. destruct (p c); [|destruct Ha].
    destruct Ha as [<-|[]]. apply in_map_iff in Hb.
    destruct Hb as (k & <- & _). lia.
Qed.

(** The values that are not NaN, paired with their positions. *)
Lemma dropna_positions (items : list cell) :
  Forall2 (fun i q => nth i items NaN = Some q)
          (idx_where notna items) (dropna items).
Proof.
  induction items as [|c t IH]; [constructor|].
  rewrite idx_where_cons.
  assert (Hshift : Forall2 (fun i q => nth i (c :: t) NaN = Some q)
                           (map S (idx_where notna t)) (dropna t)).
  { clear -IH. induction IH; simpl; constructor; auto. }
  destruct c as [x|]; simpl; [constructor; auto|exact Hshift].
Qed.

Lemma Forall2_nth {A B : Type} (R : A -> B -> Prop) (l1 : list A)
  (l2 : list B) (d1 : A) (d2 : B) (k : nat) :
  Forall2 R l1 l2 -> (k < List.length l1)%nat -> R (nth k l1 d1) (nth k l2 d2).
Proof.
  intros H. revert k. induction H; intros k Hk; simpl in *; [lia|].
  destruct k; [assumption|]. apply IHForall2. lia.
Qed.

Lemma Forall2_rev' {A B : Type} (R : A -> B -> Prop) (l1 : list A)
  (l2 : list B) :
  Forall2 R l1 l2 -> Forall2 R (rev l1) (rev l2).
Proof.
  induction 1; simpl; [constructor|].
  apply Forall2_app; [assumption|]. repeat constructor. assumption.
Qed.

Lemma StronglySorted_nth {A : Type} (R : A -> A -> Prop) (l : list A) (d : A)
  (i j : nat) :
  StronglySorted R l -> (i < j < List.length l)%nat -> R (nth i l d) (nth j l d).
Proof.
  intros H Hij.
  destruct (nth_error l i) as [a|] eqn:Ei;
    [|apply nth_error_None in Ei; lia].
  destruct (nth_error l j) as [b|] eqn:Ej;
    [|apply nth_error_None in Ej; lia].
  rewrite (nth_error_nth _ _ d Ei), (nth_error_nth _ _ d Ej).
  eapply StronglySorted_nth_error; [exact H| |exact Ei|exact Ej]. lia.
Qed.

Lemma StronglySorted_all {A : Type} (R : A -> A -> Prop) (l : list A) :
  (forall a b, In a l -> In b l -> R a b) -> StronglySorted R l.
Proof.
  induction l as [|x t IH]; intros H; constructor.
  - apply IH. intros; apply H; simpl; auto.
  - apply Forall_forall. intros b Hb. apply H; simpl; auto.
Qed.

(** *** [nargsort] over a kernel that sorts *)

Section NargsortFacts.

Variable argsort : list Q -> list nat.
Hypothesis Hsorts : argsort_sorts argsort.

Lemma vals_length (items : list cell) :
  List.length (vals items) = List.length (rev (idx_where notna items)).
Proof.
  unfold vals. rewrite !length_rev. symmetry.
  exact (Forall2_length (dropna_positions items)).
Qed.

Lemma kernel_in_range (items : list cell) (k : nat) :
  In k (argsort (vals items)) -> (k < List.length (vals items))%nat.
Proof.
  intros Hk. destruct (Hsorts (vals items)) as [Hperm _].
  apply (Permutation_in _ Hperm) in Hk. apply in_seq in Hk. lia.
Qed.

Lemma pos_value (items : list cell) (k : nat) :
  (k < List.length (vals items))%nat ->
  nth (pos items k) items NaN = Some (v_at (vals items) k).
Proof.
  intros Hk. unfold pos, v_at, vals.
  apply (Forall2_nth (R := fun i q => nth i items NaN = Some q)).
  - apply Forall2_rev', dropna_positions.
  - rewrite <- vals_length. exact Hk.
Qed.

Lemma pos_decreasing (items : list cell) (a b : nat) :
  (a < b < List.length (vals items))%nat -> (pos items b < pos items a)%nat.
Proof.
  intros Hab. unfold pos.
  apply (StronglySorted_nth (R := fun x y => (y < x)%nat)).
  - apply StronglySorted_rev, idx_where_increasing.
  - rewrite <- vals_length. exact Hab.
Qed.

Lemma nargsort_desc_eq (items : list cell) :
  nargsort_desc argsort items
  = rev (map (pos items) (argsort (vals items))) ++ idx_where isna items.
Proof. reflexivity. Qed.

Lemma nargsort_desc_Permutation (items : list cell) :
  Permutation (nargsort_desc argsort items) (seq 0 (List.length items)).
Proof.
  rewrite nargsort_desc_eq.
  assert (Hk : Permutation (map (pos items) (argsort (vals items)))
                           (idx_where notna items)).
  { destruct (Hsorts (vals items)) as [Hperm _].
    rewrite (Permutation_map (pos items) Hperm), vals_length.
    unfold pos. rewrite map_nth_seq. symmetry. apply Permutation_rev. }
  rewrite <- Permutation_rev, Hk.
  exact (filter_split_Permutation
           (fun i => notna (nth i items NaN)) (seq 0 (List.length items))).
Qed.

Lemma nargsort_desc_lt (items : list cell) :
  Forall (fun i => (i < List.length items)%nat) (nargsort_desc argsort items).
Proof.
  apply Forall_forall. intros i Hi.
  apply (Permutation_in _ (nargsort_desc_Permutation items)) in Hi.
  apply in_seq in Hi. lia.
Qed.

Lemma known_part (items : list cell) (i : nat) :
  In i (rev (map (pos items) (argsort (vals items)))) ->
  exists k, i = pos items k /\ In k (argsort (vals items)) /\
            nth i items NaN = Some (v_at (vals items) k).
Proof.
  intros Hi. apply in_rev, in_map_iff in Hi. destruct Hi as (k & <- & Hk).
  exists k. repeat split; auto. apply pos_value. now apply kernel_in_range.
Qed.

Lemma nan_part (items : list cell) (i : nat) :
  In i (idx_where isna items) -> nth i items NaN = NaN.
Proof.
  intros Hi. apply idx_where_In in Hi.
  destruct (nth i items NaN); [discriminate|reflexivity].
Qed.

(** Descending by value, NaN last. *)
Lemma nargsort_desc_sorted (items : list cell) :
  StronglySorted (fun i j => cell_desc (nth i items NaN) (nth j items NaN))
                 (nargsort_desc argsort items).
Proof.
  rewrite nargsort_desc_eq. apply StronglySorted_app.
  - apply StronglySorted_rev, StronglySorted_map.
    destruct (Hsorts (vals items)) as [_ Hsorted].
    eapply StronglySorted_impl_In; [|exact Hsorted].
    intros a b Ha Hb Hab. cbv beta.
    rewrite (pos_value items (kernel_in_range _ _ Ha)).
    rewrite (pos_value items (kernel_in_range _ _ Hb)).
    exact Hab.
  - apply StronglySorted_all. intros a b Ha Hb.
    now rewrite (nan_part _ _ Ha), (nan_part _ _ Hb).
  - intros a b Ha Hb. destruct (known_part _ _ Ha) as (k & _ & _ & ->).
    now rewrite (nan_part _ _ Hb).
Qed.

(** With a stable kernel, equal values keep their positional order. *)
Lemma nargsort_desc_stable (items : list cell) :
  argsort_stable argsort ->
  StronglySorted
    (fun i j => cell_tie (nth i items NaN) (nth j items NaN) -> (i < j)%nat)
    (nargsort_desc argsort items).
Proof.
  intros Hstable. rewrite nargsort_desc_eq. apply StronglySorted_app.
  - apply StronglySorted_rev, StronglySorted_map.
    eapply StronglySorted_impl_In; [|exact (Hstable (vals items))].
    intros a b Ha Hb Hab. cbv beta.
    pose proof (kernel_in_range _ _ Ha) as Ha'.
    pose proof (kernel_in_range _ _ Hb) as Hb'.
    rewrite (pos_value items Ha'), (pos_value items Hb'). simpl.
    intros Htie. apply pos_decreasing. split; [|exact Hb'].
    apply Hab. symmetry. exact Htie.
  - apply StronglySorted_all. intros a b Ha _.
    now rewrite (nan_part _ _ Ha).
  - intros a b Ha Hb. rewrite (nan_part _ _ Hb).
    destruct (nth a items NaN); simpl; tauto.
Qed.

End NargsortFacts.

(** *** [sort_values] over a kernel that sorts *)

Lemma nth_map_cell {R : Type} (by_col : R -> cell) (l : list R) (d : R)
  (i : nat) :
  (i < List.length l)%nat -> nth i (map by_col l) NaN = by_col (nth i l d).
Proof.
  intros Hi. rewrite (nth_indep _ NaN (by_col d)) by (rewrite length_map; lia).
  apply map_nth.
Qed.

Lemma nth_label {R : Type} (lab : R -> nat) (l : list R) (d : R) (i : nat) :
  map lab l = seq 0 (List.length l) -> (i < List.length l)%nat ->
  lab (nth i l d) = i.
Proof.
  intros Hlab Hi. rewrite <- (map_nth lab), Hlab.
  rewrite seq_nth by exact Hi. reflexivity.
Qed.

Section SortValuesFacts.

Variable argsort : list Q -> list nat.
Hypothesis Hsorts : argsort_sorts argsort.

Variable R : Type.
Variable by_col : R -> cell.

Lemma sort_values_desc_rows (df : Frame R) (d : R) :
  rows (sort_values_desc argsort by_col df)
  = map (fun i => nth i (rows df) d)
        (nargsort_desc argsort (map by_col (rows df))).
Proof.
  unfold sort_values_desc. simpl. apply take_map.
  rewrite <- (length_map by_col). now apply nargsort_desc_lt.
Qed.

Lemma sort_values_desc_Permutation (df : Frame R) :
  Permutation (rows (sort_values_desc argsort by_col df)) (rows df).
Proof.
  unfold sort_values_desc. simpl. apply take_Permutation.
  rewrite <- (length_map by_col). now apply nargsort_desc_Permutation.
Qed.

Lemma sort_values_desc_sorted (df : Frame R) :
  StronglySorted (fun s s' => cell_desc (by_col s) (by_col s'))
                 (rows (sort_values_desc argsort by_col df)).
Proof.
  destruct (rows df) as [|d t] eqn:E.
  - pose proof (sort_values_desc_Permutation df) as Hp. rewrite E in Hp.
    apply Permutation_sym, Permutation_nil in Hp. rewrite Hp. constructor.
  - rewrite (sort_values_desc_rows df d). apply StronglySorted_map.
    pose proof (nargsort_desc_lt Hsorts (map by_col (rows df))) as Hlt.
    rewrite Forall_forall, length_map in Hlt.
    eapply StronglySorted_impl_In; [|exact (nargsort_desc_sorted Hsorts _)].
    intros a b Ha Hb Hab. cbv beta in *.
    now rewrite !(nth_map_cell by_col (rows df) d) in Hab by auto.
Qed.

Lemma sort_values_desc_stable (lab : R -> nat) (df : Frame R) :
  argsort_stable argsort ->
  map lab (rows df) = seq 0 (List.length (rows df)) ->
  StronglySorted
    (fun s s' => cell_tie (by_col s) (by_col s') -> (lab s < lab s')%nat)
    (rows (sort_values_desc argsort by_col df)).
Proof.
  intros Hstable Hlab. destruct (rows df) as [|d t] eqn:E.
  - pose proof (sort_values_desc_Permutation df) as Hp. rewrite E in Hp.
    apply Permutation_sym, Permutation_nil in Hp. rewrite Hp. constructor.
  - rewrite (sort_values_desc_rows df d). apply StronglySorted_map.
    pose proof (nargsort_desc_lt Hsorts (map by_col (rows df))) as Hlt.
    rewrite Forall_forall, length_map in Hlt.
    eapply StronglySorted_impl_In;
      [|exact (nargsort_desc_stable Hsorts _ Hstable)].
    intros a b Ha Hb Hab. cbv beta in *.
    rewrite !(nth_map_cell by_col (rows df) d) in Hab by auto.
    rewrite <- E in Hlab.
    rewrite !(nth_label lab (rows df) d) by auto. exact Hab.
Qed.

End SortValuesFacts.

(** *** The stable kernel *)

Lemma insert_idx_Permutation (v : list Q) (i : nat) (l : list nat) :
  Permutation (insert_idx v i l) (i :: l).
Proof.
  induction l as [|j t IH]; simpl; [reflexivity|].
  destruct (Qle_bool (v_at v i) (v_at v j)); [reflexivity|].
  rewrite IH. apply perm_swap.
Qed.

Lemma insert_idx_sorted (v : list Q) (i : nat) (l : list nat) :
  StronglySorted (fun a b => (v_at v a <= v_at v b)%Q) l ->
  StronglySorted (fun a b => (v_at v a <= v_at v b)%Q) (insert_idx v i l).
Proof.
  induction 1 as [|j t Ht IH Hj]; simpl; [repeat constructor|].
  destruct (Qle_bool (v_at v i) (v_at v j)) eqn:E.
  - apply Qle_bool_iff in E. constructor; [now constructor|].
    constructor; [exact E|].
    rewrite Forall_forall in *. intros b Hb.
    eapply Qle_trans; [exact E|auto].
  - apply Qle_bool_false in E. constructor; [exact IH|].
    rewrite Forall_forall in *. intros b Hb.
    apply (Permutation_in _ (insert_idx_Permutation v i t)) in Hb.
    destruct Hb as [<-|Hb]; [now apply Qlt_le_weak|auto].
Qed.

Lemma insert_idx_stable (v : list Q) (i : nat) (l : list nat) :
  Forall (fun b => (i < b)%nat) l ->
  StronglySorted (fun a b => (v_at v a == v_at v b)%Q -> (a < b)%nat) l ->
  StronglySorted (fun a b => (v_at v a == v_at v b)%Q -> (a < b)%nat)
                 (insert_idx v i l).
Proof.
  intros Hlt H. induction H as [|j t Ht IH Hj]; simpl; [repeat constructor|].
  apply Forall_cons_iff in Hlt. destruct Hlt as [Hij Hlt].
  destruct (Qle_bool (v_at v i) (v_at v j)) eqn:E.
  - constructor; [now constructor|].
    constructor; [auto|]. rewrite Forall_forall in *. auto.
  - apply Qle_bool_false in E. constructor; [now apply IH|].
    rewrite Forall_forall in *. intros b Hb.
    apply (Permutation_in _ (insert_idx_Permutation v i t)) in Hb.
    destruct Hb as [<-|Hb]; [|auto].
    intros Heq. rewrite Heq in E. exfalso. exact (Qlt_irrefl _ E).
Qed.

Lemma stable_argsort_from (v : list Q) (n s : nat) :
  let l := fold_right (insert_idx v) [] (seq s n) in
  Permutation l (seq s n) /\
  StronglySorted (fun a b => (v_at v a <= v_at v b)%Q) l /\
  StronglySorted (fun a b => (v_at v a == v_at v b)%Q -> (a < b)%nat) l.
Proof.
  revert s. induction n as [|n IH]; intros s; simpl.
  - repeat split; constructor.
  - destruct (IH (S s)) as (Hp & Hs & Ht).
    split; [|split].
    + rewrite insert_idx_Permutation. now constructor.
    + now apply insert_idx_sorted.
    + apply insert_idx_stable; [|exact Ht].
      apply Forall_forall. intros b Hb.
      apply (Permutation_in _ Hp) in Hb. apply in_seq in Hb. lia.
Qed.

Lemma stable_argsort_sorts : argsort_sorts stable_argsort.
Proof.
  intros v. destruct (stable_argsort_from v (List.length v) 0) as (Hp & Hs & _).
  split; assumption.
Qed.

Lemma stable_argsort_stable : argsort_stable stable_argsort.
Proof.
  intros v. now destruct (stable_argsort_from v (List.length v) 0) as (_ & _ & Ht).
Qed.

(** *** The ranking *)

Lemma ranked_inv (argsort : list Q -> list nat) (df : Frame Vehicle)
  (use_case budget range_need method : string)
  (priorities : option (string * string * string))
  (cafv_pref : option string) (ranked : Frame Scored) :
  display_recommendations_ranked argsort df use_case budget range_need method
                                 priorities cafv_pref = Ok (Some ranked) ->
  exists weights,
    empty df = false /\
    select_weights use_case method priorities = Ok weights /\
    ranked = sort_values_desc argsort composite_score
                              (score_frame df cafv_pref weights).
Proof.
  unfold display_recommendations_ranked.
  destruct (empty df); [discriminate|].
  destruct (select_weights use_case method priorities) as [w|e]; simpl;
    [|discriminate].
  intros H. injection H as <-. exists w. auto.
Qed.

(** *** The model on sample data *)

(** Both kernels sort the sample values; they differ on the order of the
    positions that hold equal values. *)
Example kernels_sort_sample :
  map (v_at ex_values) (npy_aquicksort ex_values)
  = map (v_at ex_values) (stable_argsort ex_values) /\
  map (fun i => Qnum (v_at ex_values i)) (stable_argsort ex_values)
  = [0; 1; 1; 1; 2; 2; 3; 3; 3; 4; 4; 4; 5; 5; 5; 5; 6; 7; 8; 9; 9; 10; 11;
     12; 13; 14; 15; 16; 17; 18; 19; 20; 21; 22; 30]%Z /\
  npy_aquicksort ex_values <> stable_argsort ex_values.
Proof.
  split; [vm_compute; reflexivity|].
  split; [vm_compute; reflexivity|].
  vm_compute. discriminate.
Qed.

(** The sample fleet is ranked Tesla, Chevrolet, Nissan, Kia. *)
Example ex_ranked_labels :
  display_recommendations_ranked stable_argsort ex_fleet general_purpose
    "No preference" "Moderate (occasional trips)" "quick" None None
  = Ok (Some ex_ranked) /\
  map (fun s => label (vehicle s)) (rows ex_ranked) = [0; 2; 1; 3]%nat.
Proof.
  split; vm_compute; reflexivity.
Qed.

(** Under "Mid-range ($40k - $60k)" only the Tesla (40000) of Tesla, Nissan
    and Chevrolet passes the budget filter, and a ranking that holds a
    single brand has no alternatives. *)
Example mid_range_keeps_tesla :
  exists out ranked top,
    budget_filter "Mid-range ($40k - $60k)" ex_trio = Ok out /\
    map label (rows out) = [0%nat] /\
    display_recommendations_ranked stable_argsort out
      "Regular road trips (> 200 mi)" "Mid-range ($40k - $60k)"
      "Moderate (occasional trips)" "quick" None None
    = Ok (Some ranked) /\
    iloc0 ranked = Some top /\
    get_diverse_alternatives ranked top = Ok [].
Proof.
  do 3 eexists.
  split; [vm_compute; reflexivity|].
  split; [vm_compute; reflexivity|].
  split; [vm_compute; reflexivity|].
  split; vm_compute; reflexivity.
Qed.

(* ================================================================= *)
(** ** Rounding *)

Lemma pow2_pos (z : Z) : (0 < pow2 z)%Q.
Proof. apply Qpower_0_lt. reflexivity. Qed.

Lemma pow2_add (a b : Z) : (pow2 (a + b) == pow2 a * pow2 b)%Q.
Proof. apply Qpower_plus. discriminate. Qed.

Lemma pow2_le (a b : Z) : (a <= b)%Z -> (pow2 a <= pow2 b)%Q.
Proof. intros H. apply Qpower_le_compat_l; [exact H|discriminate]. Qed.

Lemma pow2_Z (n : Z) : (0 <= n)%Z -> (pow2 n == inject_Z (2 ^ n))%Q.
Proof. intros H. symmetry. exact (Zpower_Qpower 2 n H). Qed.

Lemma mag_spec (q : Q) :
  (0 < q)%Q -> (pow2 (mag q) <= q < pow2 (mag q + 1))%Q.
Proof.
  intros Hq. destruct q as [n d]. unfold mag. cbn [Qnum Qden].
  assert (Hn : (0 < n)%Z).
  { unfold Qlt in Hq. simpl in Hq. lia. }
  set (ln := Z.log2 n). set (ld := Z.log2 (Zpos d)).
  destruct (Z.log2_spec n Hn) as [Hn1 Hn2].
  destruct (Z.log2_spec (Zpos d) eq_refl) as [Hd1 Hd2].
  fold ln in Hn1, Hn2. fold ld in Hd1, Hd2.
  assert (Hln : (0 <= ln)%Z) by apply Z.log2_nonneg.
  assert (Hld : (0 <= ld)%Z) by apply Z.log2_nonneg.
  assert (QN1 : (pow2 ln <= inject_Z n)%Q).
  { rewrite pow2_Z by exact Hln. now rewrite <- Zle_Qle. }
  assert (QN2 : (inject_Z n < pow2 (ln + 1))%Q).
  { rewrite pow2_Z by lia. rewrite <- Zlt_Qlt. exact Hn2. }
  assert (QD1 : (pow2 ld <= inject_Z (Zpos d))%Q).
  { rewrite pow2_Z by exact Hld. now rewrite <- Zle_Qle. }
  assert (QD2 : (inject_Z (Zpos d) < pow2 (ld + 1))%Q).
  { rewrite pow2_Z by lia. rewrite <- Zlt_Qlt. exact Hd2. }
  assert (HD : (0 < inject_Z (Zpos d))%Q) by reflexivity.
  assert (Eq : (n # d == inject_Z n / inject_Z (Zpos d))%Q)
    by apply Qmake_Qdiv.
  pose proof (pow2_pos (ln - ld)) as Pk.
  pose proof (pow2_pos (ln - ld - 1)) as Pk1.
  destruct (Qle_bool (pow2 (ln - ld)) (n # d)) eqn:E.
  - apply Qle_bool_iff in E. split; [exact E|].
    rewrite Eq. apply Qlt_shift_div_r; [exact HD|].
    assert (H : (pow2 (ln + 1) == pow2 (ln - ld + 1) * pow2 ld)%Q).
    { rewrite <- pow2_add. now replace (ln - ld + 1 + ld)%Z with (ln + 1)%Z by ring. }
    pose proof (pow2_pos (ln - ld + 1)) as P.
    nra.
  - assert (Hlt : (n # d < pow2 (ln - ld))%Q).
    { apply Qnot_le_lt. intro Hle. apply Qle_bool_iff in Hle. congruence. }
    replace (ln - ld - 1 + 1)%Z with (ln - ld)%Z by ring.
    split; [|exact Hlt].
    rewrite Eq. apply Qle_shift_div_l; [exact HD|].
    assert (H : (pow2 ln == pow2 (ln - ld - 1) * pow2 (ld + 1))%Q).
    { rewrite <- pow2_add. now replace (ln - ld - 1 + (ld + 1))%Z with ln by ring. }
    nra.
Qed.

Lemma mag_mono (x y : Q) : (0 < x)%Q -> (x <= y)%Q -> (mag x <= mag y)%Z.
Proof.
  intros Hx Hxy.
  destruct (mag_spec Hx) as [Hx1 _].
  destruct (@mag_spec y) as [_ Hy2]; [lra|].
  destruct (Z_le_gt_dec (mag x) (mag y)) as [H|H]; [exact H|].
  exfalso.
  assert (Hp : (pow2 (mag y + 1) <= pow2 (mag x))%Q) by (apply pow2_le; lia).
  lra.
Qed.

Lemma round_half_even_near (q : Q) :
  (inject_Z (round_half_even q) - 0.5 <= q
   <= inject_Z (round_half_even q) + 0.5)%Q.
Proof.
  unfold round_half_even.
  pose proof (Qfloor_le q) as Hlo.
  pose proof (Qlt_floor q) as Hhi.
  rewrite inject_Z_plus in Hhi. change (inject_Z 1) with 1%Q in Hhi.
  destruct (Qcompare (q - inject_Z (Qfloor q)) 0.5) eqn:E.
  - apply Qeq_alt in E.
    destruct (Z.even (Qfloor q));
      rewrite ?inject_Z_plus; change (inject_Z 1) with 1%Q; lra.
  - apply Qlt_alt in E. lra.
  - apply Qgt_alt in E.
    rewrite inject_Z_plus. change (inject_Z 1) with 1%Q. lra.
Qed.

Lemma round_half_even_between (q : Q) (lo hi : Z) :
  (inject_Z lo <= q <= inject_Z hi)%Q ->
  (lo <= round_half_even q <= hi)%Z.
Proof.
  intros [Hlo Hhi].
  pose proof (round_half_even_near q) as [Hn1 Hn2].
  assert (H1 : (inject_Z (lo - 1) < inject_Z (round_half_even q))%Q).
  { unfold Z.sub. rewrite inject_Z_plus.
    change (inject_Z (- (1))) with (-1)%Q. lra. }
  assert (H2 : (inject_Z (round_half_even q) < inject_Z (hi + 1))%Q).
  { rewrite inject_Z_plus. change (inject_Z 1) with 1%Q. lra. }
  rewrite <- Zlt_Qlt in H1, H2. lia.
Qed.

Lemma round_half_even_mono (x y : Q) :
  (x <= y)%Q -> (round_half_even x <= round_half_even y)%Z.
Proof.
  intros Hxy.
  pose proof (Qfloor_resp_le _ _ Hxy) as Hf.
  unfold round_half_even.
  destruct (Z.eq_dec (Qfloor x) (Qfloor y)) as [E|E].
  - rewrite <- E.
    destruct (Qcompare_spec (x - inject_Z (Qfloor x)) 0.5) as [Ex|Ex|Ex];
      destruct (Qcompare_spec (y - inject_Z (Qfloor x)) 0.5) as [Ey|Ey|Ey];
      try (destruct (Z.even (Qfloor x))); try lia; exfalso; lra.
  - assert (Hlt : (Qfloor x + 1 <= Qfloor y)%Z) by lia.
    destruct (Qcompare (x - inject_Z (Qfloor x)) 0.5);
      destruct (Qcompare (y - inject_Z (Qfloor y)) 0.5);
      try (destruct (Z.even (Qfloor x))); try (destruct (Z.even (Qfloor y)));
      lia.
Qed.

Section Binary.
Variable prec : Z.
Hypothesis Hprec : (1 <= prec)%Z.

Lemma round_pos_binade (q : Q) :
  (0 < q)%Q ->
  (pow2 (mag q) <= round_pos prec q <= pow2 (mag q + 1))%Q.
Proof.
  intros Hq. destruct (mag_spec Hq) as [H1 H2].
  unfold round_pos. set (e := mag q) in *. set (s := (prec - 1 - e)%Z).
  pose proof (pow2_pos s) as Ps. pose proof (pow2_pos (- s)) as Pms.
  assert (Hinv : (pow2 s * pow2 (- s) == 1)%Q).
  { rewrite <- pow2_add. now replace (s + - s)%Z with 0%Z by ring. }
  assert (Hlo : (pow2 e * pow2 s == inject_Z (2 ^ (prec - 1)))%Q).
  { rewrite <- pow2_add, <- pow2_Z by lia. unfold s.
    now replace (e + (prec - 1 - e))%Z with (prec - 1)%Z by ring. }
  assert (Hhi : (pow2 (e + 1) * pow2 s == inject_Z (2 ^ prec))%Q).
  { rewrite <- pow2_add, <- pow2_Z by lia. unfold s.
    now replace (e + 1 + (prec - 1 - e))%Z with prec by ring. }
  assert (Hb : (2 ^ (prec - 1) <= round_half_even (q * pow2 s) <= 2 ^ prec)%Z).
  { apply round_half_even_between. split.
    - rewrite <- Hlo. nra.
    - rewrite <- Hhi. nra. }
  destruct Hb as [Hb1 Hb2]. rewrite Zle_Qle in Hb1, Hb2.
  rewrite <- Hlo in Hb1. rewrite <- Hhi in Hb2.
  set (r := inject_Z (round_half_even (q * pow2 s))) in *.
  split.
  - assert (E : (pow2 e == pow2 e * pow2 s * pow2 (- s))%Q)
      by (rewrite <- Qmult_assoc, Hinv; ring).
    rewrite E. nra.
  - assert (E : (pow2 (e + 1) == pow2 (e + 1) * pow2 s * pow2 (- s))%Q)
      by (rewrite <- Qmult_assoc, Hinv; ring).
    rewrite E. nra.
Qed.

Lemma round_pos_mono (x y : Q) :
  (0 < x)%Q -> (x <= y)%Q -> (round_pos prec x <= round_pos prec y)%Q.
Proof.
  intros Hx Hxy. assert (Hy : (0 < y)%Q) by lra.
  pose proof (mag_mono Hx Hxy) as Hm.
  destruct (Z.eq_dec (mag x) (mag y)) as [E|E].
  - unfold round_pos. rewrite E. set (s := (prec - 1 - mag y)%Z).
    pose proof (pow2_pos s) as Ps. pose proof (pow2_pos (- s)) as Pms.
    assert (H : (round_half_even (x * pow2 s) <= round_half_even (y * pow2 s))%Z).
    { apply round_half_even_mono. nra. }
    rewrite Zle_Qle in H. nra.
  - destruct (round_pos_binade Hx) as [_ H1].
    destruct (round_pos_binade Hy) as [H2 _].
    assert (Hp : (pow2 (mag x + 1) <= pow2 (mag y))%Q) by (apply pow2_le; lia).
    lra.
Qed.

Lemma round_float_mono (x y : Q) :
  (x <= y)%Q -> (round_float prec x <= round_float prec y)%Q.
Proof.
  intros Hxy. unfold round_float.
  destruct (Qcompare_spec x 0) as [Ex|Ex|Ex];
    destruct (Qcompare_spec y 0) as [Ey|Ey|Ey]; try lra.
  - destruct (@round_pos_binade y Ey) as [H _].
    pose proof (pow2_pos (mag y)). lra.
  - assert (Hx : (0 < - x)%Q) by lra.
    destruct (@round_pos_binade (- x) Hx) as [H _].
    pose proof (pow2_pos (mag (- x))). lra.
  - assert (Hy : (0 < - y)%Q) by lra.
    assert (Hyx : (- y <= - x)%Q) by lra.
    pose proof (@round_pos_mono (- y) (- x) Hy Hyx). lra.
  - assert (Hx : (0 < - x)%Q) by lra.
    destruct (@round_pos_binade (- x) Hx) as [H _].
    destruct (@round_pos_binade y Ey) as [H' _].
    pose proof (pow2_pos (mag (- x))). pose proof (pow2_pos (mag y)).
    lra.
  - now apply round_pos_mono.
Qed.

Lemma round_float_pos (x : Q) : (0 < x)%Q -> (0 < round_float prec x)%Q.
Proof.
  intros Hx. unfold round_float.
  destruct (Qcompare_spec x 0) as [E|E|E]; try lra.
  destruct (@round_pos_binade x E) as [H _].
  pose proof (pow2_pos (mag x)). lra.
Qed.

(** Round-to-nearest on any number of bits is a rounding. *)
Lemma round_float_rounding : rounding (round_float prec).
Proof.
  split.
  - exact round_float_mono.
  - intros x y _ _ Hxy. apply round_float_pos. lra.
Qed.

End Binary.

(** With nothing rounded the rounded operations are the exact ones. *)
Lemma norm_column_fl_exact (present : bool) (col : list cell) (c : cell) :
  norm_column_fl (fun q => q) present col c = norm_column present col c.
Proof. reflexivity. Qed.

Lemma price_score_fl_exact (df : Frame Vehicle) (cafv_pref : option string)
  (weights : Weights) (v : Vehicle) :
  price_score_fl (fun q => q) df v
  = price_score (set_composite weights (component_row df cafv_pref v)).
Proof. reflexivity. Qed.

Lemma norm_column_fl_spread (fl : Q -> Q) (col : list cell) :
  two_distinct col ->
  exists m M : Q,
    (m < M)%Q /\ In (Some m) col /\ In (Some M) col /\
    (forall x, In (Some x) col -> (m <= x <= M)%Q) /\
    forall c, norm_column_fl fl true col c
              = cell_fdiv fl (cell_fsub fl c (Some m)) (Some (fl (M - m))).
Proof.
  intros (x & y & Hx & Hy & Hxy).
  assert (Hne : dropna col <> []).
  { intro E. apply In_dropna in Hx. rewrite E in Hx. destruct Hx. }
  destruct (values_min_spec Hne) as (m & Hm & Hmin & Hlo).
  destruct (values_max_spec Hne) as (M & HM & Hmax & Hhi).
  assert (Hbounds : forall z, In (Some z) col -> (m <= z <= M)%Q).
  { intros z Hz. apply In_dropna in Hz. split; auto. }
  assert (HmM : (m < M)%Q).
  { destruct (Hbounds x Hx), (Hbounds y Hy).
    destruct (Qlt_le_dec m M) as [|HMm]; [assumption|].
    exfalso. apply Hxy. lra. }
  exists m, M. split; [exact HmM|].
  split; [now apply In_dropna|]. split; [now apply In_dropna|].
  split; [exact Hbounds|].
  intro c. unfold norm_column_fl.
  destruct (dropna col) as [|a t] eqn:E; [congruence|].
  rewrite Hm, HM. simpl.
  destruct (Qeq_bool m M) eqn:Eq; [|reflexivity].
  apply Qeq_bool_iff in Eq. lra.
Qed.

(** Whatever the rounding, a larger price never gets a larger price
    score. *)
Lemma price_score_fl_weakly_decreasing (fl : Q -> Q) (df : Frame Vehicle)
  (v1 v2 : Vehicle) (x1 x2 : Q) :
  rounding fl ->
  (forall x, In (Some x) (map Base_MSRP (rows df)) -> (fl x == x)%Q) ->
  col_in c_Base_MSRP df = true ->
  In v1 (rows df) -> In v2 (rows df) ->
  Base_MSRP v1 = Some x1 -> Base_MSRP v2 = Some x2 ->
  (x1 < x2)%Q ->
  exists p1 p2 : Q,
    price_score_fl fl df v1 = Some p1 /\
    price_score_fl fl df v2 = Some p2 /\ (p2 <= p1)%Q.
Proof.
  intros [Hmono Hdiff] Hfloat Hcol Hv1 Hv2 E1 E2 Hlt.
  assert (Hx1 : In (Some x1) (map Base_MSRP (rows df)))
    by (rewrite <- E1; now apply in_map).
  assert (Hx2 : In (Some x2) (map Base_MSRP (rows df)))
    by (rewrite <- E2; now apply in_map).
  destruct (@norm_column_fl_spread fl (map Base_MSRP (rows df)))
    as (m & M & HmM & Hm & HM & Hb & Hnorm).
  { exists x1, x2. repeat split; auto. lra. }
  unfold price_score_fl. rewrite Hcol, E1, E2, !Hnorm. simpl.
  do 2 eexists. split; [reflexivity|]. split; [reflexivity|].
  assert (Hd : (0 < fl (M - m))%Q)
    by (apply Hdiff; [apply Hfloat, Hm|apply Hfloat, HM|exact HmM]).
  assert (Ha : (fl (x1 - m) <= fl (x2 - m))%Q) by (apply Hmono; lra).
  assert (Hq : (fl (x1 - m) / fl (M - m) <= fl (x2 - m) / fl (M - m))%Q).
  { unfold Qdiv. apply Qmult_le_compat_r; [exact Ha|].
    apply Qlt_le_weak, Qinv_lt_0_compat, Hd. }
  apply Hmono in Hq.
  apply Hmono.
  revert Hq.
  generalize (fl (fl (x1 - m) / fl (M - m))) (fl (fl (x2 - m) / fl (M - m))).
  intros a b Hab. lra.
Qed.

(** Without rounding the decrease is strict. *)
Lemma price_score_exact_strictly_decreasing (df : Frame Vehicle)
  (v1 v2 : Vehicle) (x1 x2 : Q) :
  col_in c_Base_MSRP df = true ->
  In v1 (rows df) -> In v2 (rows df) ->
  Base_MSRP v1 = Some x1 -> Base_MSRP v2 = Some x2 ->
  (x1 < x2)%Q ->
  exists p1 p2 : Q,
    price_score_fl (fun q => q) df v1 = Some p1 /\
    price_score_fl (fun q => q) df v2 = Some p2 /\ (p2 < p1)%Q.
Proof.
  intros Hcol Hv1 Hv2 E1 E2 Hlt.
  assert (Hx1 : In (Some x1) (map Base_MSRP (rows df)))
    by (rewrite <- E1; now apply in_map).
  assert (Hx2 : In (Some x2) (map Base_MSRP (rows df)))
    by (rewrite <- E2; now apply in_map).
  destruct (@norm_column_fl_spread (fun q => q) (map Base_MSRP (rows df)))
    as (m & M & HmM & _ & _ & Hb & Hnorm).
  { exists x1, x2. repeat split; auto. lra. }
  unfold price_score_fl. rewrite Hcol, E1, E2, !Hnorm. simpl.
  do 2 eexists. split; [reflexivity|]. split; [reflexivity|].
  destruct (Hb x1 Hx1), (Hb x2 Hx2).
  assert (Hd : (0 < / (M - m))%Q) by (apply Qinv_lt_0_compat; lra).
  assert (Hq : ((x1 - m) / (M - m) < (x2 - m) / (M - m))%Q).
  { unfold Qdiv. apply Qmult_lt_compat_r; [exact Hd|lra]. }
  revert Hq. generalize ((x1 - m) / (M - m))%Q ((x2 - m) / (M - m))%Q.
  intros a b Hab. lra.
Qed.

(* ================================================================= *)
(** ** The vectorised kernels *)

(** The two vector networks sort every input of keys 0, 1 and 2 that fits
    the register, each position once. *)
Lemma vector_kernels_sort_small :
  forallb (fun n => forallb (sorts_input avx2_argsort) (small_inputs n))
          (seq 0 5) = true /\
  forallb (fun n => forallb (sorts_input avx512_argsort) (small_inputs n))
          (seq 0 9) = true.
Proof. split; vm_compute; reflexivity. Qed.

(* ================================================================= *)
(** * The claims *)

(** ** C1: the range slot *)

(** C1, at a failing input. On the ranked sample fleet the top match is the
    Tesla and the affordability slot takes the Nissan; of the remaining
    brands the Chevrolet has the longest range (250), yet the slot titled
    "Longest Range" holds the Kia, whose range (200) is the shortest. *)
Theorem C1_range_slot_takes_shortest_range :
  let tesla := row_at ex_ranked 0 in
  let chevrolet := row_at ex_ranked 1 in
  let nissan := row_at ex_ranked 2 in
  let kia := row_at ex_ranked 3 in
  iloc0 ex_ranked = Some tesla /\
  get_diverse_alternatives ex_ranked tesla
  = Ok [(t_affordable, nissan); (t_range, kia); (t_value, chevrolet)] /\
  map (fun s => (Make (vehicle s), Electric_Range (vehicle s)))
      [tesla; nissan; kia; chevrolet]
  = [(Some "TESLA", Some 300%Q); (Some "NISSAN", Some 150%Q);
     (Some "KIA", Some 200%Q); (Some "CHEVROLET", Some 250%Q)] /\
  In chevrolet (rows ex_ranked).
Proof.
  intros tesla chevrolet nissan kia.
  split; [vm_compute; reflexivity|].
  split; [vm_compute; reflexivity|].
  split; [vm_compute; reflexivity|].
  vm_compute. right. left. reflexivity.
Qed.

(** ** C2: the budget filter *)

Lemma budget_ranges_keys (choice : string) (lo hi : Q) :
  dict_get budget_ranges choice = Ok (lo, hi) ->
  (choice = "Budget-conscious (< $40k)" /\ lo = 0%Q /\ hi = 40000%Q) \/
  (choice = "Mid-range ($40k - $60k)" /\ lo = 40000%Q /\ hi = 60000%Q) \/
  (choice = "Premium ($60k - $80k)" /\ lo = 60000%Q /\ hi = 80000%Q) \/
  (choice = "Luxury (> $80k)" /\ lo = 80000%Q /\ hi = 999999%Q) \/
  (choice = "No preference" /\ lo = 0%Q /\ hi = 999999%Q).
Proof.
  unfold budget_ranges, dict_get.
  repeat match goal with
         | |- context [String.eqb ?k choice] =>
             destruct (String.eqb_spec k choice) as [<-|_]
         end;
    intros H; try discriminate; injection H as <- <-; tauto.
Qed.

Lemma budget_mask_true (lo hi : Q) (v : Vehicle) :
  budget_mask lo hi v = true <->
  (lo <= fillna 999999 (Base_MSRP v) <= hi)%Q.
Proof.
  unfold budget_mask. rewrite andb_true_iff, !Qle_bool_iff. tauto.
Qed.

(** C2, as stated, fails: a vehicle whose MSRP is unknown passes the budget
    filter under "Luxury (> $80k)", a choice other than "No preference". *)
Lemma C2_unknown_msrp_passes_luxury :
  Base_MSRP ex_unpriced = NaN /\
  "Luxury (> $80k)" <> "No preference" /\
  exists out,
    budget_filter "Luxury (> $80k)" (mkFrame all_columns [ex_unpriced]) = Ok out /\
    In ex_unpriced (rows out) /\
    ~ (exists x, Base_MSRP ex_unpriced = Some x /\ (80000 <= x <= 999999)%Q).
Proof.
  split; [reflexivity|]. split; [discriminate|].
  eexists. split; [reflexivity|]. split; [left; reflexivity|].
  intros (x & Hx & _). discriminate.
Qed.

(** C2, amended. Under every budget choice, on a frame with an MSRP column,
    a vehicle passes the budget filter iff its MSRP, an unknown one replaced
    by the sentinel 999999, lies in the chosen inclusive interval; so a
    known MSRP passes iff it lies in the interval, and an unknown MSRP
    passes exactly under "Luxury (> $80k)" and "No preference", whose upper
    bound is the sentinel.  A frame without MSRP column passes unfiltered. *)
Theorem C2_budget_filter_sentinel :
  forall (choice : string) (lo hi : Q) (df : Frame Vehicle),
    dict_get budget_ranges choice = Ok (lo, hi) ->
    exists out,
      budget_filter choice df = Ok out /\
      (col_in c_Base_MSRP df = false -> out = df) /\
      (col_in c_Base_MSRP df = true ->
       forall v, In v (rows df) ->
         (In v (rows out) <-> (lo <= fillna 999999 (Base_MSRP v) <= hi)%Q) /\
         (forall x, Base_MSRP v = Some x ->
                    (In v (rows out) <-> (lo <= x <= hi)%Q)) /\
         (Base_MSRP v = NaN ->
          (In v (rows out) <->
           choice = "Luxury (> $80k)" \/ choice = "No preference"))).
Proof.
  intros choice lo hi df Hget.
  unfold budget_filter. rewrite Hget. simpl.
  destruct (col_in c_Base_MSRP df) eqn:Hcol.
  - eexists. split; [reflexivity|]. split; [discriminate|].
    intros _ v Hv. simpl.
    assert (Hpass : In v (filter (budget_mask lo hi) (rows df)) <->
                    (lo <= fillna 999999 (Base_MSRP v) <= hi)%Q).
    { rewrite filter_In, budget_mask_true. tauto. }
    split; [exact Hpass|]. split.
    + intros x Hx. rewrite Hpass, Hx. reflexivity.
    + intros Hna. rewrite Hpass, Hna. simpl.
      destruct (budget_ranges_keys _ Hget)
        as [(-> & -> & ->)|[(-> & -> & ->)|[(-> & -> & ->)|
            [(-> & -> & ->)|(-> & -> & ->)]]]];
        (split; [intros [H1 H2]|intros [H|H]]);
        try discriminate; auto;
        try (exfalso; revert H2; apply Qlt_not_le; reflexivity);
        split; discriminate.
  - exists df. split; [reflexivity|]. split; [reflexivity|discriminate].
Qed.

(** Under "Premium ($60k - $80k)" the vehicle without a known MSRP does not
    pass. *)
Lemma C2_budget_filter_sentinel_witness :
  exists out,
    budget_filter "Premium ($60k - $80k)" (mkFrame all_columns [ex_unpriced])
    = Ok out /\ ~ In ex_unpriced (rows out).
Proof.
  destruct (@C2_budget_filter_sentinel "Premium ($60k - $80k)" 60000%Q 80000%Q
              (mkFrame all_columns [ex_unpriced]) eq_refl)
    as (out & Hout & _ & Hcol).
  exists out. split; [exact Hout|].
  destruct (Hcol eq_refl ex_unpriced (or_introl eq_refl)) as (_ & _ & Hna).
  intros Hin. apply (Hna eq_refl) in Hin. destruct Hin; discriminate.
Defined.

(** ** C3: absent columns *)

(** Scoring itself raises for no combination of columns: every use case of
    the table, and every priority profile, yields a ranking of a non-empty
    frame. *)
Lemma scoring_never_raises (argsort : list Q -> list nat)
  (df : Frame Vehicle) (use_case budget range_need method : string)
  (priorities : option (string * string * string)) (cafv_pref : option string) :
  (method = "quick" -> In use_case (map fst use_case_weights)) ->
  exists r, display_recommendations_ranked argsort df use_case budget
              range_need method priorities cafv_pref = Ok r.
Proof.
  intros Huc. unfold display_recommendations_ranked.
  destruct (empty df); [eauto|].
  unfold select_weights.
  destruct (String.eqb_spec method "quick") as [Hm|Hm].
  - specialize (Huc Hm). simpl in Huc.
    destruct Huc as [<-|[<-|[<-|[<-|[<-|[]]]]]]; simpl; eauto.
  - destruct priorities; simpl; eauto.
Qed.

(** C3, at a failing input. The sample fleet without a [Make] column is
    scored and ranked (four rows), but [get_diverse_alternatives] raises
    [KeyError] on the ranked frame. *)
Theorem C3_alternatives_raise_without_make :
  col_in c_Make ex_no_make = false /\
  display_recommendations_ranked stable_argsort ex_no_make general_purpose
    "No preference" "Moderate (occasional trips)" "quick" None None
  = Ok (Some ex_ranked_no_make) /\
  List.length (rows ex_ranked_no_make) = 4%nat /\
  get_diverse_alternatives ex_ranked_no_make (row_at ex_ranked_no_make 0)
  = Raise (KeyError "Make").
Proof.
  split; [reflexivity|].
  split; [vm_compute; reflexivity|].
  split; vm_compute; reflexivity.
Qed.

(** ** C4: order among equal composite scores *)

Lemma score_frame_labels (df : Frame Vehicle) (cafv_pref : option string)
  (weights : Weights) :
  map (fun s => label (vehicle s)) (rows (score_frame df cafv_pref weights))
  = map label (rows df).
Proof.
  unfold score_frame, assign_composite, component_frame. simpl.
  rewrite !map_map. reflexivity.
Qed.

Lemma score_frame_length (df : Frame Vehicle) (cafv_pref : option string)
  (weights : Weights) :
  List.length (rows (score_frame df cafv_pref weights))
  = List.length (rows df).
Proof.
  unfold score_frame, assign_composite, component_frame. simpl.
  now rewrite !length_map.
Qed.

(** The ranking under a kernel that sorts. *)
Lemma ranked_descending (argsort : list Q -> list nat)
  (df : Frame Vehicle) (use_case budget range_need method : string)
  (priorities : option (string * string * string))
  (cafv_pref : option string) (ranked : Frame Scored) :
  argsort_sorts argsort ->
  display_recommendations_ranked argsort df use_case budget range_need
                                 method priorities cafv_pref
  = Ok (Some ranked) ->
  exists weights,
    select_weights use_case method priorities = Ok weights /\
    Permutation (rows ranked) (rows (score_frame df cafv_pref weights)) /\
    StronglySorted ranks_before (rows ranked).
Proof.
  intros Hsorts H.
  apply ranked_inv in H. destruct H as (w & _ & Hw & ->).
  exists w. split; [exact Hw|]. split.
  - now apply sort_values_desc_Permutation.
  - exact (sort_values_desc_sorted Hsorts composite_score _).
Qed.

Lemma take_nth_error {R : Type} (l : list R) (idx : list nat) :
  Forall (fun i => (i < List.length l)%nat) idx ->
  map Some (take l idx) = map (nth_error l) idx.
Proof.
  induction 1 as [|i t Hi _ IH]; [reflexivity|].
  simpl. destruct (nth_error l i) as [r|] eqn:E.
  - simpl. now rewrite IH.
  - apply nth_error_None in E. lia.
Qed.

Lemma score_frame_vehicles (df : Frame Vehicle) (cafv_pref : option string)
  (weights : Weights) :
  map vehicle (rows (score_frame df cafv_pref weights)) = rows df.
Proof.
  unfold score_frame, assign_composite, component_frame. simpl.
  rewrite !map_map. simpl. apply map_id.
Qed.

(** The row at a rank and the position the rank was taken from. *)
Lemma rank_position (df : Frame Vehicle) (ranked : list Scored)
  (order : list nat) (a : nat) (sa : Scored) :
  map (fun s => Some (vehicle s)) ranked = map (nth_error (rows df)) order ->
  nth_error ranked a = Some sa ->
  exists i, nth_error order a = Some i /\
            nth_error (rows df) i = Some (vehicle sa).
Proof.
  intros Hmap Ha.
  assert (H : nth_error (map (fun s => Some (vehicle s)) ranked) a
              = Some (Some (vehicle sa))).
  { rewrite nth_error_map, Ha. reflexivity. }
  rewrite Hmap, nth_error_map in H.
  destruct (nth_error order a) as [i|]; [|discriminate].
  exists i. split; [reflexivity|]. simpl in H. now injection H.
Qed.

Lemma position_label (l : list Vehicle) (i : nat) (v : Vehicle) :
  map label l = seq 0 (List.length l) ->
  nth_error l i = Some v -> label v = i.
Proof.
  intros Hlab Hi.
  assert (Hlt : (i < List.length l)%nat)
    by (apply nth_error_Some; rewrite Hi; discriminate).
  rewrite <- (@nth_label Vehicle label l v i Hlab Hlt).
  now rewrite (nth_error_nth _ _ v Hi).
Qed.

Lemma stable_kernel_keeps_ties (argsort : list Q -> list nat) :
  argsort_sorts argsort -> argsort_stable argsort ->
  ties_keep_load_order argsort.
Proof.
  intros Hsorts Hstable df use_case budget range_need method priorities
         cafv_pref ranked H.
  apply ranked_inv in H. destruct H as (w & _ & _ & ->).
  set (sf := score_frame df cafv_pref w).
  set (items := map composite_score (rows sf)).
  assert (Hlen : List.length (rows sf) = List.length (rows df))
    by apply score_frame_length.
  assert (Hlt : Forall (fun i => (i < List.length (rows sf))%nat)
                       (nargsort_desc argsort items)).
  { unfold items. rewrite <- (length_map composite_score).
    now apply nargsort_desc_lt. }
  assert (Hsome : map Some (rows (sort_values_desc argsort composite_score sf))
                  = map (nth_error (rows sf)) (nargsort_desc argsort items))
    by (apply take_nth_error, Hlt).
  exists (nargsort_desc argsort items). split; [|split].
  - rewrite <- Hlen. unfold items. rewrite <- (length_map composite_score).
    now apply nargsort_desc_Permutation.
  - transitivity (map (option_map vehicle)
                      (map Some (rows (sort_values_desc argsort
                                         composite_score sf)))).
    { rewrite map_map. reflexivity. }
    rewrite Hsome, map_map. apply map_ext. intro i.
    rewrite <- (score_frame_vehicles df cafv_pref w), nth_error_map.
    reflexivity.
  - intros a b i j sa sb Hab Hi Hj Ha Hb Htie.
    assert (Hat : forall r k s,
               nth_error (nargsort_desc argsort items) r = Some k ->
               nth_error (rows (sort_values_desc argsort composite_score sf)) r
               = Some s ->
               nth k items NaN = composite_score s).
    { intros r k s Hk Hs.
      assert (E : nth_error (map Some
                    (rows (sort_values_desc argsort composite_score sf))) r
                  = Some (Some s)) by (rewrite nth_error_map, Hs; reflexivity).
      rewrite Hsome, nth_error_map, Hk in E. cbv [option_map] in E.
      injection E as E. unfold items.
      apply nth_error_nth, map_nth_error. exact E. }
    refine (StronglySorted_nth_error
              (nargsort_desc_stable Hsorts items Hstable) Hab Hi Hj _).
    rewrite (Hat a i sa Hi Ha), (Hat b j sb Hj Hb). exact Htie.
Qed.

Lemma load_order_gives_label_order (argsort : list Q -> list nat) :
  ties_keep_load_order argsort -> ties_keep_label_order argsort.
Proof.
  intros Hties df use_case budget range_need method priorities cafv_pref
         ranked Hlab H a b sa sb Hab Ha Hb Htie.
  destruct (Hties df use_case budget range_need method priorities cafv_pref
                  ranked H) as (order & _ & Hmap & Hord).
  destruct (@rank_position df (rows ranked) order a sa Hmap Ha)
    as (i & Hi & Hvi).
  destruct (@rank_position df (rows ranked) order b sb Hmap Hb)
    as (j & Hj & Hvj).
  pose proof (Hord a b i j sa sb Hab Hi Hj Ha Hb Htie) as Hij.
  refine (StronglySorted_nth_error Hlab Hij _ _).
  - rewrite nth_error_map, Hvi. reflexivity.
  - rewrite nth_error_map, Hvj. reflexivity.
Qed.

(** Two tied ranks whose rows stand the other way round in the frame
    refute load order, on a frame labelled [0 .. n-1]. *)
Lemma ties_out_of_order (argsort : list Q -> list nat) (df : Frame Vehicle)
  (use_case budget range_need method : string)
  (priorities : option (string * string * string))
  (cafv_pref : option string) (ranked : Frame Scored)
  (a b : nat) (sa sb : Scored) :
  map label (rows df) = seq 0 (List.length (rows df)) ->
  display_recommendations_ranked argsort df use_case budget range_need
                                 method priorities cafv_pref
  = Ok (Some ranked) ->
  (a < b)%nat ->
  nth_error (rows ranked) a = Some sa ->
  nth_error (rows ranked) b = Some sb ->
  same_score sa sb ->
  (label (vehicle sb) <= label (vehicle sa))%nat ->
  ~ ties_keep_load_order argsort.
Proof.
  intros Hlab H Hab Ha Hb Htie Hle Hties.
  destruct (Hties df use_case budget range_need method priorities cafv_pref
                  ranked H) as (order & _ & Hmap & Hord).
  destruct (@rank_position df (rows ranked) order a sa Hmap Ha)
    as (i & Hi & Hvi).
  destruct (@rank_position df (rows ranked) order b sb Hmap Hb)
    as (j & Hj & Hvj).
  pose proof (Hord a b i j sa sb Hab Hi Hj Ha Hb Htie) as Hij.
  apply (@position_label (rows df) i (vehicle sa) Hlab) in Hvi.
  apply (@position_label (rows df) j (vehicle sb) Hlab) in Hvj. lia.
Qed.

(** C4, as stated, fails under both forms of NumPy's default kernel, which
    is the one line 528 gets.
    - Scalar introsort (builds or CPUs without a vectorised argsort):
      eighteen registrations of the same model all get the same composite
      score and come out with the labels 2..16 in reverse, so label 16
      stands before label 15.  Up to sixteen candidates this kernel is an
      insertion sort and keeps ties in place.
    - Vectorised kernel (x86 with AVX2 or AVX-512): the network leaves an
      input of equal keys as it is, so the eighteen stay in load order
      there; but of two pairs of identical registrations, the pair with the
      higher score loaded last, each pair comes out reversed: labels
      3, 2, 1, 0 where load order among the ties is 2, 3, 0, 1. *)
Lemma C4_default_sort_reorders_ties :
  (map (fun s => label (vehicle s)) (rows ex_ranked_eighteen)
   = [0; 1; 16; 15; 14; 13; 12; 11; 10; 9; 8; 7; 6; 5; 4; 3; 2; 17]%nat /\
   ~ ties_keep_load_order npy_aquicksort) /\
  (map (fun s => label (vehicle s)) (rows ex_ranked_pairs_avx2)
   = [3; 2; 1; 0]%nat /\
   same_score (row_at ex_ranked_pairs_avx2 0) (row_at ex_ranked_pairs_avx2 1) /\
   ~ ties_keep_load_order avx2_argsort) /\
  (map (fun s => label (vehicle s)) (rows ex_ranked_pairs_avx512)
   = [3; 2; 1; 0]%nat /\
   same_score (row_at ex_ranked_pairs_avx512 0)
              (row_at ex_ranked_pairs_avx512 1) /\
   ~ ties_keep_load_order avx512_argsort).
Proof.
  split; [|split]; (split; [vm_compute; reflexivity|]);
    try (split; [vm_compute; reflexivity|]).
  - apply (@ties_out_of_order npy_aquicksort ex_eighteen general_purpose
             "No preference" "Moderate (occasional trips)" "quick" None None
             ex_ranked_eighteen 2 3 (row_at ex_ranked_eighteen 2)
             (row_at ex_ranked_eighteen 3));
      try (vm_compute; reflexivity); try lia.
    vm_compute. lia.
  - apply (@ties_out_of_order avx2_argsort ex_pairs general_purpose
             "No preference" "Moderate (occasional trips)" "quick" None None
             ex_ranked_pairs_avx2 0 1 (row_at ex_ranked_pairs_avx2 0)
             (row_at ex_ranked_pairs_avx2 1));
      try (vm_compute; reflexivity); try lia.
    vm_compute. lia.
  - apply (@ties_out_of_order avx512_argsort ex_pairs general_purpose
             "No preference" "Moderate (occasional trips)" "quick" None None
             ex_ranked_pairs_avx512 0 1 (row_at ex_ranked_pairs_avx512 0)
             (row_at ex_ranked_pairs_avx512 1));
      try (vm_compute; reflexivity); try lia.
    vm_compute. lia.
Qed.

(** C4, amended. Whatever kernel sorts, the ranking is a reordering of the
    scored candidates in descending composite-score order with the undefined
    scores last.  Whenever the kernel is stable, candidates with equal
    composite score keep their load order, for every candidate frame: by
    position, and by index label where the labels increase with the load
    order.  Line 528 does not ask for a stable kernel. *)
Theorem C4_ranking_descending_ties_by_kernel :
  forall argsort : list Q -> list nat,
    argsort_sorts argsort ->
    (forall (df : Frame Vehicle) (use_case budget range_need method : string)
            (priorities : option (string * string * string))
            (cafv_pref : option string) (ranked : Frame Scored),
        display_recommendations_ranked argsort df use_case budget range_need
                                       method priorities cafv_pref
        = Ok (Some ranked) ->
        exists weights,
          select_weights use_case method priorities = Ok weights /\
          Permutation (rows ranked) (rows (score_frame df cafv_pref weights)) /\
          StronglySorted ranks_before (rows ranked)) /\
    (argsort_stable argsort ->
     ties_keep_load_order argsort /\ ties_keep_label_order argsort).
Proof.
  intros argsort Hsorts. split.
  - intros df use_case budget range_need method priorities cafv_pref ranked H.
    exact (@ranked_descending argsort df use_case budget range_need method
             priorities cafv_pref ranked Hsorts H).
  - intros Hstable.
    pose proof (stable_kernel_keeps_ties Hsorts Hstable) as Hties.
    split; [exact Hties|]. now apply load_order_gives_label_order.
Qed.

(** The sample fleet ranked with the stable kernel is in descending
    composite order, and that kernel keeps ties in load order. *)
Lemma C4_ranking_descending_ties_by_kernel_witness :
  StronglySorted ranks_before (rows ex_ranked) /\
  ties_keep_load_order stable_argsort /\
  ties_keep_label_order stable_argsort.
Proof.
  destruct (@C4_ranking_descending_ties_by_kernel stable_argsort
              stable_argsort_sorts) as [Hdesc Hties].
  split.
  - destruct (Hdesc ex_fleet general_purpose "No preference"
                    "Moderate (occasional trips)" "quick" None None ex_ranked)
      as (w & _ & _ & Hs); [vm_compute; reflexivity|exact Hs].
  - exact (Hties stable_argsort_stable).
Defined.

(** ** C5: degenerate columns score one half *)

(** C5. When a normalised field (electric range, MSRP, model year) is absent,
    entirely missing or constant over the candidates, every candidate gets
    exactly 0.5 in the field's [_norm] column and in the score derived from
    it; the value score is 0.5 as well when one of its two columns is absent
    or its raw ratios are constant or all missing; a frame whose MSRP column
    holds no value at all gives price score and value score 0.5 in every
    row. *)
Theorem C5_degenerate_field_scores_half :
  forall (df : Frame Vehicle) (cafv_pref : option string) (weights : Weights)
         (s : Scored),
    In s (rows (score_frame df cafv_pref weights)) ->
    (forall f : field,
        col_in (field_name f) df = false \/
        degenerate (map (field_cell f) (rows df)) ->
        field_norm f s = Some 0.5%Q /\ field_score f s = Some 0.5%Q) /\
    (col_in c_Electric_Range df = false \/ col_in c_Base_MSRP df = false \/
     (msrp_nonneg df /\ degenerate (map value_raw_of (rows df))) ->
     value_score s = Some 0.5%Q) /\
    ((forall v, In v (rows df) -> Base_MSRP v = NaN) ->
     price_score s = Some 0.5%Q /\ value_score s = Some 0.5%Q).
Proof.
  intros df cafv_pref weights s Hs.
  apply In_score_frame in Hs. destruct Hs as (v & Hv & ->).
  split; [|split].
  - intros f Hf.
    destruct f; simpl in *;
      rewrite (norm_column_degenerate _ Hf); split; reflexivity.
  - intros H. simpl. apply value_column_degenerate.
    destruct H as [H|[H|[_ H]]]; auto.
  - intros Hall. simpl.
    assert (Hdeg : degenerate (map Base_MSRP (rows df))).
    { intros x y Hx _. apply in_map_iff in Hx. destruct Hx as (u & Hu & Hin).
      rewrite (Hall u Hin) in Hu. discriminate. }
    rewrite (norm_column_degenerate _ (or_intror Hdeg)). split; [reflexivity|].
    apply value_column_degenerate. right. right.
    intros x y Hx _. apply in_map_iff in Hx. destruct Hx as (u & Hu & Hin).
    unfold value_raw_of in Hu. rewrite (Hall u Hin) in Hu.
    destruct (Electric_Range u); discriminate.
Qed.

(** The eighteen identical registrations have constant columns: the first
    scored row has 0.5 in all three field scores and in the value score. *)
Lemma C5_degenerate_field_scores_half_witness :
  let w := mkWeights 0.35 0.30 0.25 0.10 in
  let s := top_or blank (score_frame ex_eighteen None w) in
  In s (rows (score_frame ex_eighteen None w)) /\
  range_score s = Some 0.5%Q /\ price_score s = Some 0.5%Q /\
  newness_score s = Some 0.5%Q /\ value_score s = Some 0.5%Q.
Proof.
  intros w s.
  assert (Hin : In s (rows (score_frame ex_eighteen None w)))
    by (left; reflexivity).
  assert (Hconst : forall f, degenerate (map (field_cell f) (rows ex_eighteen))).
  { intros f x y Hx Hy.
    assert (Hall : forall c, In c (map (field_cell f) (rows ex_eighteen)) ->
                             c = field_cell f (veh 0 "TESLA" 300 40000 2022)).
    { intros c Hc. apply in_map_iff in Hc. destruct Hc as (u & <- & Hu).
      cbv [ex_eighteen rows] in Hu.
      apply in_map_iff in Hu. destruct Hu as (i & <- & _).
      destruct f; reflexivity. }
    apply Hall in Hx, Hy. assert (Hxy : Some x = Some y) by congruence.
    injection Hxy as ->. reflexivity. }
  assert (Hraw : degenerate (map value_raw_of (rows ex_eighteen))).
  { intros x y Hx Hy.
    assert (Hall : forall c, In c (map value_raw_of (rows ex_eighteen)) ->
                             c = value_raw_of (veh 0 "TESLA" 300 40000 2022)).
    { intros c Hc. apply in_map_iff in Hc. destruct Hc as (u & <- & Hu).
      cbv [ex_eighteen rows] in Hu.
      apply in_map_iff in Hu. destruct Hu as (i & <- & _). reflexivity. }
    apply Hall in Hx, Hy. assert (Hxy : Some x = Some y) by congruence.
    injection Hxy as ->. reflexivity. }
  assert (Hpos : msrp_nonneg ex_eighteen).
  { intros u x Hu Hx. cbv [ex_eighteen rows] in Hu.
    apply in_map_iff in Hu. destruct Hu as (i & <- & _).
    injection Hx as <-. discriminate. }
  destruct (C5_degenerate_field_scores_half ex_eighteen None w s Hin)
    as (Hf & Hv & _).
  split; [exact Hin|].
  split; [exact (proj2 (Hf f_range (or_intror (Hconst f_range))))|].
  split; [exact (proj2 (Hf f_msrp (or_intror (Hconst f_msrp))))|].
  split; [exact (proj2 (Hf f_year (or_intror (Hconst f_year))))|].
  exact (Hv (or_intror (or_intror (conj Hpos Hraw)))).
Defined.

(** ** C6: the price score falls as the MSRP rises *)

(** C6, as stated, fails. The price score is computed in floating point.
    With prices 30000, the next float above 30000 and 130000, the
    normalised price of the second is far below half a unit in the last
    place of 1, so [1 - norm] rounds to 1: the two cheapest candidates both
    get price score 1, in float64 as in float32.  The three prices are
    numbers of the format. *)
Lemma C6_close_prices_share_price_score :
  ((binary64 30000 == 30000)%Q /\
   (binary64 above_30000_double == above_30000_double)%Q /\
   (binary64 130000 == 130000)%Q /\
   (30000 < above_30000_double)%Q /\
   two_distinct (map Base_MSRP (rows (ex_close_prices above_30000_double))) /\
   exists p1 p2 : Q,
     price_score_fl binary64 (ex_close_prices above_30000_double)
                    (priced 0 30000) = Some p1 /\
     price_score_fl binary64 (ex_close_prices above_30000_double)
                    (priced 1 above_30000_double) = Some p2 /\
     (p1 == 1)%Q /\ (p2 == 1)%Q /\ ~ (p2 < p1)%Q) /\
  ((binary32 30000 == 30000)%Q /\
   (binary32 above_30000_single == above_30000_single)%Q /\
   (binary32 130000 == 130000)%Q /\
   (30000 < above_30000_single)%Q /\
   two_distinct (map Base_MSRP (rows (ex_close_prices above_30000_single))) /\
   exists p1 p2 : Q,
     price_score_fl binary32 (ex_close_prices above_30000_single)
                    (priced 0 30000) = Some p1 /\
     price_score_fl binary32 (ex_close_prices above_30000_single)
                    (priced 1 above_30000_single) = Some p2 /\
     (p1 == 1)%Q /\ (p2 == 1)%Q /\ ~ (p2 < p1)%Q).
Proof.
  split.
  - split; [vm_compute; reflexivity|]. split; [vm_compute; reflexivity|].
    split; [vm_compute; reflexivity|]. split; [reflexivity|].
    split.
    { exists 30000%Q, 130000%Q. split; [left; reflexivity|].
      split; [right; right; left; reflexivity|]. intro H. discriminate H. }
    eexists _, _.
    split; [vm_compute; reflexivity|]. split; [vm_compute; reflexivity|].
    split; [reflexivity|]. split; [reflexivity|].
    intro H. vm_compute in H. discriminate H.
  - split; [vm_compute; reflexivity|]. split; [vm_compute; reflexivity|].
    split; [vm_compute; reflexivity|]. split; [reflexivity|].
    split.
    { exists 30000%Q, 130000%Q. split; [left; reflexivity|].
      split; [right; right; left; reflexivity|]. intro H. discriminate H. }
    eexists _, _.
    split; [vm_compute; reflexivity|]. split; [vm_compute; reflexivity|].
    split; [reflexivity|]. split; [reflexivity|].
    intro H. vm_compute in H. discriminate H.
Qed.

(** C6, amended. In a candidate frame with an MSRP column whose known
    prices are numbers of the float format, of two candidates with known
    MSRPs the one with the strictly larger MSRP never has the larger price
    score, whatever the rounding of the format; the two scores can be equal.
    Computed without rounding, the score of the larger MSRP is strictly
    smaller.  (Two such candidates make the column hold two distinct
    prices.) *)
Theorem C6_price_score_never_increases :
  forall (fl : Q -> Q) (df : Frame Vehicle) (v1 v2 : Vehicle) (x1 x2 : Q),
    rounding fl ->
    (forall x, In (Some x) (map Base_MSRP (rows df)) -> (fl x == x)%Q) ->
    col_in c_Base_MSRP df = true ->
    In v1 (rows df) -> In v2 (rows df) ->
    Base_MSRP v1 = Some x1 -> Base_MSRP v2 = Some x2 ->
    (x1 < x2)%Q ->
    (exists p1 p2 : Q,
        price_score_fl fl df v1 = Some p1 /\
        price_score_fl fl df v2 = Some p2 /\ (p2 <= p1)%Q) /\
    (exists p1 p2 : Q,
        price_score_fl (fun q => q) df v1 = Some p1 /\
        price_score_fl (fun q => q) df v2 = Some p2 /\ (p2 < p1)%Q).
Proof.
  intros fl df v1 v2 x1 x2 Hfl Hfloat Hcol Hv1 Hv2 E1 E2 Hlt. split.
  - exact (@price_score_fl_weakly_decreasing fl df v1 v2 x1 x2 Hfl Hfloat
             Hcol Hv1 Hv2 E1 E2 Hlt).
  - exact (@price_score_exact_strictly_decreasing df v1 v2 x1 x2 Hcol
             Hv1 Hv2 E1 E2 Hlt).
Qed.

(** In float64, of the three close prices the one at 130000 scores no
    higher than the one at 30000; without rounding it scores strictly
    lower. *)
Lemma C6_price_score_never_increases_witness :
  (exists p1 p2 : Q,
      price_score_fl binary64 (ex_close_prices above_30000_double)
                     (priced 0 30000) = Some p1 /\
      price_score_fl binary64 (ex_close_prices above_30000_double)
                     (priced 2 130000) = Some p2 /\ (p2 <= p1)%Q) /\
  (exists p1 p2 : Q,
      price_score_fl (fun q => q) (ex_close_prices above_30000_double)
                     (priced 0 30000) = Some p1 /\
      price_score_fl (fun q => q) (ex_close_prices above_30000_double)
                     (priced 2 130000) = Some p2 /\ (p2 < p1)%Q).
Proof.
  apply (@C6_price_score_never_increases binary64
           (ex_close_prices above_30000_double)
           (priced 0 30000) (priced 2 130000) 30000%Q 130000%Q).
  - apply round_float_rounding. discriminate.
  - intros x [H|[H|[H|[]]]]; injection H as <-; vm_compute; reflexivity.
  - reflexivity.
  - left; reflexivity.
  - right; right; left; reflexivity.
  - reflexivity.
  - reflexivity.
  - reflexivity.
Defined.

(** ** C7: priority mode *)

(** C7. In priority mode the weights are those of [priority_weights]: each
    dimension receives 0.50 if rank 1 maps to it, plus 0.30 if rank 2 maps
    to it, plus 0.20 if rank 3 maps to it, nothing is renormalised (two
    ranks on one dimension add up, and the four weights always total 1);
    "Brand reputation" and "Latest technology" both map to newness, the
    other three labels to price, range and value. *)
Theorem C7_priority_weights_accumulate :
  forall (use_case p1 p2 p3 : string),
    let d1 := dict_get_default weight_map p1 k_value in
    let d2 := dict_get_default weight_map p2 k_price in
    let d3 := dict_get_default weight_map p3 k_range in
    let w := priority_weights (p1, p2, p3) in
    select_weights use_case "detailed" (Some (p1, p2, p3)) = Ok w /\
    (forall k : dim,
        weight_of w k == share d1 k 0.50 + share d2 k 0.30 + share d3 k 0.20)%Q /\
    (w_price w + w_range w + w_value w + w_newness w == 1)%Q /\
    (forall d : dim,
        dict_get_default weight_map "Lowest price" d = k_price /\
        dict_get_default weight_map "Longest range" d = k_range /\
        dict_get_default weight_map "Brand reputation" d = k_newness /\
        dict_get_default weight_map "Latest technology" d = k_newness /\
        dict_get_default weight_map "Best value (range/price)" d = k_value).
Proof.
  intros use_case p1 p2 p3 d1 d2 d3 w.
  split; [reflexivity|].
  subst w. unfold priority_weights. fold d1 d2 d3.
  split; [|split].
  - intros k. destruct d1, d2, d3, k; reflexivity.
  - destruct d1, d2, d3; reflexivity.
  - intros d. repeat split; reflexivity.
Qed.

(** ** C8: the alternatives *)

Lemma not_isin_ok (ranked_df : Frame Scored) (used : list (option string)) :
  col_in c_Make ranked_df = true ->
  not_isin ranked_df used
  = Ok (select (fun s => negb (isin used (Make (vehicle s)))) ranked_df).
Proof. intros H. unfold not_isin. now rewrite H. Qed.

(** A row selected from the pool of unused brands is a row of the frame and
    its brand is none of the used ones. *)
Lemma candidate_fresh (ranked_df : Frame Scored) (used : list (option string))
  (better : Q -> Q -> bool) (key : Scored -> cell) (b : Scored) :
  select_n1 better key
    (rows (select (fun s => negb (isin used (Make (vehicle s)))) ranked_df))
  = Some b ->
  In b (rows ranked_df) /\ ~ In (Make (vehicle b)) used.
Proof.
  intros H. apply select_n1_In in H. simpl in H.
  apply filter_In in H. destruct H as [Hin Hf].
  split; [assumption|].
  apply isin_false. now apply negb_true_iff.
Qed.

(** One strategy of [get_diverse_alternatives]: the pool exists, the
    selection finds a row or not, the guards hold or not. *)
Ltac slot_cases :=
  rewrite not_isin_ok by assumption; cbn [bind];
  match goal with
  | |- context [nsmallest1 ?a ?k ?l] =>
      destruct (nsmallest1 a k l) eqn:?
  | |- context [nlargest1 ?k ?l] =>
      destruct (nlargest1 k l) eqn:?
  end;
  repeat match goal with
         | |- context [if ?c then _ else _] => destruct c
         end;
  cbn iota beta.

Ltac alternatives_done :=
  eexists; split; [reflexivity|];
  unfold nsmallest1, nlargest1 in *;
  repeat match goal with
         | H : select_n1 _ _ _ = Some _ |- _ =>
             apply candidate_fresh in H; destruct H
         end;
  unfold alternatives_ok, brand; simpl in *;
  repeat split; try lia; repeat constructor; simpl; intuition congruence.

Lemma alternatives_with_make (ranked_df : Frame Scored) (top_vehicle : Scored) :
  col_in c_Make ranked_df = true ->
  exists alts,
    get_diverse_alternatives ranked_df top_vehicle = Ok alts /\
    alternatives_ok ranked_df top_vehicle alts.
Proof.
  intros Hmake. unfold get_diverse_alternatives.
  slot_cases.
  all: slot_cases.
  all: slot_cases.
  all: alternatives_done.
Qed.

Lemma pool_empty (ranked_df : Frame Scored) (used : list (option string))
  (m : option string) :
  In m used ->
  (forall s, In s (rows ranked_df) -> Make (vehicle s) = m) ->
  select (fun s => negb (isin used (Make (vehicle s)))) ranked_df
  = mkFrame (columns ranked_df) [].
Proof.
  intros Hm Hall. unfold select. f_equal.
  induction (rows ranked_df) as [|s t IH]; [reflexivity|].
  simpl. rewrite (Hall s) by (now left).
  destruct (isin used m) eqn:E.
  - simpl. apply IH. intros; apply Hall; now right.
  - apply isin_false in E. contradiction.
Qed.

(** C8. Whenever [get_diverse_alternatives] returns, it returns at most
    three alternatives, titled in the fixed order affordability, range,
    value, of pairwise different brands, none of the top match's brand, all
    rows of the ranked frame.  It does return whenever the frame has a
    [Make] column, whatever the pools hold; and when no brand other than the
    top match's is left, every slot is omitted. *)
Theorem C8_alternatives_brand_diverse :
  forall (ranked_df : Frame Scored) (top_vehicle : Scored),
    (forall alts,
        get_diverse_alternatives ranked_df top_vehicle = Ok alts ->
        alternatives_ok ranked_df top_vehicle alts) /\
    (col_in c_Make ranked_df = true ->
     exists alts, get_diverse_alternatives ranked_df top_vehicle = Ok alts) /\
    (col_in c_Make ranked_df = true ->
     (forall s, In s (rows ranked_df) ->
                Make (vehicle s) = Make (vehicle top_vehicle)) ->
     get_diverse_alternatives ranked_df top_vehicle = Ok []).
Proof.
  intros ranked_df top_vehicle. split; [|split].
  - intros alts H. destruct (col_in c_Make ranked_df) eqn:Hmake.
    + destruct (@alternatives_with_make ranked_df top_vehicle Hmake) as (a & Ha & Hok).
      rewrite Ha in H. injection H as <-. exact Hok.
    + unfold get_diverse_alternatives, not_isin in H. rewrite Hmake in H.
      discriminate H.
  - intros Hmake.
    destruct (@alternatives_with_make ranked_df top_vehicle Hmake) as (a & Ha & _).
    eauto.
  - intros Hmake Hall. unfold get_diverse_alternatives.
    rewrite not_isin_ok by assumption. cbn [bind].
    rewrite (@pool_empty ranked_df [Make (vehicle top_vehicle)]
               (Make (vehicle top_vehicle)) (or_introl eq_refl) Hall).
    cbn. rewrite not_isin_ok by assumption. cbn [bind].
    rewrite (@pool_empty ranked_df [Make (vehicle top_vehicle)]
               (Make (vehicle top_vehicle)) (or_introl eq_refl) Hall).
    cbn. rewrite not_isin_ok by assumption. cbn [bind].
    rewrite (@pool_empty ranked_df [Make (vehicle top_vehicle)]
               (Make (vehicle top_vehicle)) (or_introl eq_refl) Hall).
    reflexivity.
Qed.

(** The three alternatives of the ranked sample fleet meet the conditions,
    and a frame holding only the top match's brand gives none. *)
Lemma C8_alternatives_brand_diverse_witness :
  alternatives_ok ex_ranked (row_at ex_ranked 0)
    [(t_affordable, row_at ex_ranked 2); (t_range, row_at ex_ranked 3);
     (t_value, row_at ex_ranked 1)] /\
  get_diverse_alternatives ex_ranked_eighteen (row_at ex_ranked_eighteen 0)
  = Ok [].
Proof.
  destruct (C8_alternatives_brand_diverse ex_ranked (row_at ex_ranked 0))
    as (Hok & _ & _).
  destruct (C8_alternatives_brand_diverse ex_ranked_eighteen
              (row_at ex_ranked_eighteen 0)) as (_ & _ & Hnone).
  split.
  - apply Hok. vm_compute. reflexivity.
  - apply Hnone; [reflexivity|].
    intros s Hs. vm_compute in Hs.
    repeat (destruct Hs as [<-|Hs]; [reflexivity|]). destruct Hs.
Defined.

(** ** C9: the store *)

Lemma nth_error_last (h : heap) (o : obj) :
  nth_error (h ++ [o]) (List.length h) = Some o.
Proof.
  rewrite nth_error_app2 by lia. now rewrite Nat.sub_diag.
Qed.

Lemma heap_set_last (h : heap) (o o' : obj) :
  heap_set (h ++ [o]) (List.length h) o' = h ++ [o'].
Proof.
  induction h as [|x t IH]; simpl; [reflexivity|]. now rewrite IH.
Qed.

Lemma nth_error_second (h : heap) (o o' : obj) :
  nth_error (h ++ [o; o']) (S (List.length h)) = Some o'.
Proof.
  induction h as [|x t IH]; simpl; [reflexivity|exact IH].
Qed.

Lemma preserved_app (h : heap) (ext : list obj) : preserved h (h ++ ext).
Proof.
  intros l o H. rewrite nth_error_app1; [assumption|].
  apply nth_error_Some. congruence.
Qed.

(** What a call does to the store: it appends the scored copy and the
    ranked frame, and returns where the latter lives. *)
Lemma run_display_recommendations (argsort : list Q -> list nat) (h : heap)
  (l : loc) (f : Frame Vehicle) (use_case budget range_need method : string)
  (priorities : option (string * string * string))
  (cafv_pref : option string) :
  nth_error h l = Some (ODataFrame f) ->
  display_recommendations argsort l use_case budget range_need method
                          priorities cafv_pref h
  = if empty f then (h, Ok None)
    else match select_weights use_case method priorities with
         | Ok w =>
             (h ++ [OScoreFrame (score_frame f cafv_pref w);
                    OScoreFrame (sort_values_desc argsort composite_score
                                   (score_frame f cafv_pref w))],
              Ok (Some (S (List.length h))))
         | Raise e =>
             (h ++ [OScoreFrame (component_frame f cafv_pref)], Raise e)
         end.
Proof.
  intros Hl.
  unfold display_recommendations, bindS, read_frame, read_scored, alloc,
    write, lift, ret.
  rewrite Hl. destruct (empty f); [reflexivity|].
  rewrite nth_error_last, heap_set_last.
  destruct (select_weights use_case method priorities) as [w|e];
    [|reflexivity].
  rewrite nth_error_last, heap_set_last, nth_error_last.
  rewrite <- app_assoc, length_app, Nat.add_1_r. reflexivity.
Qed.

Lemma outcome_display_recommendations (argsort : list Q -> list nat)
  (h : heap) (l : loc) (f : Frame Vehicle)
  (use_case budget range_need method : string)
  (priorities : option (string * string * string))
  (cafv_pref : option string) :
  nth_error h l = Some (ODataFrame f) ->
  let hr := display_recommendations argsort l use_case budget range_need
                                    method priorities cafv_pref h in
  outcome hr
  = display_recommendations_ranked argsort f use_case budget range_need
                                   method priorities cafv_pref /\
  preserved h (fst hr).
Proof.
  intros Hl hr. subst hr.
  rewrite (run_display_recommendations argsort h l use_case budget
             range_need method priorities cafv_pref Hl).
  unfold display_recommendations_ranked.
  destruct (empty f); [split; [reflexivity|now intros ? ?]|].
  destruct (select_weights use_case method priorities) as [w|e].
  - split; [|apply preserved_app].
    unfold outcome, bind. now rewrite nth_error_second.
  - split; [reflexivity|apply preserved_app].
Qed.

(** C9. The ranking a call leaves behind is a function of the frame it was
    given and of the preference profile alone: it equals the pure ranking of
    that frame whatever else the store holds, the call changes no object
    that existed before it (its argument included), a second call in the
    store the first one left behind gives the same ranking, and so does a
    call on the same frame held anywhere in any other store. *)
Theorem C9_scorer_pure_and_stateless :
  forall (argsort : list Q -> list nat) (h : heap) (l : loc)
         (f : Frame Vehicle) (use_case budget range_need method : string)
         (priorities : option (string * string * string))
         (cafv_pref : option string),
    nth_error h l = Some (ODataFrame f) ->
    let call := display_recommendations argsort l use_case budget range_need
                                        method priorities cafv_pref in
    outcome (call h)
    = display_recommendations_ranked argsort f use_case budget range_need
                                     method priorities cafv_pref /\
    preserved h (fst (call h)) /\
    outcome (call (fst (call h))) = outcome (call h) /\
    forall (h' : heap) (l' : loc),
      nth_error h' l' = Some (ODataFrame f) ->
      outcome (display_recommendations argsort l' use_case budget range_need
                                       method priorities cafv_pref h')
      = outcome (call h).
Proof.
  intros argsort h l f use_case budget range_need method priorities cafv_pref
         Hl call.
  destruct (outcome_display_recommendations argsort h l use_case budget
              range_need method priorities cafv_pref Hl) as [Hout Hpres].
  fold call in Hout, Hpres.
  split; [exact Hout|]. split; [exact Hpres|]. split.
  - rewrite Hout.
    exact (proj1 (outcome_display_recommendations argsort (fst (call h)) l
                    use_case budget range_need method priorities cafv_pref
                    (Hpres _ _ Hl))).
  - intros h' l' Hl'. rewrite Hout.
    exact (proj1 (outcome_display_recommendations argsort h' l' use_case budget
                    range_need method priorities cafv_pref Hl')).
Qed.

(** Two calls in a row on the sample fleet both leave its ranking. *)
Lemma C9_scorer_pure_and_stateless_witness :
  outcome (display_recommendations stable_argsort 0%nat general_purpose
             "No preference" "Moderate (occasional trips)" "quick" None None
             [ODataFrame ex_fleet])
  = Ok (Some ex_ranked) /\
  outcome (display_recommendations stable_argsort 0%nat general_purpose
             "No preference" "Moderate (occasional trips)" "quick" None None
             (fst (display_recommendations stable_argsort 0%nat
                     general_purpose "No preference"
                     "Moderate (occasional trips)" "quick" None None
                     [ODataFrame ex_fleet])))
  = Ok (Some ex_ranked).
Proof.
  destruct (@C9_scorer_pure_and_stateless stable_argsort [ODataFrame ex_fleet]
              0%nat ex_fleet general_purpose "No preference"
              "Moderate (occasional trips)" "quick" None None eq_refl)
    as (Hpure & _ & Hagain & _).
  cbv zeta in Hpure, Hagain.
  rewrite Hagain, Hpure. split; vm_compute; reflexivity.
Defined.

(** ** C10: a missing cell in a column that has a spread *)

Lemma composite_nan (weights : Weights) (p r v n b : cell) :
  p = NaN \/ r = NaN \/ n = NaN -> composite weights p r v n b = NaN.
Proof.
  unfold composite.
  intros [-> | [-> | ->]];
    repeat match goal with
           | c : cell |- _ => destruct c
           end; reflexivity.
Qed.

(** C10. When a normalised column holds two distinct known values, a
    candidate whose own cell in it is missing is still ranked, gets NaN in
    the field's [_norm] column and score and hence in the composite score,
    and stands after every candidate with a defined composite score. *)
Theorem C10_missing_cell_ranks_last :
  forall (argsort : list Q -> list nat),
    argsort_sorts argsort ->
    forall (df : Frame Vehicle) (use_case budget range_need method : string)
           (priorities : option (string * string * string))
           (cafv_pref : option string) (ranked : Frame Scored) (f : field),
      display_recommendations_ranked argsort df use_case budget range_need
                                     method priorities cafv_pref
      = Ok (Some ranked) ->
      col_in (field_name f) df = true ->
      two_distinct (map (field_cell f) (rows df)) ->
      (forall v, In v (rows df) -> exists s, In s (rows ranked) /\ vehicle s = v) /\
      (forall s, In s (rows ranked) -> field_cell f (vehicle s) = NaN ->
                 field_norm f s = NaN /\ field_score f s = NaN /\
                 composite_score s = NaN) /\
      (forall i j s s',
          nth_error (rows ranked) i = Some s ->
          nth_error (rows ranked) j = Some s' ->
          field_cell f (vehicle s) = NaN ->
          composite_score s' <> NaN ->
          (j < i)%nat).
Proof.
  intros argsort Hsorts df use_case budget range_need method priorities
         cafv_pref ranked f H Hcol Hspread.
  destruct (@ranked_descending argsort df use_case budget range_need method
              priorities cafv_pref ranked Hsorts H)
    as (w & _ & Hperm & Hsorted).
  assert (Hnan : forall s, In s (rows ranked) -> field_cell f (vehicle s) = NaN ->
                           field_norm f s = NaN /\ field_score f s = NaN /\
                           composite_score s = NaN).
  { intros s Hs Hcell.
    apply (Permutation_in _ Hperm), In_score_frame in Hs.
    destruct Hs as (v & _ & ->).
    destruct (norm_column_spread Hspread) as (m & M & _ & _ & Hnorm).
    destruct f; simpl in *; rewrite Hcol, Hnorm, Hcell; simpl;
      (split; [reflexivity|]); (split; [reflexivity|]);
      apply composite_nan; auto. }
  split; [|split].
  - intros v Hv. exists (set_composite w (component_row df cafv_pref v)).
    split; [|reflexivity].
    apply (Permutation_in _ (Permutation_sym Hperm)), In_score_frame. eauto.
  - exact Hnan.
  - intros i j s s' Hi Hj Hcell Hdef.
    destruct (Hnan s (nth_error_In _ _ Hi) Hcell) as (_ & _ & Hs).
    destruct (Nat.lt_total i j) as [Hlt | [Heq | Hlt]];
      [|subst j; rewrite Hi in Hj; injection Hj as <-; contradiction|exact Hlt].
    pose proof (StronglySorted_nth_error Hsorted Hlt Hi Hj) as Hr.
    unfold ranks_before in Hr. rewrite Hs in Hr.
    revert Hr Hdef. destruct (composite_score s'); simpl; [tauto|].
    intros _ Hdef. now contradiction Hdef.
Qed.

(** In the ranking of the three sample registrations the BMW, whose range
    is unknown, has no composite score and stands last. *)
Lemma C10_missing_cell_ranks_last_witness :
  exists s,
    nth_error (rows ex_ranked_gap) 2 = Some s /\
    Make (vehicle s) = Some "BMW" /\
    composite_score s = NaN /\
    forall j s', nth_error (rows ex_ranked_gap) j = Some s' ->
                 composite_score s' <> NaN -> (j < 2)%nat.
Proof.
  assert (Hrun : display_recommendations_ranked stable_argsort ex_gap
                   general_purpose "No preference"
                   "Moderate (occasional trips)" "quick" None None
                 = Ok (Some ex_ranked_gap)) by (vm_compute; reflexivity).
  assert (Hspread : two_distinct (map (field_cell f_range) (rows ex_gap))).
  { exists 150%Q, 250%Q. split; [right; left; reflexivity|].
    split; [right; right; left; reflexivity|]. intro H. discriminate H. }
  destruct (@C10_missing_cell_ranks_last stable_argsort stable_argsort_sorts
              ex_gap general_purpose "No preference"
              "Moderate (occasional trips)" "quick" None None ex_ranked_gap
              f_range Hrun eq_refl Hspread) as (_ & Hnan & Hlast).
  exists (row_at ex_ranked_gap 2).
  assert (Hi : nth_error (rows ex_ranked_gap) 2 = Some (row_at ex_ranked_gap 2))
    by (vm_compute; reflexivity).
  assert (Hcell : field_cell f_range (vehicle (row_at ex_ranked_gap 2)) = NaN)
    by (vm_compute; reflexivity).
  split; [exact Hi|]. split; [vm_compute; reflexivity|].
  split; [exact (proj2 (proj2 (Hnan _ (nth_error_In _ _ Hi) Hcell)))|].
  intros j s' Hj Hdef. exact (Hlast 2%nat j _ s' Hi Hj Hcell Hdef).
Defined.

(* ================================================================= *)
(** * Further properties

    The filters of both tabs, what [display_recommendations] renders
    after the sort, and [apply_filters]. *)

(** ** The sample data *)

Lemma ex_fleet_msrp_nonneg : msrp_nonneg ex_fleet.
Proof.
  intros v x Hv Hx. simpl in Hv.
  destruct Hv as [<-|[<-|[<-|[<-|[]]]]]; injection Hx as <-; discriminate.
Qed.

Lemma ex_fleet_complete : forall v, In v (rows ex_fleet) -> complete v.
Proof.
  intros v Hv. simpl in Hv.
  destruct Hv as [<-|[<-|[<-|[<-|[]]]]]; do 3 eexists;
    repeat split; reflexivity.
Qed.

Lemma ex_fleet_ranked :
  display_recommendations_ranked stable_argsort ex_fleet general_purpose
    "No preference" moderate "quick" None None = Ok (Some ex_ranked).
Proof. vm_compute; reflexivity. Qed.

Lemma ex_fleet_view :
  display_recommendations_view stable_argsort ex_fleet general_purpose
    "No preference" moderate "quick" None None = Done (Some ex_view).
Proof. vm_compute; reflexivity. Qed.

Lemma ex_fleet_whole_years : whole_years ex_fleet.
Proof.
  intros v y Hv Hy. simpl in Hv.
  destruct Hv as [<-|[<-|[<-|[<-|[]]]]]; injection Hy as <-; eauto.
Qed.

(** ** The range filter *)

Lemma col_in_select {R : Type} (c : string) (mask : R -> bool) (df : Frame R) :
  col_in c (select mask df) = col_in c df.
Proof. reflexivity. Qed.

Lemma range_row_get (a b c d : Q) (range_need : string) (m : Q) :
  dict_get (range_row a b c d) range_need = Ok m ->
  (index_of range_need range_need_options = Some 0%nat /\ m = a) \/
  (index_of range_need range_need_options = Some 1%nat /\ m = b) \/
  (index_of range_need range_need_options = Some 2%nat /\ m = c) \/
  (index_of range_need range_need_options = Some 3%nat /\ m = d).
Proof.
  unfold range_row, dict_get, range_need_options, index_of.
  repeat match goal with
         | |- context [String.eqb ?k range_need] =>
             destruct (String.eqb k range_need)
         end;
    intros H; try discriminate; injection H as <-; simpl; tauto.
Qed.

Lemma range_requirements_rows (use_case : string) (row : list (string * Q)) :
  dict_get range_requirements use_case = Ok row ->
  exists a b c d : Q,
    row = range_row a b c d /\ (100 <= a <= b)%Q /\ (b <= c <= d)%Q /\
    (d <= 350)%Q.
Proof.
  unfold range_requirements, dict_get.
  repeat match goal with
         | |- context [String.eqb ?k use_case] =>
             destruct (String.eqb k use_case)
         end;
    intros H; try discriminate; injection H as <-;
    do 4 eexists; (split; [reflexivity|]);
    repeat split; discriminate.
Qed.

Lemma range_requirement_inv (use_case range_need : string) (m : Q) :
  range_requirement use_case range_need = Ok m ->
  exists row, dict_get range_requirements use_case = Ok row /\
              dict_get row range_need = Ok m.
Proof.
  unfold range_requirement.
  destruct (dict_get range_requirements use_case) as [row|e]; simpl;
    [eauto|discriminate].
Qed.

Lemma range_requirement_bounds (use_case range_need : string) (m : Q) :
  range_requirement use_case range_need = Ok m -> (100 <= m <= 350)%Q.
Proof.
  intros H. apply range_requirement_inv in H. destruct H as (row & Hrow & Hm).
  apply range_requirements_rows in Hrow.
  destruct Hrow as (a & b & c & d & -> & Hab & Hcd & Hd).
  apply range_row_get in Hm.
  destruct Hm as [[_ ->]|[[_ ->]|[[_ ->]|[_ ->]]]]; lra.
Qed.

Lemma range_mask_true (m : Q) (v : Vehicle) :
  (0 < m)%Q ->
  range_mask m v = true <-> exists r, Electric_Range v = Some r /\ (m <= r)%Q.
Proof.
  intros Hm. unfold range_mask. rewrite Qle_bool_iff.
  destruct (Electric_Range v) as [r|]; simpl.
  - split; [eauto|]. intros (r' & Hr & Hle). injection Hr as ->. exact Hle.
  - split; [lra|]. intros (r' & Hr & _). discriminate.
Qed.

(** X1. The minimum range looked up for a use case and a slider position lies
    between 100 and 350 miles. On a frame that has a range column the range
    filter keeps exactly the vehicles whose range is known and at least that
    minimum, so a vehicle of unknown range (filled with 0) never passes; a
    frame without the column is returned as it is. *)
Theorem range_filter_keeps_known_long_ranges :
  forall (use_case range_need : string) (min_range : Q)
         (candidates : Frame Vehicle),
    range_requirement use_case range_need = Ok min_range ->
    (100 <= min_range <= 350)%Q /\
    (col_in c_Electric_Range candidates = true ->
     forall v,
       In v (rows (range_filter min_range candidates)) <->
       In v (rows candidates) /\
       exists r, Electric_Range v = Some r /\ (min_range <= r)%Q) /\
    (col_in c_Electric_Range candidates = false ->
     range_filter min_range candidates = candidates).
Proof.
  intros use_case range_need m df Hm.
  pose proof (@range_requirement_bounds use_case range_need m Hm) as Hb.
  split; [exact Hb|]. unfold range_filter. split; intros Hcol; rewrite Hcol.
  - intros v. simpl. rewrite filter_In, range_mask_true by lra. tauto.
  - reflexivity.
Qed.

(** Under the general-purpose use case a moderate range need asks for 180
    miles, and the Nissan of the sample fleet (150 miles) does not pass. *)
Lemma range_filter_keeps_known_long_ranges_witness :
  range_requirement general_purpose moderate = Ok 180%Q /\
  (100 <= 180 <= 350)%Q /\
  ~ In (veh 1 "NISSAN" 150 30000 2019) (rows (range_filter 180 ex_fleet)).
Proof.
  assert (H : range_requirement general_purpose moderate = Ok 180%Q)
    by (vm_compute; reflexivity).
  destruct (@range_filter_keeps_known_long_ranges general_purpose moderate
              180%Q ex_fleet H) as (Hb & Hin & _).
  split; [exact H|]. split; [exact Hb|].
  intros Hv. apply Hin in Hv; [|vm_compute; reflexivity].
  destruct Hv as (_ & r & Hr & Hle). injection Hr as <-.
  revert Hle. vm_compute. intros Hle. apply Hle. reflexivity.
Defined.

Lemma range_requirement_monotone (use_case need1 need2 : string)
  (m1 m2 : Q) (i j : nat) :
  range_requirement use_case need1 = Ok m1 ->
  range_requirement use_case need2 = Ok m2 ->
  index_of need1 range_need_options = Some i ->
  index_of need2 range_need_options = Some j ->
  (i <= j)%nat -> (m1 <= m2)%Q.
Proof.
  intros H1 H2 Hi Hj Hij.
  apply range_requirement_inv in H1, H2.
  destruct H1 as (row & Hrow & Hm1), H2 as (row' & Hrow' & Hm2).
  rewrite Hrow in Hrow'. injection Hrow' as <-.
  apply range_requirements_rows in Hrow.
  destruct Hrow as (a & b & c & d & -> & Hab & Hcd & Hd).
  apply range_row_get in Hm1, Hm2.
  destruct Hm1 as [[Hi' ->]|[[Hi' ->]|[[Hi' ->]|[Hi' ->]]]];
    destruct Hm2 as [[Hj' ->]|[[Hj' ->]|[[Hj' ->]|[Hj' ->]]]];
    rewrite Hi in Hi'; rewrite Hj in Hj';
    injection Hi' as ->; injection Hj' as ->; try lia; lra.
Qed.

Lemma filter_absorb {A : Type} (f g : A -> bool) (l : list A) :
  (forall x, g x = true -> f x = true) ->
  filter g (filter f l) = filter g l.
Proof.
  intros H. induction l as [|x t IH]; [reflexivity|]. simpl.
  destruct (f x) eqn:Ef; simpl.
  - now rewrite IH.
  - destruct (g x) eqn:Eg; [|exact IH].
    apply H in Eg. congruence.
Qed.

(** X2. Moving the range-importance slider to the right only narrows the
    result: for one use case, filtering with the requirement of a later
    position after that of an earlier one is the same as filtering with the
    later one alone, and every vehicle kept for the later position is kept for
    the earlier one. *)
Theorem higher_range_need_narrows :
  forall (use_case need1 need2 : string) (m1 m2 : Q) (i j : nat)
         (candidates : Frame Vehicle),
    range_requirement use_case need1 = Ok m1 ->
    range_requirement use_case need2 = Ok m2 ->
    index_of need1 range_need_options = Some i ->
    index_of need2 range_need_options = Some j ->
    (i <= j)%nat ->
    range_filter m2 (range_filter m1 candidates) = range_filter m2 candidates /\
    incl (rows (range_filter m2 candidates)) (rows (range_filter m1 candidates)).
Proof.
  intros use_case need1 need2 m1 m2 i j df H1 H2 Hi Hj Hij.
  pose proof (@range_requirement_monotone use_case need1 need2 m1 m2 i j
                H1 H2 Hi Hj Hij) as Hle.
  assert (Himp : forall v, range_mask m2 v = true -> range_mask m1 v = true).
  { intros v. unfold range_mask. rewrite !Qle_bool_iff. lra. }
  unfold range_filter.
  destruct (col_in c_Electric_Range df) eqn:Hcol.
  - rewrite col_in_select, Hcol. split.
    + unfold select. simpl. now rewrite filter_absorb.
    + intros v. simpl. rewrite !filter_In. intros [Hv Hm]. auto.
  - rewrite Hcol. split; [reflexivity|apply incl_refl].
Qed.

(** On the sample fleet, what passes 220 miles passes 180 miles. *)
Lemma higher_range_need_narrows_witness :
  incl (rows (range_filter 220 ex_fleet)) (rows (range_filter 180 ex_fleet)).
Proof.
  refine (proj2 (@higher_range_need_narrows general_purpose moderate
                   "Important (regular highway)" 180%Q 220%Q 1%nat 2%nat
                   ex_fleet _ _ _ _ _));
    try (vm_compute; reflexivity).
  apply le_S, le_n.
Defined.

(** ** The two hard filters and the quick tab *)

Lemma hard_filters_inv (df : Frame Vehicle)
  (use_case budget_choice range_need : string)
  (candidates : Frame Vehicle) (min_range : Q) :
  hard_filters df use_case budget_choice range_need
  = Ok (candidates, min_range) ->
  exists lo hi,
    dict_get budget_ranges budget_choice = Ok (lo, hi) /\
    range_requirement use_case range_need = Ok min_range /\
    candidates
    = range_filter min_range
        (if col_in c_Base_MSRP df then select (budget_mask lo hi) df else df).
Proof.
  unfold hard_filters, budget_filter.
  destruct (dict_get budget_ranges budget_choice) as [[lo hi]|e]; simpl;
    [|discriminate].
  destruct (range_requirement use_case range_need) as [m|e];
    destruct (col_in c_Base_MSRP df); simpl; try discriminate;
    intros H; injection H as <- <-; exists lo, hi; auto.
Qed.

Lemma hard_filters_columns (df : Frame Vehicle)
  (use_case budget_choice range_need : string)
  (candidates : Frame Vehicle) (min_range : Q) :
  hard_filters df use_case budget_choice range_need
  = Ok (candidates, min_range) ->
  columns candidates = columns df.
Proof.
  intros H. apply hard_filters_inv in H.
  destruct H as (lo & hi & _ & _ & ->).
  unfold range_filter.
  destruct (col_in c_Base_MSRP df);
    match goal with
    | |- context [if ?c then _ else _] => destruct c
    end; reflexivity.
Qed.

Lemma col_in_columns {R S : Type} (c : string) (df : Frame R) (df' : Frame S) :
  columns df = columns df' -> col_in c df = col_in c df'.
Proof. unfold col_in. now intros ->. Qed.

(** Who reaches scoring. *)
Lemma hard_filters_In (df : Frame Vehicle)
  (use_case budget_choice range_need : string)
  (candidates : Frame Vehicle) (min_range : Q) (v : Vehicle) :
  hard_filters df use_case budget_choice range_need
  = Ok (candidates, min_range) ->
  exists lo hi,
    dict_get budget_ranges budget_choice = Ok (lo, hi) /\
    (In v (rows candidates) <->
     In v (rows df) /\
     (col_in c_Base_MSRP df = true ->
      (lo <= fillna 999999 (Base_MSRP v) <= hi)%Q) /\
     (col_in c_Electric_Range df = true ->
      exists r, Electric_Range v = Some r /\ (min_range <= r)%Q)).
Proof.
  intros H. apply hard_filters_inv in H.
  destruct H as (lo & hi & Hb & Hr & ->).
  exists lo, hi. split; [exact Hb|].
  pose proof (@range_requirement_bounds use_case range_need min_range Hr) as Hm.
  unfold range_filter.
  destruct (col_in c_Base_MSRP df) eqn:Hp.
  - rewrite col_in_select.
    destruct (col_in c_Electric_Range df) eqn:He; simpl.
    + rewrite !filter_In, range_mask_true, budget_mask_true by lra. tauto.
    + rewrite filter_In, budget_mask_true. intuition discriminate.
  - destruct (col_in c_Electric_Range df) eqn:He; simpl.
    + rewrite filter_In, range_mask_true by lra. intuition discriminate.
    + intuition discriminate.
Qed.

(** X3. The two hard filters of both tabs keep the columns and let through
    exactly the vehicles of the frame whose MSRP, an unknown one counted as
    999999, lies in the inclusive interval of the budget choice and whose
    range is known and at least the required minimum; each test applies only
    when its column is present. *)
Theorem hard_filters_selection :
  forall (df_filtered : Frame Vehicle)
         (use_case budget_choice range_need : string)
         (candidates : Frame Vehicle) (min_range : Q),
    hard_filters df_filtered use_case budget_choice range_need
    = Ok (candidates, min_range) ->
    exists lo hi,
      dict_get budget_ranges budget_choice = Ok (lo, hi) /\
      columns candidates = columns df_filtered /\
      forall v,
        In v (rows candidates) <->
        In v (rows df_filtered) /\
        (col_in c_Base_MSRP df_filtered = true ->
         (lo <= fillna 999999 (Base_MSRP v) <= hi)%Q) /\
        (col_in c_Electric_Range df_filtered = true ->
         exists r, Electric_Range v = Some r /\ (min_range <= r)%Q).
Proof.
  intros df uc bc rn cands m H.
  destruct (@hard_filters_inv df uc bc rn cands m H) as (lo & hi & Hb & _ & _).
  exists lo, hi. split; [exact Hb|].
  split; [exact (@hard_filters_columns df uc bc rn cands m H)|].
  intros v.
  destruct (@hard_filters_In df uc bc rn cands m v H) as (lo' & hi' & Hb' & Hin).
  rewrite Hb in Hb'. injection Hb' as <- <-. exact Hin.
Qed.

(** The mid-range budget and a moderate range need leave the Tesla and the
    Kia of the sample fleet, with all columns. *)
Lemma hard_filters_selection_witness :
  hard_filters ex_fleet general_purpose mid_range moderate
  = Ok (ex_mid_range, 180%Q) /\
  columns ex_mid_range = columns ex_fleet.
Proof.
  assert (H : hard_filters ex_fleet general_purpose mid_range moderate
              = Ok (ex_mid_range, 180%Q)) by (vm_compute; reflexivity).
  split; [exact H|].
  destruct (@hard_filters_selection ex_fleet general_purpose mid_range moderate
              ex_mid_range 180%Q H) as (lo & hi & _ & Hc & _).
  exact Hc.
Defined.

Lemma view_not_none (argsort : list Q -> list nat) (df : Frame Vehicle)
  (use_case budget range_need method : string)
  (priorities : option (string * string * string))
  (cafv_pref : option string) :
  empty df = false ->
  display_recommendations_view argsort df use_case budget range_need method
                               priorities cafv_pref <> Done None.
Proof.
  intros He. unfold display_recommendations_view. rewrite He.
  repeat match goal with
         | |- bindA ?m _ <> _ => destruct m; simpl; try discriminate
         end.
Qed.

(** X4. After a submission of the quick form that passes both look-ups, the
    warning that nothing matches is shown exactly when the candidate frame is
    empty; it names the required range and, as the fallback, that range less
    50 miles, which is never below 50; and otherwise [display_recommendations]
    is called on a frame that is not empty, so it never takes its early
    return. *)
Theorem quick_match_outcomes :
  forall (argsort : list Q -> list nat) (df_filtered : Frame Vehicle)
         (use_case budget_choice range_need : string)
         (candidates : Frame Vehicle) (min_range : Q),
    hard_filters df_filtered use_case budget_choice range_need
    = Ok (candidates, min_range) ->
    (forall a b,
        quick_match argsort df_filtered use_case budget_choice range_need
        = Done (NoMatches a b) <->
        empty candidates = true /\ a = min_range /\ b = (min_range - 50)%Q) /\
    (50 <= min_range - 50)%Q /\
    quick_match argsort df_filtered use_case budget_choice range_need
    <> Done (Recommended None).
Proof.
  intros argsort df uc bc rn cands m H.
  destruct (@hard_filters_inv df uc bc rn cands m H) as (lo & hi & _ & Hr & _).
  pose proof (@range_requirement_bounds uc rn m Hr) as Hm.
  unfold quick_match. rewrite H. simpl.
  destruct (empty cands) eqn:He.
  - split; [|split; [lra|discriminate]].
    intros a b. split.
    + intros E. injection E as <- <-. auto.
    + intros (_ & -> & ->). reflexivity.
  - split; [|split; [lra|]].
    + intros a b. split; [|intros [E _]; discriminate].
      destruct (display_recommendations_view argsort cands uc bc rn "quick"
                  None None); simpl; discriminate.
    + pose proof (@view_not_none argsort cands uc bc rn "quick" None None He)
        as Hv.
      destruct (display_recommendations_view argsort cands uc bc rn "quick"
                  None None) as [[view|]|e]; simpl;
        try discriminate. congruence.
Qed.

(** The quick match of the sample fleet under the mid-range budget. *)
Lemma quick_match_outcomes_witness :
  (50 <= 180 - 50)%Q /\
  quick_match stable_argsort ex_fleet general_purpose mid_range moderate
  <> Done (Recommended None).
Proof.
  refine (proj2 (@quick_match_outcomes stable_argsort ex_fleet
                   general_purpose mid_range moderate ex_mid_range 180%Q _)).
  vm_compute; reflexivity.
Defined.

(** ** The shape of the normalised columns *)

(** Either the fallback or the min-max formula between two ends that the
    column holds. *)
Lemma norm_column_shape (present : bool) (col : list cell) :
  (forall c, norm_column present col c = Some 0.5%Q) \/
  (exists m M : Q,
      (m < M)%Q /\ In (Some m) col /\ In (Some M) col /\
      (forall x, In (Some x) col -> (m <= x <= M)%Q) /\
      forall c, norm_column present col c
                = cell_div (cell_sub c (Some m)) (Some (M - m)%Q)).
Proof.
  unfold norm_column. destruct present; [|now left].
  destruct (dropna col) as [|a t] eqn:E; [now left|].
  destruct (@values_min_spec (a :: t)) as (m & Hm & Hmin & Hlo); [discriminate|].
  destruct (@values_max_spec (a :: t)) as (M & HM & Hmax & Hhi); [discriminate|].
  rewrite Hm, HM. simpl.
  destruct (Qeq_bool m M) eqn:Eq; [now left|]. right.
  rewrite <- E in Hmin, Hmax, Hlo, Hhi.
  exists m, M.
  assert (Hb : forall x, In (Some x) col -> (m <= x <= M)%Q).
  { intros x Hx. apply In_dropna in Hx. split; auto. }
  apply In_dropna in Hmin, Hmax.
  repeat split; auto; try apply Hb; auto.
  destruct (Qlt_le_dec m M) as [|HMm]; [assumption|].
  destruct (Hb m Hmin) as [_ HmM].
  assert (Heq : (m == M)%Q) by lra.
  apply Qeq_bool_iff in Heq. congruence.
Qed.

Lemma ratio_in_unit (x m M : Q) :
  (m < M)%Q -> (m <= x <= M)%Q -> (0 <= (x - m) / (M - m) <= 1)%Q.
Proof.
  intros HmM Hx. split.
  - apply Qle_shift_div_l; lra.
  - apply Qle_shift_div_r; lra.
Qed.

Lemma norm_column_unit (present : bool) (col : list cell) (c : cell) :
  In c col -> unit_cell (norm_column present col c).
Proof.
  intros Hc.
  destruct (norm_column_shape present col)
    as [H|(m & M & HmM & _ & _ & Hb & H)]; rewrite H.
  - simpl. lra.
  - destruct c as [x|]; simpl; [|exact I].
    apply ratio_in_unit; auto.
Qed.

Lemma norm_column_known (present : bool) (col : list cell) (x : Q) :
  exists q, norm_column present col (Some x) = Some q.
Proof.
  destruct (norm_column_shape present col)
    as [H|(m & M & _ & _ & _ & _ & H)]; rewrite H; simpl; eauto.
Qed.

Lemma value_column_shape (df : Frame Vehicle) :
  (forall v, value_column df v = Some 0.5%Q) \/
  (exists m M : Q,
      (m < M)%Q /\
      (forall x, In (Some x) (map value_raw_of (rows df)) -> (m <= x <= M)%Q) /\
      forall v, value_column df v
                = cell_div (cell_sub (value_raw_of v) (Some m)) (Some (M - m)%Q)).
Proof.
  unfold value_column.
  destruct (col_in c_Electric_Range df && col_in c_Base_MSRP df); [|now left].
  unfold series_max, series_min.
  destruct (dropna (map value_raw_of (rows df))) as [|a t] eqn:E; [now left|].
  destruct (@values_min_spec (a :: t)) as (m & Hm & _ & Hlo); [discriminate|].
  destruct (@values_max_spec (a :: t)) as (M & HM & _ & Hhi); [discriminate|].
  rewrite Hm, HM. simpl.
  destruct (Qle_bool M m) eqn:Ele; [now left|]. right.
  apply Qle_bool_false in Ele. rewrite <- E in Hlo, Hhi.
  exists m, M. repeat split; auto;
    match goal with H : In (Some _) _ |- _ => apply In_dropna in H end; auto.
Qed.

Lemma value_column_unit (df : Frame Vehicle) (v : Vehicle) :
  In v (rows df) -> unit_cell (value_column df v).
Proof.
  intros Hv.
  destruct (value_column_shape df) as [H|(m & M & HmM & Hb & H)]; rewrite H.
  - simpl. lra.
  - destruct (value_raw_of v) as [x|] eqn:Ex; simpl; [|exact I].
    apply ratio_in_unit; auto. apply Hb. rewrite <- Ex. now apply in_map.
Qed.

Lemma cafv_column_values (df : Frame Vehicle) (cafv_pref : option string)
  (v : Vehicle) :
  exists b, cafv_column df cafv_pref v = Some b /\ (0 <= b <= 0.1)%Q.
Proof.
  unfold cafv_column.
  destruct (opt_eqb cafv_pref "Prefer CAFV eligible" && col_in c_CAFV df).
  - destruct (str_contains_nocase "eligible" (CAFV_Eligibility v));
      eexists; (split; [reflexivity|]); split; discriminate.
  - eexists. split; [reflexivity|]. split; discriminate.
Qed.

(** X5. Every component score of a scored candidate that is defined lies
    between 0 and 1: the range, price and newness scores for every frame, the
    value score for a fleet of non-negative MSRP (where the ratio of line 473
    divides by a positive number); and the CAFV bonus is always defined and
    lies between 0 and 0.1. *)
Theorem component_scores_in_unit_interval :
  forall (df : Frame Vehicle) (cafv_pref : option string) (weights : Weights)
         (s : Scored),
    In s (rows (score_frame df cafv_pref weights)) ->
    unit_cell (range_score s) /\ unit_cell (price_score s) /\
    unit_cell (newness_score s) /\
    (msrp_nonneg df -> unit_cell (value_score s)) /\
    exists b, cafv_bonus s = Some b /\ (0 <= b <= 0.1)%Q.
Proof.
  intros df cafv_pref weights s Hs.
  apply In_score_frame in Hs. destruct Hs as (v & Hv & ->). simpl.
  split; [apply norm_column_unit; now apply in_map|].
  split.
  { pose proof (@norm_column_unit (col_in c_Base_MSRP df)
                  (map Base_MSRP (rows df)) (Base_MSRP v)
                  (in_map Base_MSRP _ _ Hv)) as H.
    destruct (norm_column (col_in c_Base_MSRP df) (map Base_MSRP (rows df))
                          (Base_MSRP v)) as [q|]; simpl in *; [lra|exact I]. }
  split; [apply norm_column_unit; now apply in_map|].
  split; [intros _; now apply value_column_unit|].
  apply cafv_column_values.
Qed.

(** The top match of the sample ranking. *)
Lemma component_scores_in_unit_interval_witness :
  unit_cell (range_score (row_at ex_ranked 0)) /\
  unit_cell (price_score (row_at ex_ranked 0)).
Proof.
  destruct (@component_scores_in_unit_interval ex_fleet None ex_weights
              (row_at ex_ranked 0)) as (Hr & Hp & _).
  - vm_compute. left. reflexivity.
  - split; assumption.
Defined.

(** ** Weights and the composite score *)

Lemma priority_weights_ok (ps : string * string * string) :
  weights_ok (priority_weights ps).
Proof.
  destruct ps as [[p1 p2] p3]. unfold priority_weights, weights_ok.
  destruct (dict_get_default weight_map p1 k_value),
    (dict_get_default weight_map p2 k_price),
    (dict_get_default weight_map p3 k_range); simpl;
    repeat split; try discriminate; reflexivity.
Qed.

Lemma select_weights_ok (use_case method : string)
  (priorities : option (string * string * string)) (w : Weights) :
  select_weights use_case method priorities = Ok w -> weights_ok w.
Proof.
  unfold select_weights. destruct (String.eqb method "quick").
  - unfold use_case_weights, dict_get.
    repeat match goal with
           | |- context [String.eqb ?k use_case] =>
               destruct (String.eqb k use_case)
           end;
      intros H; try discriminate; injection H as <-;
      unfold weights_ok; simpl; repeat split; try discriminate; reflexivity.
  - destruct priorities as [ps|]; intros H; injection H as <-.
    + apply priority_weights_ok.
    + unfold weights_ok; simpl. repeat split; try discriminate; reflexivity.
Qed.

Lemma weighted_sum_bounds (wp wr wv wn p r v n b : Q) :
  (0 <= wp)%Q -> (0 <= wr)%Q -> (0 <= wv)%Q -> (0 <= wn)%Q ->
  (wp + wr + wv + wn == 1)%Q ->
  (0 <= p <= 1)%Q -> (0 <= r <= 1)%Q -> (0 <= v <= 1)%Q -> (0 <= n <= 1)%Q ->
  (0 <= b)%Q ->
  (0 <= wp * p + wr * r + wv * v + wn * n + b <= 1 + b)%Q.
Proof.
  intros Hwp Hwr Hwv Hwn Hsum Hp Hr Hv Hn Hb.
  assert (H1 : (0 <= wp * p <= wp)%Q) by nra.
  assert (H2 : (0 <= wr * r <= wr)%Q) by nra.
  assert (H3 : (0 <= wv * v <= wv)%Q) by nra.
  assert (H4 : (0 <= wn * n <= wn)%Q) by nra.
  lra.
Qed.

Lemma take_In {R : Type} (l : list R) (idx : list nat) (x : R) :
  In x (take l idx) -> In x l.
Proof.
  unfold take. rewrite in_flat_map. intros (i & _ & H).
  destruct (nth_error l i) as [r|] eqn:E; [|destruct H].
  destruct H as [<-|[]]. eapply nth_error_In; eauto.
Qed.

(** Every ranked row is a scored candidate, whatever the kernel. *)
Lemma ranked_rows_scored (argsort : list Q -> list nat) (df : Frame Vehicle)
  (use_case budget range_need method : string)
  (priorities : option (string * string * string))
  (cafv_pref : option string) (ranked : Frame Scored) (s : Scored) :
  display_recommendations_ranked argsort df use_case budget range_need method
                                 priorities cafv_pref = Ok (Some ranked) ->
  In s (rows ranked) ->
  exists weights,
    select_weights use_case method priorities = Ok weights /\
    In s (rows (score_frame df cafv_pref weights)).
Proof.
  intros H Hs. apply ranked_inv in H. destruct H as (w & _ & Hw & ->).
  exists w. split; [exact Hw|]. simpl in Hs. now apply take_In in Hs.
Qed.

Lemma composite_bounded (df : Frame Vehicle) (cafv_pref : option string)
  (weights : Weights) (s : Scored) (c : Q) :
  weights_ok weights ->
  In s (rows (score_frame df cafv_pref weights)) ->
  composite_score s = Some c ->
  exists b, cafv_bonus s = Some b /\ (0 <= b <= 0.1)%Q /\ (0 <= c <= 1 + b)%Q.
Proof.
  intros (Hp & Hr & Hv & Hn & Hsum) Hs Hc.
  apply In_score_frame in Hs. destruct Hs as (v & Hin & ->).
  simpl in *.
  destruct (cafv_column_values df cafv_pref v) as (b & Hb & Hb01).
  pose proof (@norm_column_unit (col_in c_Base_MSRP df)
                (map Base_MSRP (rows df)) (Base_MSRP v)
                (in_map Base_MSRP _ _ Hin)) as Up.
  pose proof (@norm_column_unit (col_in c_Electric_Range df)
                (map Electric_Range (rows df)) (Electric_Range v)
                (in_map Electric_Range _ _ Hin)) as Ur.
  pose proof (@norm_column_unit (col_in c_Model_Year df)
                (map Model_Year (rows df)) (Model_Year v)
                (in_map Model_Year _ _ Hin)) as Un.
  pose proof (@value_column_unit df v Hin) as Uv.
  exists b. split; [exact Hb|]. split; [exact Hb01|].
  rewrite Hb in Hc. unfold composite in Hc.
  destruct (norm_column (col_in c_Base_MSRP df) (map Base_MSRP (rows df))
                        (Base_MSRP v)) as [p|]; [|discriminate].
  destruct (norm_column (col_in c_Electric_Range df)
                        (map Electric_Range (rows df)) (Electric_Range v))
    as [r|]; [|discriminate].
  destruct (value_column df v) as [vs|]; [|discriminate].
  destruct (norm_column (col_in c_Model_Year df) (map Model_Year (rows df))
                        (Model_Year v)) as [n|]; [|discriminate].
  simpl in *. injection Hc as <-.
  apply weighted_sum_bounds; auto; lra.
Qed.

Lemma ranked_composite_bounds (argsort : list Q -> list nat)
  (df : Frame Vehicle) (use_case budget range_need method : string)
  (priorities : option (string * string * string))
  (cafv_pref : option string) (ranked : Frame Scored) (s : Scored) (c : Q) :
  display_recommendations_ranked argsort df use_case budget range_need
                                 method priorities cafv_pref
  = Ok (Some ranked) ->
  In s (rows ranked) ->
  composite_score s = Some c ->
  (0 <= c <= 1.1)%Q /\
  (opt_eqb cafv_pref "Prefer CAFV eligible" = false -> (c <= 1)%Q).
Proof.
  intros H Hs Hc.
  destruct (@ranked_rows_scored argsort df use_case budget range_need method
              priorities cafv_pref ranked s H Hs) as (w & Hw & Hin).
  destruct (@composite_bounded df cafv_pref w s c
              (@select_weights_ok use_case method priorities w Hw) Hin Hc)
    as (b & Hb & Hb01 & Hcb).
  split; [lra|]. intros Hpref.
  apply In_score_frame in Hin. destruct Hin as (v & _ & ->).
  simpl in Hb. unfold cafv_column in Hb. rewrite Hpref in Hb. simpl in Hb.
  injection Hb as <-. lra.
Qed.



(** ** Both ends of a normalised column *)

(** X7. In a column with two distinct known values the normalisation reaches
    both ends: a candidate holding the least known value gets 0 and one
    holding the greatest gets 1; for the MSRP this means a price score of 1
    for the cheapest candidate and of 0 for the dearest. *)
Theorem normalisation_reaches_both_ends :
  forall (df : Frame Vehicle) (cafv_pref : option string) (weights : Weights)
         (f : field) (s : Scored) (x : Q),
    col_in (field_name f) df = true ->
    two_distinct (map (field_cell f) (rows df)) ->
    In s (rows (score_frame df cafv_pref weights)) ->
    field_cell f (vehicle s) = Some x ->
    ((forall y, In (Some y) (map (field_cell f) (rows df)) -> (x <= y)%Q) ->
     exists q, field_norm f s = Some q /\ (q == 0)%Q /\
               (f = f_msrp -> exists p, price_score s = Some p /\ (p == 1)%Q)) /\
    ((forall y, In (Some y) (map (field_cell f) (rows df)) -> (y <= x)%Q) ->
     exists q, field_norm f s = Some q /\ (q == 1)%Q /\
               (f = f_msrp -> exists p, price_score s = Some p /\ (p == 0)%Q)).
Proof.
  intros df cafv_pref weights f s x Hcol Hspread Hs Hx.
  apply In_score_frame in Hs. destruct Hs as (v & Hv & ->).
  destruct (norm_column_shape true (map (field_cell f) (rows df)))
    as [H|(m & M & HmM & Hm & HM & Hb & H)].
  { exfalso. destruct (norm_column_spread Hspread) as (m & M & HmM & _ & H').
    specialize (H (Some m)). rewrite H' in H.
    unfold cell_div, cell_sub, cell_map2 in H.
    assert (Hsome : forall a b : Q, Some a = Some b -> a = b)
      by (intros a b E; congruence).
    apply Hsome in H.
    assert (Hz : ((m - m) / (M - m) == 0)%Q) by (field; lra).
    rewrite H in Hz. discriminate Hz. }
  assert (Hnorm : field_norm f (set_composite weights (component_row df cafv_pref v))
                  = Some ((x - m) / (M - m))%Q).
  { destruct f; simpl in *; rewrite Hcol, H, Hx; reflexivity. }
  assert (Hprice : f = f_msrp ->
                   price_score (set_composite weights (component_row df cafv_pref v))
                   = Some (1 - (x - m) / (M - m))%Q).
  { intros ->. simpl in *. rewrite Hcol, H, Hx. reflexivity. }
  split; intros Hend.
  - assert (Hxm : (x == m)%Q).
    { destruct (Hb x) as [Hlo _]; [rewrite <- Hx; now apply in_map|].
      specialize (Hend m Hm). lra. }
    assert (Hq : ((x - m) / (M - m) == 0)%Q) by (rewrite Hxm; field; lra).
    eexists. split; [exact Hnorm|]. split; [exact Hq|].
    intros Hf. eexists. split; [exact (Hprice Hf)|]. rewrite Hq. reflexivity.
  - assert (HxM : (x == M)%Q).
    { destruct (Hb x) as [_ Hhi]; [rewrite <- Hx; now apply in_map|].
      specialize (Hend M HM). lra. }
    assert (Hq : ((x - m) / (M - m) == 1)%Q) by (rewrite HxM; field; lra).
    eexists. split; [exact Hnorm|]. split; [exact Hq|].
    intros Hf. eexists. split; [exact (Hprice Hf)|]. rewrite Hq. reflexivity.
Qed.

(** The Nissan, the cheapest of the sample fleet, has the price score 1. *)
Lemma normalisation_reaches_both_ends_witness :
  exists p, price_score (row_at ex_ranked 2) = Some p /\ (p == 1)%Q.
Proof.
  destruct (@normalisation_reaches_both_ends ex_fleet None ex_weights f_msrp
              (row_at ex_ranked 2) 30000%Q) as [Hleast _].
  - vm_compute; reflexivity.
  - exists 30000%Q, 40000%Q. split; [right; left; reflexivity|].
    split; [left; reflexivity|]. intro H. discriminate H.
  - vm_compute. right. left. reflexivity.
  - vm_compute; reflexivity.
  - destruct Hleast as (q & _ & _ & Hprice).
    + intros y Hy. simpl in Hy.
      destruct Hy as [E|[E|[E|[E|[]]]]]; injection E as <-; discriminate.
    + exact (Hprice eq_refl).
Defined.

(** ** Scores of the candidates that pass a bounded budget *)

Lemma value_column_known (df : Frame Vehicle) (v : Vehicle) (r p : Q) :
  Electric_Range v = Some r -> Base_MSRP v = Some p ->
  exists q, value_column df v = Some q.
Proof.
  intros Hr Hp.
  destruct (value_column_shape df) as [H|(m & M & _ & _ & H)]; rewrite H;
    [eauto|].
  unfold value_raw_of. rewrite Hr, Hp. simpl. eauto.
Qed.

Lemma composite_defined (weights : Weights) (p r v n b : Q) :
  exists c, composite weights (Some p) (Some r) (Some v) (Some n) (Some b)
            = Some c.
Proof. unfold composite. simpl. eauto. Qed.

Lemma bounded_budget_known (df : Frame Vehicle)
  (use_case budget_choice range_need : string)
  (candidates : Frame Vehicle) (min_range : Q) (v : Vehicle) :
  bounded_budget budget_choice ->
  col_in c_Base_MSRP df = true ->
  col_in c_Electric_Range df = true ->
  hard_filters df use_case budget_choice range_need
  = Ok (candidates, min_range) ->
  In v (rows candidates) ->
  exists p r, Base_MSRP v = Some p /\ Electric_Range v = Some r.
Proof.
  intros Hbounded Hp He H Hv.
  destruct (@hard_filters_In df use_case budget_choice range_need candidates
              min_range v H) as (lo & hi & Hb & Hin).
  apply Hin in Hv. destruct Hv as (_ & Hprice & Hrange).
  destruct (Hrange He) as (r & Hr & _).
  specialize (Hprice Hp).
  destruct (Base_MSRP v) as [p|]; [eauto|]. exfalso. simpl in Hprice.
  destruct (@budget_ranges_keys budget_choice lo hi Hb)
    as [(_ & _ & ->)|[(_ & _ & ->)|[(_ & _ & ->)|[(E & _)|(E & _)]]]];
    try (destruct Hprice as [_ Hhi]; revert Hhi; apply Qlt_not_le;
         reflexivity);
    destruct Hbounded as [Hc|[Hc|Hc]]; rewrite Hc in E; discriminate.
Qed.

(** X8. Under one of the three budget choices with a finite upper bound, on a
    frame with MSRP and range columns, every candidate that passes the hard
    filters has a known MSRP and a known range; hence its price, range and
    value scores are defined, and its composite score is undefined exactly
    when its newness score is. *)
Theorem bounded_budget_scores_defined :
  forall (df_filtered : Frame Vehicle)
         (use_case budget_choice range_need : string)
         (candidates : Frame Vehicle) (min_range : Q),
    bounded_budget budget_choice ->
    col_in c_Base_MSRP df_filtered = true ->
    col_in c_Electric_Range df_filtered = true ->
    hard_filters df_filtered use_case budget_choice range_need
    = Ok (candidates, min_range) ->
    (forall v, In v (rows candidates) ->
               exists p r, Base_MSRP v = Some p /\ Electric_Range v = Some r) /\
    forall (cafv_pref : option string) (weights : Weights) (s : Scored),
      In s (rows (score_frame candidates cafv_pref weights)) ->
      (exists p r q, price_score s = Some p /\ range_score s = Some r /\
                     value_score s = Some q) /\
      (composite_score s = NaN <-> newness_score s = NaN).
Proof.
  intros df uc bc rn cands m Hbounded Hp He H.
  assert (Hknown : forall v, In v (rows cands) ->
             exists p r, Base_MSRP v = Some p /\ Electric_Range v = Some r).
  { intros v Hv.
    exact (@bounded_budget_known df uc bc rn cands m v Hbounded Hp He H Hv). }
  split; [exact Hknown|].
  intros cafv_pref w s Hs.
  apply In_score_frame in Hs. destruct Hs as (v & Hv & ->).
  destruct (Hknown v Hv) as (p & r & Hpv & Hrv). simpl.
  rewrite Hpv, Hrv.
  destruct (norm_column_known (col_in c_Base_MSRP cands)
              (map Base_MSRP (rows cands)) p) as (qp & ->).
  destruct (norm_column_known (col_in c_Electric_Range cands)
              (map Electric_Range (rows cands)) r) as (qr & ->).
  destruct (@value_column_known cands v r p Hrv Hpv) as (qv & ->).
  destruct (cafv_column_values cands cafv_pref v) as (b & -> & _).
  split; [simpl; do 3 eexists; repeat split; reflexivity|].
  destruct (norm_column (col_in c_Model_Year cands)
              (map Model_Year (rows cands)) (Model_Year v)) as [n|].
  - unfold composite, cell_add, cell_mul, cell_sub, cell_map2. simpl.
    split; intros E; discriminate E.
  - unfold composite, cell_add, cell_mul, cell_sub, cell_map2. simpl.
    split; reflexivity.
Qed.

(** The candidates of the sample fleet under the mid-range budget. *)
Lemma bounded_budget_scores_defined_witness :
  exists p r,
    Base_MSRP (veh 3 "KIA" 200 45000 2021) = Some p /\
    Electric_Range (veh 3 "KIA" 200 45000 2021) = Some r.
Proof.
  refine (proj1 (@bounded_budget_scores_defined ex_fleet general_purpose
                   mid_range moderate ex_mid_range 180%Q _ _ _ _)
                (veh 3 "KIA" 200 45000 2021) _).
  - right. left. reflexivity.
  - vm_compute; reflexivity.
  - vm_compute; reflexivity.
  - vm_compute; reflexivity.
  - right. left. reflexivity.
Defined.

(** ** The top match *)

Lemma cell_desc_refl (c : cell) : cell_desc c c.
Proof. destruct c; simpl; [apply Qle_refl|exact I]. Qed.

Lemma ranked_nonempty (argsort : list Q -> list nat) (df : Frame Vehicle)
  (cafv_pref : option string) (weights : Weights) :
  argsort_sorts argsort -> empty df = false ->
  exists top,
    iloc0 (sort_values_desc argsort composite_score
             (score_frame df cafv_pref weights)) = Some top /\
    exists v, In v (rows df) /\
              top = set_composite weights (component_row df cafv_pref v).
Proof.
  intros Hsorts He.
  pose proof (sort_values_desc_Permutation Hsorts composite_score
                (score_frame df cafv_pref weights)) as Hperm.
  unfold iloc0.
  destruct (rows (sort_values_desc argsort composite_score
                    (score_frame df cafv_pref weights))) as [|top t] eqn:E.
  - apply Permutation_nil in Hperm.
    apply (f_equal (@List.length Scored)) in Hperm.
    rewrite score_frame_length in Hperm.
    unfold empty in He. destruct (rows df); [discriminate|discriminate].
  - exists top. split; [reflexivity|].
    apply In_score_frame.
    apply (Permutation_in _ Hperm). now left.
Qed.

(** X9. With a sort kernel that sorts, the ranking of a non-empty frame has a
    first row, the top match; it is one of the candidates, and no row of the
    ranking stands before it in the descending order of composite scores with
    undefined scores last. *)
Theorem top_match_ranks_first :
  forall (argsort : list Q -> list nat),
    argsort_sorts argsort ->
    forall (df : Frame Vehicle) (use_case budget range_need method : string)
           (priorities : option (string * string * string))
           (cafv_pref : option string) (ranked : Frame Scored),
      display_recommendations_ranked argsort df use_case budget range_need
                                     method priorities cafv_pref
      = Ok (Some ranked) ->
      exists top_vehicle,
        iloc0 ranked = Some top_vehicle /\
        In (vehicle top_vehicle) (rows df) /\
        forall s, In s (rows ranked) -> ranks_before top_vehicle s.
Proof.
  intros argsort Hsorts df use_case budget range_need method priorities
         cafv_pref ranked H.
  destruct (@ranked_descending argsort df use_case budget range_need method
              priorities cafv_pref ranked Hsorts H) as (w & _ & _ & Hsorted).
  apply ranked_inv in H. destruct H as (w' & He & _ & ->).
  destruct (@ranked_nonempty argsort df cafv_pref w' Hsorts He)
    as (top & Htop & v & Hv & Heq).
  exists top. split; [exact Htop|]. split; [subst top; exact Hv|].
  unfold iloc0 in Htop.
  destruct (rows (sort_values_desc argsort composite_score
                    (score_frame df cafv_pref w'))) as [|t0 t]; [discriminate|].
  simpl in Htop. injection Htop as ->.
  apply StronglySorted_inv in Hsorted. destruct Hsorted as [_ Hall].
  rewrite Forall_forall in Hall.
  intros s [<-|Hs]; [apply cell_desc_refl|now apply Hall].
Qed.

(** The sample ranking. *)
Lemma top_match_ranks_first_witness :
  exists top_vehicle,
    iloc0 ex_ranked = Some top_vehicle /\
    In (vehicle top_vehicle) (rows ex_fleet) /\
    forall s, In s (rows ex_ranked) -> ranks_before top_vehicle s.
Proof.
  exact (@top_match_ranks_first stable_argsort stable_argsort_sorts ex_fleet
           general_purpose "No preference" moderate "quick" None None
           ex_ranked ex_fleet_ranked).
Defined.

(** ** What [display_recommendations] renders *)

Lemma col_in_ranked (argsort : list Q -> list nat) (df : Frame Vehicle)
  (cafv_pref : option string) (weights : Weights) (c : string) :
  In c [c_Make; c_Model_Year; c_Electric_Range; c_Base_MSRP; c_CAFV] ->
  col_in c (sort_values_desc argsort composite_score
              (score_frame df cafv_pref weights)) = col_in c df.
Proof.
  intros Hc.
  unfold sort_values_desc, score_frame, assign_composite, component_frame,
    component_columns.
  destruct (col_in c_Electric_Range df && col_in c_Base_MSRP df);
    unfold col_in; simpl columns;
    rewrite !existsb_app, <- !orb_assoc;
    simpl in Hc;
    destruct Hc as [<- | [<- | [<- | [<- | [<- | []]]]]];
    match goal with
    | |- (_ || ?rest)%bool = _ =>
        replace rest with false by (vm_compute; reflexivity)
    end;
    apply orb_false_r.
Qed.

Lemma col_in_ranked_composite (argsort : list Q -> list nat)
  (df : Frame Vehicle) (cafv_pref : option string) (weights : Weights) :
  col_in "composite_score"
         (sort_values_desc argsort composite_score
            (score_frame df cafv_pref weights)) = true.
Proof.
  unfold col_in, sort_values_desc, score_frame, assign_composite. simpl columns.
  rewrite existsb_app. simpl. apply orb_true_r.
Qed.

Lemma view_inv (argsort : list Q -> list nat) (df : Frame Vehicle)
  (use_case budget range_need method : string)
  (priorities : option (string * string * string))
  (cafv_pref : option string) (view : View) :
  display_recommendations_view argsort df use_case budget range_need method
                               priorities cafv_pref = Done (Some view) ->
  exists weights,
    empty df = false /\
    select_weights use_case method priorities = Ok weights /\
    view_ranked view = sort_values_desc argsort composite_score
                         (score_frame df cafv_pref weights) /\
    iloc0 (view_ranked view) = Some (view_top view) /\
    top_card (view_ranked view) (view_top view) = Done (view_card view) /\
    why_this_match weights (view_ranked view) (view_top view)
    = Done (view_reasons view) /\
    get_diverse_alternatives (view_ranked view) (view_top view)
    = Ok (view_alternatives view) /\
    comparison_table (view_ranked view) = Done (view_table view).
Proof.
  unfold display_recommendations_view.
  destruct (empty df); [discriminate|].
  destruct (select_weights use_case method priorities) as [w|e];
    [|discriminate].
  simpl.
  fold (score_frame df cafv_pref w).
  set (ranked := sort_values_desc argsort composite_score
                   (score_frame df cafv_pref w)).
  destruct (iloc0 ranked) as [top|] eqn:Etop; [|discriminate]. simpl.
  destruct (top_card ranked top) as [card|e] eqn:Ecard; [|discriminate]. simpl.
  destruct (why_this_match w ranked top) as [rs|e] eqn:Ers; [|discriminate].
  simpl.
  destruct (get_diverse_alternatives ranked top) as [alts|e] eqn:Ealts;
    [|discriminate].
  simpl.
  destruct (comparison_table ranked) as [table|e] eqn:Etable; [|discriminate].
  simpl. intros H. injection H as <-. simpl.
  exists w. repeat split; assumption.
Qed.

Lemma view_ranked_agrees (argsort : list Q -> list nat) (df : Frame Vehicle)
  (use_case budget range_need method : string)
  (priorities : option (string * string * string))
  (cafv_pref : option string) (view : View) :
  display_recommendations_view argsort df use_case budget range_need method
                               priorities cafv_pref = Done (Some view) ->
  display_recommendations_ranked argsort df use_case budget range_need method
                                 priorities cafv_pref
  = Ok (Some (view_ranked view)).
Proof.
  intros H. apply view_inv in H.
  destruct H as (w & He & Hw & Hr & _).
  unfold display_recommendations_ranked. rewrite He, Hw. simpl.
  rewrite Hr. reflexivity.
Qed.

Lemma shown_int_done (c : cell) : exists z, shown_int c = Done z.
Proof. destruct c; simpl; eauto. Qed.

Lemma top_card_price (ranked : Frame Scored) (top_vehicle : Scored) :
  top_card ranked top_vehicle
  = (if col_in c_Base_MSRP ranked
     then match Base_MSRP (vehicle top_vehicle) with
          | Some p =>
              Done (mkCard
                      (option_map trunc
                         (get_cell ranked c_Model_Year
                                   (Model_Year (vehicle top_vehicle))))
                      (option_map trunc
                         (get_cell ranked c_Electric_Range
                                   (Electric_Range (vehicle top_vehicle))))
                      (trunc p))
          | None => Fails ValueError
          end
     else Fails (Exn (KeyError c_Base_MSRP))).
Proof.
  unfold top_card.
  destruct (get_cell ranked c_Model_Year (Model_Year (vehicle top_vehicle)));
    destruct (get_cell ranked c_Electric_Range
                       (Electric_Range (vehicle top_vehicle)));
    simpl; destruct (col_in c_Base_MSRP ranked); simpl; try reflexivity;
    destruct (Base_MSRP (vehicle top_vehicle)); reflexivity.
Qed.

Lemma In_c_Base_MSRP :
  In c_Base_MSRP [c_Make; c_Model_Year; c_Electric_Range; c_Base_MSRP; c_CAFV].
Proof. simpl. tauto. Qed.

(** X10. The card of the top match converts the MSRP without a guard (line
    558): when the frame has no MSRP column [display_recommendations] raises
    KeyError for it, when the top match's MSRP is unknown it raises
    ValueError, and whenever it renders, the top match's MSRP is known and the
    card shows it truncated to an integer. *)
Theorem top_card_needs_known_price :
  forall (argsort : list Q -> list nat) (df : Frame Vehicle)
         (use_case budget range_need method : string)
         (priorities : option (string * string * string))
         (cafv_pref : option string) (ranked : Frame Scored)
         (top_vehicle : Scored),
    display_recommendations_ranked argsort df use_case budget range_need
                                   method priorities cafv_pref
    = Ok (Some ranked) ->
    iloc0 ranked = Some top_vehicle ->
    let rendered :=
      display_recommendations_view argsort df use_case budget range_need
                                   method priorities cafv_pref in
    (col_in c_Base_MSRP df = false ->
     rendered = Fails (Exn (KeyError c_Base_MSRP))) /\
    (col_in c_Base_MSRP df = true ->
     Base_MSRP (vehicle top_vehicle) = NaN ->
     rendered = Fails ValueError) /\
    (forall view, rendered = Done (Some view) ->
       view_top view = top_vehicle /\
       exists p, Base_MSRP (vehicle top_vehicle) = Some p /\
                 card_price (view_card view) = trunc p).
Proof.
  intros argsort df use_case budget range_need method priorities cafv_pref
         ranked top H Htop rendered.
  apply ranked_inv in H. destruct H as (w & He & Hw & ->).
  assert (Hstart :
    rendered
    = (card <-- top_card (sort_values_desc argsort composite_score
                            (score_frame df cafv_pref w)) top ;;
       reasons <-- why_this_match w
                     (sort_values_desc argsort composite_score
                        (score_frame df cafv_pref w)) top ;;
       alternatives <-- of_result
                          (get_diverse_alternatives
                             (sort_values_desc argsort composite_score
                                (score_frame df cafv_pref w)) top) ;;
       table <-- comparison_table
                   (sort_values_desc argsort composite_score
                      (score_frame df cafv_pref w)) ;;
       Done (Some (mkView (sort_values_desc argsort composite_score
                             (score_frame df cafv_pref w))
                          top card reasons alternatives table)))).
  { unfold rendered, display_recommendations_view. rewrite He, Hw. simpl.
    fold (score_frame df cafv_pref w). rewrite Htop. reflexivity. }
  pose proof (@col_in_ranked argsort df cafv_pref w c_Base_MSRP In_c_Base_MSRP)
    as Hcol.
  split; [|split].
  - intros Hno. rewrite Hstart, top_card_price, Hcol, Hno. reflexivity.
  - intros Hyes Hnan. rewrite Hstart, top_card_price, Hcol, Hyes, Hnan.
    reflexivity.
  - intros view Hview.
    pose proof Hview as Hv. unfold rendered in Hv. apply view_inv in Hv.
    destruct Hv as (w' & _ & Hw' & Hr & Ht & Hcard & _).
    rewrite Hw in Hw'. injection Hw' as <-.
    rewrite Hr in Ht. rewrite Htop in Ht. injection Ht as Ht.
    split; [symmetry; exact Ht|].
    rewrite top_card_price in Hcard. rewrite Hr, Hcol, <- Ht in Hcard.
    destruct (col_in c_Base_MSRP df); [|discriminate].
    destruct (Base_MSRP (vehicle top)) as [p|]; [|discriminate].
    exists p. split; [reflexivity|].
    injection Hcard as <-. reflexivity.
Qed.

(** The card of the sample fleet's top match shows its MSRP. *)
Lemma top_card_needs_known_price_witness :
  exists p, Base_MSRP (vehicle (row_at ex_ranked 0)) = Some p /\
            card_price (view_card ex_view) = trunc p.
Proof.
  destruct (@top_card_needs_known_price stable_argsort ex_fleet
              general_purpose "No preference" moderate "quick" None None
              ex_ranked (row_at ex_ranked 0) ex_fleet_ranked)
    as (_ & _ & Hdone).
  - vm_compute; reflexivity.
  - destruct (Hdone ex_view ex_fleet_view) as (_ & Hprice). exact Hprice.
Defined.

(** X11. With a sort kernel that sorts, a non-empty frame none of whose
    vehicles has a known MSRP can never be rendered: [display_recommendations]
    fails on the card of the top match, with ValueError or, without the
    column, with KeyError for it. *)
Theorem unpriced_fleet_cannot_be_rendered :
  forall (argsort : list Q -> list nat),
    argsort_sorts argsort ->
    forall (df : Frame Vehicle) (use_case budget range_need method : string)
           (priorities : option (string * string * string))
           (cafv_pref : option string) (weights : Weights),
      empty df = false ->
      select_weights use_case method priorities = Ok weights ->
      (forall v, In v (rows df) -> Base_MSRP v = NaN) ->
      exists e,
        display_recommendations_view argsort df use_case budget range_need
                                     method priorities cafv_pref = Fails e /\
        (e = ValueError \/ e = Exn (KeyError c_Base_MSRP)).
Proof.
  intros argsort Hsorts df use_case budget range_need method priorities
         cafv_pref w He Hw Hnan.
  destruct (@ranked_nonempty argsort df cafv_pref w Hsorts He)
    as (top & Htop & v & Hv & Heq).
  assert (Hmsrp : Base_MSRP (vehicle top) = NaN)
    by (subst top; simpl; now apply Hnan).
  unfold display_recommendations_view. rewrite He, Hw. simpl.
  fold (score_frame df cafv_pref w). rewrite Htop. simpl.
  rewrite top_card_price.
  rewrite (@col_in_ranked argsort df cafv_pref w c_Base_MSRP In_c_Base_MSRP).
  destruct (col_in c_Base_MSRP df).
  - rewrite Hmsrp. simpl. exists ValueError. split; [reflexivity|now left].
  - simpl. eexists. split; [reflexivity|now right].
Qed.

(** A frame that holds only the vehicle of unknown MSRP. *)
Lemma unpriced_fleet_cannot_be_rendered_witness :
  exists e,
    display_recommendations_view stable_argsort
      (mkFrame all_columns [ex_unpriced]) general_purpose "Luxury (> $80k)"
      moderate "quick" None None = Fails e /\
    (e = ValueError \/ e = Exn (KeyError c_Base_MSRP)).
Proof.
  apply (@unpriced_fleet_cannot_be_rendered stable_argsort
           stable_argsort_sorts (mkFrame all_columns [ex_unpriced])
           general_purpose "Luxury (> $80k)" moderate "quick" None None
           ex_weights).
  - vm_compute; reflexivity.
  - vm_compute; reflexivity.
  - intros v [<-|[]]. reflexivity.
Defined.

(** ** The reasons shown beside the top match *)

Lemma select_weights_triggers (use_case method : string)
  (priorities : option (string * string * string)) (w : Weights) :
  select_weights use_case method priorities = Ok w -> triggers w = true.
Proof.
  unfold select_weights. destruct (String.eqb method "quick").
  - unfold use_case_weights, dict_get.
    repeat match goal with
           | |- context [String.eqb ?k use_case] =>
               destruct (String.eqb k use_case)
           end;
      intros H; try discriminate; injection H as <-; vm_compute; reflexivity.
  - destruct priorities as [ps|]; intros H; injection H as <-.
    + destruct ps as [[p1 p2] p3]. unfold priority_weights.
      destruct (dict_get_default weight_map p1 k_value),
        (dict_get_default weight_map p2 k_price),
        (dict_get_default weight_map p3 k_range); vm_compute; reflexivity.
    + vm_compute; reflexivity.
Qed.

Lemma why_this_match_inv (weights : Weights) (ranked : Frame Scored)
  (top_vehicle : Scored) (reasons : list reason) :
  why_this_match weights ranked top_vehicle = Done reasons ->
  reasons
  = (if Qlt_b 0.35 (w_price weights) then [r_price] else [])
    ++ (if Qlt_b 0.35 (w_range weights) then [r_range] else [])
    ++ (if Qlt_b 0.20 (w_value weights) then [r_value] else [])
    ++ (if Qlt_b 0.20 (w_newness weights) then [r_newness] else [])
    ++ (if col_in c_CAFV ranked
           && str_contains_nocase "eligible"
                (CAFV_Eligibility (vehicle top_vehicle))
        then [r_incentive] else []).
Proof.
  unfold why_this_match.
  assert (Hcafv :
    (if col_in c_CAFV ranked
     then match CAFV_Eligibility (vehicle top_vehicle) with
          | Some cafv_status =>
              if contains "eligible" (lower cafv_status)
              then [r_incentive] else []
          | None => []
          end
     else [])
    = (if col_in c_CAFV ranked
          && str_contains_nocase "eligible"
               (CAFV_Eligibility (vehicle top_vehicle))
       then [r_incentive] else [])).
  { destruct (col_in c_CAFV ranked); [|reflexivity].
    destruct (CAFV_Eligibility (vehicle top_vehicle)); reflexivity. }
  rewrite Hcafv.
  destruct (Qlt_b 0.35 (w_price weights));
    [destruct (py_int _); simpl; [|discriminate]|simpl];
    (destruct (Qlt_b 0.35 (w_range weights));
     [destruct (py_int _); simpl; [|discriminate]|simpl]);
    (destruct (Qlt_b 0.20 (w_newness weights));
     [destruct (py_int _); simpl; [|discriminate]|simpl]);
    intros H; injection H as <-; reflexivity.
Qed.

(** X12. Whenever [display_recommendations] renders, the reasons beside the
    top match hold at least one of the four weight-driven reasons (for every
    use case, every triple of priorities and the default weights some weight
    exceeds its threshold), no reason occurs twice, and the incentive reason
    is shown exactly when the frame has the CAFV column and the top match's
    status contains "eligible" in any letter case. *)
Theorem rendered_match_is_explained :
  forall (argsort : list Q -> list nat) (df : Frame Vehicle)
         (use_case budget range_need method : string)
         (priorities : option (string * string * string))
         (cafv_pref : option string) (view : View),
    display_recommendations_view argsort df use_case budget range_need
                                 method priorities cafv_pref
    = Done (Some view) ->
    existsb is_weight_reason (view_reasons view) = true /\
    NoDup (view_reasons view) /\
    (In r_incentive (view_reasons view) <->
     col_in c_CAFV df = true /\ cafv_mask (vehicle (view_top view)) = true).
Proof.
  intros argsort df use_case budget range_need method priorities cafv_pref
         view H.
  apply view_inv in H.
  destruct H as (w & _ & Hw & Hr & _ & _ & Hreasons & _).
  apply why_this_match_inv in Hreasons.
  apply select_weights_triggers in Hw. unfold triggers in Hw.
  rewrite Hr in Hreasons.
  rewrite (@col_in_ranked argsort df cafv_pref w c_CAFV) in Hreasons
    by (simpl; tauto).
  unfold cafv_mask. rewrite Hreasons.
  destruct (Qlt_b 0.35 (w_price w)), (Qlt_b 0.35 (w_range w)),
    (Qlt_b 0.20 (w_value w)), (Qlt_b 0.20 (w_newness w));
    try discriminate Hw;
    (destruct (col_in c_CAFV df);
     destruct (str_contains_nocase "eligible"
                 (CAFV_Eligibility (vehicle (view_top view))));
     simpl;
     (split; [reflexivity|]);
     (split;
      [repeat constructor; simpl; intuition discriminate
      |split;
       [intros Hin; repeat (destruct Hin as [Hin|Hin]; try discriminate Hin);
        try contradiction; auto
       |intros [? ?]; try discriminate; simpl; tauto]])).
Qed.

(** The reasons shown for the sample fleet. *)
Lemma rendered_match_is_explained_witness :
  existsb is_weight_reason (view_reasons ex_view) = true /\
  NoDup (view_reasons ex_view).
Proof.
  destruct (@rendered_match_is_explained stable_argsort ex_fleet
              general_purpose "No preference" moderate "quick" None None
              ex_view ex_fleet_view) as (H1 & H2 & _).
  split; assumption.
Defined.

(** ** The comparison table *)

Lemma mapA_match_score (l : list Scored) :
  mapA (fun s => z <-- match_score (composite_score s) ;; Done (s, Some z)) l
  = if forallb scored_known l then Done (map table_entry l)
    else Fails ValueError.
Proof.
  induction l as [|s l IH]; [reflexivity|].
  simpl. unfold scored_known at 1, table_entry at 1.
  destruct (composite_score s) as [c|]; simpl; [|reflexivity].
  rewrite IH. destruct (forallb scored_known l); reflexivity.
Qed.

Lemma comparison_table_eq (ranked : Frame Scored) :
  col_in "composite_score" ranked = true ->
  comparison_table ranked
  = if forallb scored_known (firstn 10 (rows ranked))
    then Done (map table_entry (firstn 10 (rows ranked)))
    else Fails ValueError.
Proof.
  intros H. unfold comparison_table. rewrite H. apply mapA_match_score.
Qed.

Lemma In_firstn {A : Type} (n : nat) (l : list A) (a : A) :
  In a (firstn n l) -> In a l.
Proof.
  revert l. induction n as [|n IH]; intros [|b l]; simpl; try tauto.
  intros [H|H]; auto.
Qed.

(** X13. Whenever [display_recommendations] renders, the rows of the
    comparison table are the first ten rows of the ranking in that order, each
    with a defined composite score; its match score is an integer within one
    half of the score times 100, between 0 and 110, and at most 100 unless the
    profile says "Prefer CAFV eligible". *)
Theorem comparison_table_lists_ten_best :
  forall (argsort : list Q -> list nat) (df : Frame Vehicle)
         (use_case budget range_need method : string)
         (priorities : option (string * string * string))
         (cafv_pref : option string) (view : View),
    display_recommendations_view argsort df use_case budget range_need
                                 method priorities cafv_pref
    = Done (Some view) ->
    map fst (view_table view) = firstn 10 (rows (view_ranked view)) /\
    forall s z, In (s, z) (view_table view) ->
      exists (c : Q) (percent : Z),
        composite_score s = Some c /\ z = Some percent /\
        (inject_Z percent - 0.5 <= c * 100 <= inject_Z percent + 0.5)%Q /\
        (0 <= percent <= 110)%Z /\
        (opt_eqb cafv_pref "Prefer CAFV eligible" = false ->
         (percent <= 100)%Z).
Proof.
  intros argsort df use_case budget range_need method priorities cafv_pref
         view H.
  pose proof (view_ranked_agrees _ _ _ _ _ _ _ _ H) as Hranked.
  apply view_inv in H.
  destruct H as (w & _ & Hw & Hr & _ & _ & _ & _ & Htable).
  rewrite comparison_table_eq in Htable
    by (rewrite Hr; apply col_in_ranked_composite).
  destruct (forallb scored_known (firstn 10 (rows (view_ranked view))))
    eqn:Hall; [|discriminate].
  assert (Ht : map table_entry (firstn 10 (rows (view_ranked view)))
               = view_table view) by congruence.
  clear Htable.
  split.
  - rewrite <- Ht, map_map. exact (map_id _).
  - intros s z Hin. rewrite <- Ht in Hin. apply in_map_iff in Hin.
    destruct Hin as (s' & Heq & Hs'). unfold table_entry in Heq.
    injection Heq as -> <-.
    rewrite forallb_forall in Hall. pose proof (Hall _ Hs') as Hk.
    unfold scored_known in Hk.
    destruct (composite_score s) as [c|] eqn:Hc; [|discriminate].
    simpl.
    destruct (@ranked_composite_bounds argsort df use_case budget range_need
                method priorities cafv_pref (view_ranked view) s c Hranked
                (In_firstn _ _ _ Hs') Hc) as [[Hc0 Hc1] Hpref].
    exists c, (round_half_even (c * 100)). split; [reflexivity|].
    split; [reflexivity|]. split; [apply round_half_even_near|]. split.
    + apply round_half_even_between.
      change (inject_Z 0) with 0%Q. change (inject_Z 110) with 110%Q. lra.
    + intros Hp. specialize (Hpref Hp).
      apply (@round_half_even_between (c * 100) 0 100).
      change (inject_Z 0) with 0%Q. change (inject_Z 100) with 100%Q. lra.
Qed.

(** The comparison table of the sample fleet. *)
Lemma comparison_table_lists_ten_best_witness :
  map fst (view_table ex_view) = firstn 10 (rows (view_ranked ex_view)).
Proof.
  exact (proj1 (@comparison_table_lists_ten_best stable_argsort ex_fleet
                  general_purpose "No preference" moderate "quick" None None
                  ex_view ex_fleet_view)).
Defined.

Lemma firstn_all_short {A : Type} (n : nat) (l : list A) :
  (List.length l <= n)%nat -> firstn n l = l.
Proof. intros H. now apply firstn_all2. Qed.

Lemma view_fails_on_unknown_score (argsort : list Q -> list nat)
  (df : Frame Vehicle) (use_case budget range_need method : string)
  (priorities : option (string * string * string))
  (cafv_pref : option string) (ranked : Frame Scored) (s : Scored) :
  display_recommendations_ranked argsort df use_case budget range_need
                                 method priorities cafv_pref
  = Ok (Some ranked) ->
  In s (firstn 10 (rows ranked)) ->
  composite_score s = NaN ->
  exists e,
    display_recommendations_view argsort df use_case budget range_need
                                 method priorities cafv_pref = Fails e.
Proof.
  intros H Hs Hnan.
  destruct (display_recommendations_view argsort df use_case budget
              range_need method priorities cafv_pref) as [[view|]|e] eqn:E.
  - exfalso.
    pose proof (view_ranked_agrees _ _ _ _ _ _ _ _ E) as Hranked.
    rewrite H in Hranked. injection Hranked as ->.
    apply view_inv in E.
    destruct E as (w & _ & _ & Hr & _ & _ & _ & _ & Htable).
    rewrite comparison_table_eq in Htable
      by (rewrite Hr; apply col_in_ranked_composite).
    destruct (forallb scored_known (firstn 10 (rows (view_ranked view))))
      eqn:Hall; [|discriminate].
    rewrite forallb_forall in Hall. specialize (Hall s Hs).
    unfold scored_known in Hall. rewrite Hnan in Hall. discriminate.
  - exfalso. apply ranked_inv in H. destruct H as (w & He & Hw & _).
    unfold display_recommendations_view in E. rewrite He, Hw in E.
    simpl in E.
    destruct (iloc0 _); simpl in E; [|discriminate].
    destruct (top_card _ _); simpl in E; [|discriminate].
    destruct (why_this_match _ _ _); simpl in E; [|discriminate].
    destruct (get_diverse_alternatives _ _); simpl in E; [|discriminate].
    destruct (comparison_table _); simpl in E; discriminate.
  - eauto.
Qed.

(** X14. A missing cell among the ten best breaks the page: when a normalised
    column holds two distinct known values and a candidate whose own cell is
    missing is among the first ten rows of the ranking (in particular when
    there are at most ten candidates), [display_recommendations] raises, the
    latest when the comparison table converts the undefined composite score to
    an integer. *)
Theorem missing_cell_among_ten_fails :
  forall (argsort : list Q -> list nat),
    argsort_sorts argsort ->
    forall (df : Frame Vehicle) (use_case budget range_need method : string)
           (priorities : option (string * string * string))
           (cafv_pref : option string) (ranked : Frame Scored) (f : field),
      display_recommendations_ranked argsort df use_case budget range_need
                                     method priorities cafv_pref
      = Ok (Some ranked) ->
      col_in (field_name f) df = true ->
      two_distinct (map (field_cell f) (rows df)) ->
      ((exists s, In s (firstn 10 (rows ranked)) /\
                  field_cell f (vehicle s) = NaN) \/
       ((List.length (rows df) <= 10)%nat /\
        exists v, In v (rows df) /\ field_cell f v = NaN)) ->
      exists e,
        display_recommendations_view argsort df use_case budget range_need
                                     method priorities cafv_pref = Fails e.
Proof.
  intros argsort Hsorts df use_case budget range_need method priorities
         cafv_pref ranked f H Hcol Hspread Hmissing.
  destruct (@ranked_descending argsort df use_case budget range_need method
              priorities cafv_pref ranked Hsorts H)
    as (w & _ & Hperm & _).
  assert (Hnan : forall s, In s (rows ranked) ->
                           field_cell f (vehicle s) = NaN ->
                           composite_score s = NaN).
  { intros s Hs Hcell.
    apply (Permutation_in _ Hperm), In_score_frame in Hs.
    destruct Hs as (v & _ & ->).
    destruct (norm_column_spread Hspread) as (m & M & _ & _ & Hnorm).
    destruct f; simpl in *; rewrite Hcol, Hnorm, Hcell; simpl;
      apply composite_nan; auto. }
  assert (Hs : exists s, In s (firstn 10 (rows ranked)) /\
                         field_cell f (vehicle s) = NaN).
  { destruct Hmissing as [Hs|(Hlen & v & Hv & Hcell)]; [exact Hs|].
    exists (set_composite w (component_row df cafv_pref v)).
    split; [|exact Hcell].
    rewrite firstn_all_short.
    - apply (Permutation_in _ (Permutation_sym Hperm)), In_score_frame. eauto.
    - rewrite (Permutation_length Hperm), score_frame_length. exact Hlen. }
  destruct Hs as (s & Hs & Hcell).
  exact (@view_fails_on_unknown_score argsort df use_case budget range_need
           method priorities cafv_pref ranked s H Hs
           (Hnan s (In_firstn _ _ _ Hs) Hcell)).
Qed.

(** The three sample registrations of which one has no known range. *)
Lemma missing_cell_among_ten_fails_witness :
  exists e,
    display_recommendations_view stable_argsort ex_gap general_purpose
      "No preference" moderate "quick" None None = Fails e.
Proof.
  apply (@missing_cell_among_ten_fails stable_argsort stable_argsort_sorts
           ex_gap general_purpose "No preference" moderate "quick" None None
           ex_ranked_gap f_range).
  - vm_compute; reflexivity.
  - vm_compute; reflexivity.
  - exists 150%Q, 250%Q. split; [right; left; reflexivity|].
    split; [right; right; left; reflexivity|]. intro H. discriminate H.
  - right. split.
    + simpl. repeat constructor.
    + eexists. split; [left; reflexivity|reflexivity].
Defined.

(** ** The test for CAFV eligibility *)

Lemma lower_append (a b : string) :
  lower (String.append a b) = String.append (lower a) (lower b).
Proof. induction a as [|c a IH]; simpl; [reflexivity|now rewrite IH]. Qed.

Lemma prefix_append (p s : string) : String.prefix p (String.append p s) = true.
Proof.
  induction p as [|c p IH]; simpl; [now destruct s|].
  destruct (ascii_dec c c); [exact IH|congruence].
Qed.

Lemma contains_unfold (p s : string) :
  contains p s
  = if String.prefix p s then true
    else match s with
         | EmptyString => false
         | String _ t => contains p t
         end.
Proof. destruct s; reflexivity. Qed.

Lemma contains_append (p a b : string) :
  contains p (String.append a (String.append p b)) = true.
Proof.
  induction a as [|c a IH].
  - simpl String.append. rewrite contains_unfold, prefix_append. reflexivity.
  - simpl String.append. rewrite contains_unfold.
    destruct (String.prefix p _); [reflexivity|exact IH].
Qed.

(** X15. The test for CAFV eligibility looks for the letters "eligible" only:
    a status that contains the word in any letter case, whatever precedes or
    follows it ("Not eligible due to low battery range" included), passes the
    filter "Must be CAFV eligible" and, with the column present, earns the
    full bonus of 0.1. *)
Theorem cafv_test_ignores_context :
  forall (df : Frame Vehicle) (v : Vehicle) (before word after : string),
    lower word = "eligible" ->
    CAFV_Eligibility v = Some (String.append before (String.append word after)) ->
    cafv_mask v = true /\
    (In v (rows df) -> In v (rows (select cafv_mask df))) /\
    (col_in c_CAFV df = true ->
     cafv_column df (Some "Prefer CAFV eligible") v = Some 0.1%Q).
Proof.
  intros df v before word after Hword Hstatus.
  assert (Hmask : cafv_mask v = true).
  { unfold cafv_mask, str_contains_nocase. rewrite Hstatus.
    rewrite !lower_append, Hword.
    change (lower "eligible") with "eligible". apply contains_append. }
  split; [exact Hmask|]. split.
  - intros Hv. simpl. apply filter_In. now split.
  - intros Hcol. unfold cafv_column. rewrite Hcol.
    unfold cafv_mask in Hmask. simpl. rewrite Hmask. reflexivity.
Qed.

(** A registration that is not eligible passes the test and earns the bonus. *)
Lemma cafv_test_ignores_context_witness :
  cafv_mask ex_not_eligible = true /\
  cafv_column (mkFrame all_columns [ex_not_eligible])
              (Some "Prefer CAFV eligible") ex_not_eligible = Some 0.1%Q.
Proof.
  destruct (@cafv_test_ignores_context (mkFrame all_columns [ex_not_eligible])
              ex_not_eligible "Not " "eligible" " due to low battery range")
    as (Hmask & _ & Hbonus).
  - reflexivity.
  - reflexivity.
  - split; [exact Hmask|]. apply Hbonus. vm_compute; reflexivity.
Defined.

(** ** The slider for the minimum model year *)

Lemma trunc_inject_Z (z : Z) : trunc (inject_Z z) = z.
Proof. unfold trunc. simpl. apply Z.quot_1_r. Qed.

Lemma dropna_nil (col : list cell) :
  (forall c, In c col -> c = NaN) -> dropna col = [].
Proof.
  induction col as [|[x|] t IH]; intros H; simpl.
  - reflexivity.
  - discriminate (H (Some x) (or_introl eq_refl)).
  - apply IH. intros c Hc. apply H. now right.
Qed.

Lemma series_min_known (col : list cell) (y : Q) :
  In (Some y) col ->
  exists m, series_min col = Some m /\ In (Some m) col /\
            forall x, In (Some x) col -> (m <= x)%Q.
Proof.
  intros Hy. unfold series_min.
  assert (Hne : dropna col <> []).
  { intro E. apply In_dropna in Hy. rewrite E in Hy. destruct Hy. }
  destruct (values_min_spec Hne) as (m & Hm & Hin & Hle).
  exists m. split; [exact Hm|]. split; [now apply In_dropna|].
  intros x Hx. apply Hle. now apply In_dropna.
Qed.

Lemma series_max_known (col : list cell) (y : Q) :
  In (Some y) col ->
  exists m, series_max col = Some m /\ In (Some m) col /\
            forall x, In (Some x) col -> (x <= m)%Q.
Proof.
  intros Hy. unfold series_max.
  assert (Hne : dropna col <> []).
  { intro E. apply In_dropna in Hy. rewrite E in Hy. destruct Hy. }
  destruct (values_max_spec Hne) as (m & Hm & Hin & Hle).
  exists m. split; [exact Hm|]. split; [now apply In_dropna|].
  intros x Hx. apply Hle. now apply In_dropna.
Qed.

Lemma series_min_unknown (col : list cell) :
  (forall c, In c col -> c = NaN) -> series_min col = NaN.
Proof. intros H. unfold series_min. now rewrite dropna_nil. Qed.

(** The two ends of the model-year column of a frame with whole years. *)
Lemma year_ends (df : Frame Vehicle) (v0 : Vehicle) (y0 : Q) :
  whole_years df -> In v0 (rows df) -> Model_Year v0 = Some y0 ->
  exists lo hi : Z,
    series_min (map Model_Year (rows df)) = Some (inject_Z lo) /\
    series_max (map Model_Year (rows df)) = Some (inject_Z hi) /\
    (exists v, In v (rows df) /\ Model_Year v = Some (inject_Z lo)) /\
    (exists v, In v (rows df) /\ Model_Year v = Some (inject_Z hi)) /\
    (forall v y, In v (rows df) -> Model_Year v = Some y ->
                 (inject_Z lo <= y <= inject_Z hi)%Q).
Proof.
  intros Hwhole Hv0 Hy0.
  assert (Hin : In (Some y0) (map Model_Year (rows df)))
    by (rewrite <- Hy0; now apply in_map).
  destruct (@series_min_known _ _ Hin) as (m & Hm & Hmin & Hlo).
  destruct (@series_max_known _ _ Hin) as (M & HM & Hmax & Hhi).
  apply in_map_iff in Hmin. destruct Hmin as (vm & Hvm & Hinm).
  apply in_map_iff in Hmax. destruct Hmax as (vM & HvM & HinM).
  destruct (Hwhole vm m Hinm Hvm) as (lo & ->).
  destruct (Hwhole vM M HinM HvM) as (hi & ->).
  exists lo, hi. repeat split; eauto.
  - apply Hlo. rewrite <- H0. now apply in_map.
  - apply Hhi. rewrite <- H0. now apply in_map.
Qed.

(** X16. On a frame with a model-year column, the slider for the minimum model
    year cannot be built when no model year is known (an empty frame
    included): the conversion of the missing minimum raises ValueError. When
    the years are whole numbers and one is known, the arguments computed for
    the slider are sound: every known year lies between the two bounds, the
    default lies between them and at most 3 below the upper one, and some
    vehicle passes the year filter at the default. *)
Theorem year_slider_bounds :
  forall (df_filtered : Frame Vehicle),
    col_in c_Model_Year df_filtered = true ->
    ((forall v, In v (rows df_filtered) -> Model_Year v = NaN) ->
     year_slider df_filtered = Fails ValueError) /\
    (whole_years df_filtered ->
     (exists v y, In v (rows df_filtered) /\ Model_Year v = Some y) ->
     exists year_min year_max default : Z,
       year_slider df_filtered = Done (Some (year_min, year_max, default)) /\
       (year_min <= default <= year_max)%Z /\
       (year_max - 3 <= default)%Z /\
       (forall v y, In v (rows df_filtered) -> Model_Year v = Some y ->
                    (inject_Z year_min <= y <= inject_Z year_max)%Q) /\
       (exists v, In v (rows df_filtered) /\ year_mask default v = true)).
Proof.
  intros df Hcol. unfold year_slider. rewrite Hcol. split.
  - intros Hnan. rewrite series_min_unknown; [reflexivity|].
    intros c Hc. apply in_map_iff in Hc. destruct Hc as (v & <- & Hv).
    now apply Hnan.
  - intros Hwhole (v0 & y0 & Hv0 & Hy0).
    destruct (@year_ends df v0 y0 Hwhole Hv0 Hy0)
      as (lo & hi & -> & -> & _ & (vM & HvM & HyM) & Hbounds).
    simpl. rewrite !trunc_inject_Z.
    assert (Hlohi : (lo <= hi)%Z).
    { destruct (Hbounds vM _ HvM HyM) as [H _]. now rewrite <- Zle_Qle in H. }
    exists lo, hi, (Z.max lo (hi - 3)).
    split; [reflexivity|]. split; [lia|]. split; [lia|].
    split; [exact Hbounds|].
    exists vM. split; [exact HvM|]. unfold year_mask. rewrite HyM.
    apply Qle_bool_iff. rewrite <- Zle_Qle. lia.
Qed.

(** The slider of the sample fleet. *)
Lemma year_slider_bounds_witness :
  exists year_min year_max default : Z,
    year_slider ex_fleet = Done (Some (year_min, year_max, default)) /\
    (year_min <= default <= year_max)%Z.
Proof.
  destruct (@year_slider_bounds ex_fleet) as (_ & Hdone).
  - vm_compute; reflexivity.
  - destruct (Hdone ex_fleet_whole_years) as (lo & hi & d & H & Hb & _).
    + exists (veh 0 "TESLA" 300 40000 2022), 2022%Q.
      split; [left; reflexivity|reflexivity].
    + exists lo, hi, d. split; assumption.
Defined.

(** ** When [display_recommendations] renders everything *)

Lemma scored_all_known (df : Frame Vehicle) (cafv_pref : option string)
  (weights : Weights) (s : Scored) :
  (forall v, In v (rows df) -> complete v) ->
  In s (rows (score_frame df cafv_pref weights)) ->
  exists c, composite_score s = Some c.
Proof.
  intros Hcomplete Hs.
  apply In_score_frame in Hs. destruct Hs as (v & Hv & ->).
  destruct (Hcomplete v Hv) as (p & r & y & Hp & Hr & Hy). simpl.
  rewrite Hp, Hr, Hy.
  destruct (norm_column_known (col_in c_Base_MSRP df)
              (map Base_MSRP (rows df)) p) as (qp & ->).
  destruct (norm_column_known (col_in c_Electric_Range df)
              (map Electric_Range (rows df)) r) as (qr & ->).
  destruct (norm_column_known (col_in c_Model_Year df)
              (map Model_Year (rows df)) y) as (qy & ->).
  destruct (@value_column_known df v r p Hr Hp) as (qv & ->).
  destruct (cafv_column_values df cafv_pref v) as (b & -> & _).
  apply composite_defined.
Qed.

Lemma why_this_match_done (weights : Weights) (ranked : Frame Scored)
  (top_vehicle : Scored) :
  complete (vehicle top_vehicle) ->
  exists reasons, why_this_match weights ranked top_vehicle = Done reasons.
Proof.
  intros (p & r & y & Hp & Hr & Hy).
  unfold why_this_match, get_cell_default. rewrite Hp, Hr, Hy.
  destruct (Qlt_b 0.35 (w_price weights)), (Qlt_b 0.35 (w_range weights)),
    (Qlt_b 0.20 (w_newness weights)),
    (col_in c_Base_MSRP ranked), (col_in c_Electric_Range ranked),
    (col_in c_Model_Year ranked); simpl; eauto.
Qed.

Lemma view_done (argsort : list Q -> list nat) (df : Frame Vehicle)
  (use_case budget range_need method : string)
  (priorities : option (string * string * string))
  (cafv_pref : option string) (weights : Weights) :
  argsort_sorts argsort ->
  empty df = false ->
  select_weights use_case method priorities = Ok weights ->
  col_in c_Make df = true ->
  col_in c_Base_MSRP df = true ->
  (forall v, In v (rows df) -> complete v) ->
  exists view,
    display_recommendations_view argsort df use_case budget range_need
                                 method priorities cafv_pref
    = Done (Some view).
Proof.
  intros Hsorts He Hw Hmake Hmsrp Hcomplete.
  destruct (@ranked_nonempty argsort df cafv_pref weights Hsorts He)
    as (top & Htop & v & Hv & Heq).
  assert (Htopc : complete (vehicle top))
    by (subst top; simpl; now apply Hcomplete).
  unfold display_recommendations_view. rewrite He, Hw. simpl.
  fold (score_frame df cafv_pref weights). rewrite Htop. simpl.
  set (ranked := sort_values_desc argsort composite_score
                   (score_frame df cafv_pref weights)) in *.
  rewrite top_card_price.
  unfold ranked at 1.
  rewrite (@col_in_ranked argsort df cafv_pref weights c_Base_MSRP
             In_c_Base_MSRP), Hmsrp.
  destruct Htopc as (p & r & y & Hp & Hr & Hy). rewrite Hp. simpl.
  destruct (@why_this_match_done weights ranked top) as (reasons & ->);
    [exists p, r, y; auto|].
  simpl.
  destruct (@alternatives_with_make ranked top) as (alts & -> & _).
  { unfold ranked. rewrite col_in_ranked by (simpl; tauto). exact Hmake. }
  simpl.
  rewrite comparison_table_eq by apply col_in_ranked_composite.
  assert (Hall : forallb scored_known (firstn 10 (rows ranked)) = true).
  { apply forallb_forall. intros s Hs. apply In_firstn in Hs.
    unfold ranked in Hs. simpl in Hs. apply take_In in Hs.
    destruct (@scored_all_known df cafv_pref weights s Hcomplete Hs)
      as (c & Hc).
    unfold scored_known. now rewrite Hc. }
  rewrite Hall. simpl. eauto.
Qed.

(** X17. [display_recommendations] does render complete data: with a sort
    kernel that sorts, on a non-empty frame with Make and MSRP columns and
    non-negative MSRP in which every vehicle has a known MSRP, range and model
    year, it returns a view; its ranking is the ranking of the scorer, its top
    match the first row, and its table has as many rows as there are
    candidates, up to ten. *)
Theorem complete_data_is_rendered :
  forall (argsort : list Q -> list nat),
    argsort_sorts argsort ->
    forall (df : Frame Vehicle) (use_case budget range_need method : string)
           (priorities : option (string * string * string))
           (cafv_pref : option string) (ranked : Frame Scored),
      display_recommendations_ranked argsort df use_case budget range_need
                                     method priorities cafv_pref
      = Ok (Some ranked) ->
      col_in c_Make df = true ->
      col_in c_Base_MSRP df = true ->
      msrp_nonneg df ->
      (forall v, In v (rows df) -> complete v) ->
      exists view,
        display_recommendations_view argsort df use_case budget range_need
                                     method priorities cafv_pref
        = Done (Some view) /\
        view_ranked view = ranked /\
        iloc0 ranked = Some (view_top view) /\
        (List.length (view_table view)
         = Nat.min 10 (List.length (rows df)))%nat.
Proof.
  intros argsort Hsorts df use_case budget range_need method priorities
         cafv_pref ranked H Hmake Hmsrp _ Hcomplete.
  pose proof (ranked_inv _ _ _ _ _ _ _ _ H) as (w & He & Hw & Hr).
  destruct (@view_done argsort df use_case budget range_need method
              priorities cafv_pref w Hsorts He Hw Hmake Hmsrp Hcomplete)
    as (view & Hview).
  exists view. split; [exact Hview|].
  pose proof (view_ranked_agrees _ _ _ _ _ _ _ _ Hview) as Hagree.
  rewrite H in Hagree. injection Hagree as Hagree.
  apply view_inv in Hview.
  destruct Hview as (w' & _ & _ & _ & Htop & _ & _ & _ & Htable).
  split; [now symmetry|]. split; [now rewrite Hagree|].
  rewrite comparison_table_eq in Htable
    by (rewrite <- Hagree, Hr; apply col_in_ranked_composite).
  destruct (forallb scored_known (firstn 10 (rows (view_ranked view))));
    [|discriminate].
  assert (Ht : map table_entry (firstn 10 (rows (view_ranked view)))
               = view_table view) by congruence.
  rewrite <- Ht, length_map, length_firstn, <- Hagree. f_equal.
  rewrite Hr.
  rewrite (Permutation_length
             (sort_values_desc_Permutation Hsorts composite_score
                (score_frame df cafv_pref w))).
  apply score_frame_length.
Qed.

(** The sample fleet is rendered. *)
Lemma complete_data_is_rendered_witness :
  exists view,
    display_recommendations_view stable_argsort ex_fleet general_purpose
      "No preference" moderate "quick" None None = Done (Some view) /\
    view_ranked view = ex_ranked.
Proof.
  destruct (@complete_data_is_rendered stable_argsort stable_argsort_sorts
              ex_fleet general_purpose "No preference" moderate "quick" None
              None ex_ranked ex_fleet_ranked)
    as (view & Hview & Hr & _).
  - vm_compute; reflexivity.
  - vm_compute; reflexivity.
  - exact ex_fleet_msrp_nonneg.
  - exact ex_fleet_complete.
  - exists view. split; assumption.
Defined.

(** ** [apply_filters] *)

Lemma year_between_true (lo hi : Z) (v : Vehicle) :
  year_between lo hi v = true <->
  exists y, Model_Year v = Some y /\ (inject_Z lo <= y <= inject_Z hi)%Q.
Proof.
  unfold year_between. destruct (Model_Year v) as [y|].
  - rewrite andb_true_iff, !Qle_bool_iff. split.
    + intros H. exists y. now split.
    + intros (y' & E & H). injection E as <-. exact H.
  - split; [discriminate|]. intros (y & E & _). discriminate.
Qed.

Lemma make_is_true (manufacturer : string) (v : Vehicle) :
  make_is manufacturer v = true <-> Make v = Some manufacturer.
Proof. unfold make_is. apply opt_string_eqb_eq. Qed.

Lemma apply_filters_inv (ev_df : Frame Vehicle) (manufacturer : string)
  (year_range : option (Z * Z)) (filtered : Frame Vehicle) :
  apply_filters ev_df manufacturer year_range = Done filtered ->
  col_in c_Make ev_df = true /\
  columns filtered = columns ev_df /\
  forall v, In v (rows filtered) <->
    In v (rows ev_df) /\
    (manufacturer <> "All" -> Make v = Some manufacturer) /\
    (col_in c_Model_Year ev_df = true ->
     exists (year_min year_max : Q) (y : Q),
       series_min (map Model_Year (rows ev_df)) = Some year_min /\
       series_max (map Model_Year (rows ev_df)) = Some year_max /\
       Model_Year v = Some y /\
       (inject_Z (fst (match year_range with
                       | Some r => r
                       | None => (trunc year_min, trunc year_max)
                       end)) <= y
        <= inject_Z (snd (match year_range with
                          | Some r => r
                          | None => (trunc year_min, trunc year_max)
                          end)))%Q).
Proof.
  unfold apply_filters.
  destruct (col_in c_Make ev_df); [|discriminate]. simpl.
  assert (Hbase : forall v,
    In v (rows (if negb (String.eqb manufacturer "All")
                then select (make_is manufacturer) ev_df else ev_df)) <->
    In v (rows ev_df) /\ (manufacturer <> "All" -> Make v = Some manufacturer)).
  { intros v. destruct (String.eqb manufacturer "All") eqn:E; simpl.
    - apply String.eqb_eq in E. split; [intros H; split; tauto|tauto].
    - apply String.eqb_neq in E. rewrite filter_In, make_is_true. tauto. }
  assert (Hcols :
    columns (if negb (String.eqb manufacturer "All")
             then select (make_is manufacturer) ev_df else ev_df)
    = columns ev_df)
    by (destruct (negb (String.eqb manufacturer "All")); reflexivity).
  destruct (col_in c_Model_Year ev_df).
  - destruct (series_min (map Model_Year (rows ev_df))) as [m|];
      [|discriminate].
    destruct (series_max (map Model_Year (rows ev_df))) as [M|];
      [|discriminate].
    simpl.
    destruct (match year_range with
              | Some r => r
              | None => (trunc m, trunc M)
              end) as [lo hi] eqn:Er.
    intros H. injection H as <-. split; [reflexivity|].
    split; [exact Hcols|].
    intros v. simpl. rewrite filter_In, Hbase, year_between_true.
    split.
    + intros ((Hin & Hm) & y & Hy & Hb). split; [exact Hin|].
      split; [exact Hm|]. intros _. exists m, M, y. rewrite Er. simpl.
      repeat split; auto; apply Hb.
    + intros (Hin & Hm & Hyear).
      destruct (Hyear eq_refl) as (m' & M' & y & E1 & E2 & Hy & Hb).
      injection E1 as <-. injection E2 as <-. rewrite Er in Hb.
      split; [tauto|]. exists y. split; [exact Hy|exact Hb].
  - intros H. injection H as <-. split; [reflexivity|].
    split; [exact Hcols|].
    intros v. rewrite Hbase. split.
    + intros (Hin & Hm). split; [exact Hin|]. split; [exact Hm|discriminate].
    + tauto.
Qed.

(** X18. [apply_filters] raises KeyError on a frame without a Make column and
    ValueError on a frame whose model-year column holds no known year. What it
    returns has the columns of the input and only vehicles of the input; each
    is of the chosen manufacturer unless the choice is "All", and, when the
    frame has a model-year column, has a known model year within the chosen
    range. *)
Theorem apply_filters_selection :
  forall (ev_df : Frame Vehicle) (manufacturer : string)
         (year_range : option (Z * Z)),
    (col_in c_Make ev_df = false ->
     apply_filters ev_df manufacturer year_range
     = Fails (Exn (KeyError c_Make))) /\
    (col_in c_Make ev_df = true -> col_in c_Model_Year ev_df = true ->
     (forall v, In v (rows ev_df) -> Model_Year v = NaN) ->
     apply_filters ev_df manufacturer year_range = Fails ValueError) /\
    (forall filtered,
       apply_filters ev_df manufacturer year_range = Done filtered ->
       columns filtered = columns ev_df /\
       forall v, In v (rows filtered) ->
         In v (rows ev_df) /\
         (manufacturer <> "All" -> Make v = Some manufacturer) /\
         (col_in c_Model_Year ev_df = true ->
          exists y, Model_Year v = Some y /\
                    forall lo hi, year_range = Some (lo, hi) ->
                                  (inject_Z lo <= y <= inject_Z hi)%Q)).
Proof.
  intros ev_df manufacturer year_range. split; [|split].
  - intros H. unfold apply_filters. now rewrite H.
  - intros Hmake Hyear Hnan. unfold apply_filters. rewrite Hmake, Hyear.
    simpl. rewrite series_min_unknown; [reflexivity|].
    intros c Hc. apply in_map_iff in Hc. destruct Hc as (v & <- & Hv).
    now apply Hnan.
  - intros filtered H. apply apply_filters_inv in H.
    destruct H as (_ & Hcols & Hrows). split; [exact Hcols|].
    intros v Hv. apply Hrows in Hv. destruct Hv as (Hin & Hm & Hyear).
    split; [exact Hin|]. split; [exact Hm|].
    intros Hcol. destruct (Hyear Hcol) as (m & M & y & _ & _ & Hy & Hb).
    exists y. split; [exact Hy|]. intros lo hi ->. exact Hb.
Qed.

(** The sample fleet without its Make column. *)
Lemma apply_filters_selection_witness :
  apply_filters ex_no_make "All" None = Fails (Exn (KeyError c_Make)).
Proof.
  refine (proj1 (@apply_filters_selection ex_no_make "All" None) _).
  vm_compute; reflexivity.
Defined.

(** X19. With the sidebar left at its defaults (all manufacturers, the full
    year range), [apply_filters] on a frame of whole model years with Make and
    model-year columns returns exactly the vehicles whose model year is known:
    a registration without a model year is dropped although nothing was
    chosen. *)
Theorem apply_filters_default_drops_unknown_years :
  forall (ev_df : Frame Vehicle),
    whole_years ev_df ->
    col_in c_Make ev_df = true ->
    col_in c_Model_Year ev_df = true ->
    (exists v y, In v (rows ev_df) /\ Model_Year v = Some y) ->
    exists filtered,
      apply_filters ev_df "All" None = Done filtered /\
      forall v, In v (rows filtered) <->
                In v (rows ev_df) /\ Model_Year v <> NaN.
Proof.
  intros ev_df Hwhole Hmake Hyear (v0 & y0 & Hv0 & Hy0).
  destruct (@year_ends ev_df v0 y0 Hwhole Hv0 Hy0)
    as (lo & hi & Hmin & Hmax & _ & _ & Hbounds).
  destruct (apply_filters ev_df "All" None) as [filtered|e] eqn:E.
  - exists filtered. split; [reflexivity|].
    apply apply_filters_inv in E. destruct E as (_ & _ & Hrows).
    intros v. rewrite Hrows. split.
    + intros (Hin & _ & Hy). split; [exact Hin|].
      destruct (Hy Hyear) as (_ & _ & y & _ & _ & -> & _). discriminate.
    + intros (Hin & Hknown). split; [exact Hin|].
      split; [intros Hne; exfalso; now apply Hne|].
      intros _. destruct (Model_Year v) as [y|] eqn:Hy;
        [|now contradiction Hknown].
      exists (inject_Z lo), (inject_Z hi), y.
      split; [exact Hmin|]. split; [exact Hmax|]. split; [reflexivity|].
      simpl. rewrite !trunc_inject_Z. exact (Hbounds v y Hin Hy).
  - exfalso. unfold apply_filters in E. rewrite Hmake, Hyear, Hmin, Hmax in E.
    simpl in E. discriminate.
Qed.

(** The sample fleet under the default choices. *)
Lemma apply_filters_default_drops_unknown_years_witness :
  exists filtered,
    apply_filters ex_fleet "All" None = Done filtered /\
    forall v, In v (rows filtered) <->
              In v (rows ex_fleet) /\ Model_Year v <> NaN.
Proof.
  apply (@apply_filters_default_drops_unknown_years ex_fleet
           ex_fleet_whole_years).
  - vm_compute; reflexivity.
  - vm_compute; reflexivity.
  - exists (veh 0 "TESLA" 300 40000 2022), 2022%Q.
    split; [left; reflexivity|reflexivity].
Defined.

(** The year slider on what [apply_filters] returns. *)
Lemma year_slider_after_filters :
  forall (ev_df : Frame Vehicle) (manufacturer : string)
         (year_range : option (Z * Z)) (filtered : Frame Vehicle),
    apply_filters ev_df manufacturer year_range = Done filtered ->
    col_in c_Model_Year ev_df = true ->
    (year_slider filtered = Fails ValueError <-> rows filtered = []) /\
    (rows filtered <> [] ->
     exists year_min year_max default,
       year_slider filtered = Done (Some (year_min, year_max, default))).
Proof.
  intros ev_df manufacturer year_range filtered H Hyear.
  apply apply_filters_inv in H. destruct H as (_ & Hcols & Hrows).
  assert (Hcol : col_in c_Model_Year filtered = true)
    by (unfold col_in in *; now rewrite Hcols).
  assert (Hdone : rows filtered <> [] ->
            exists year_min year_max default,
              year_slider filtered
              = Done (Some (year_min, year_max, default))).
  { intros Hne. destruct (rows filtered) as [|v t] eqn:E; [congruence|].
    assert (Hv : In v (v :: t)) by now left.
    pose proof Hv as Hv'. apply Hrows in Hv'.
    destruct Hv' as (_ & _ & Hy).
    destruct (Hy Hyear) as (_ & _ & y & _ & _ & Hvy & _).
    assert (Hin : In (Some y) (map Model_Year (v :: t)))
      by (rewrite <- Hvy; now apply in_map).
    destruct (@series_min_known _ _ Hin) as (m & Hm & _).
    destruct (@series_max_known _ _ Hin) as (M & HM & _).
    unfold year_slider. rewrite Hcol, E, Hm, HM. simpl. eauto. }
  split; [split|exact Hdone].
  - intros Hfail. destruct (rows filtered) as [|v t] eqn:E; [reflexivity|].
    destruct Hdone as (a & b & c & Hd); [discriminate|].
    rewrite Hd in Hfail. discriminate.
  - intros Hnil. unfold year_slider. rewrite Hcol, Hnil. reflexivity.
Qed.

(** X20. A sidebar selection that leaves no vehicle breaks the advisor: for
    what [apply_filters] returns on a frame with a model-year column, the year
    slider of the detailed form raises ValueError exactly when the selection
    is empty; otherwise its bounds and default are computed. *)
Theorem empty_selection_breaks_year_slider :
  forall (ev_df : Frame Vehicle) (manufacturer : string)
         (year_range : option (Z * Z)) (filtered : Frame Vehicle),
    apply_filters ev_df manufacturer year_range = Done filtered ->
    col_in c_Model_Year ev_df = true ->
    (year_slider filtered = Fails ValueError <-> rows filtered = []) /\
    (rows filtered <> [] ->
     exists year_min year_max default,
       year_slider filtered = Done (Some (year_min, year_max, default))).
Proof.
  intros ev_df manufacturer year_range filtered H Hyear.
  exact (@year_slider_after_filters ev_df manufacturer year_range filtered
           H Hyear).
Qed.

(** No Tesla of the sample fleet is of 2019 or 2020: the selection is empty
    and the slider raises. *)
Lemma empty_selection_breaks_year_slider_witness :
  apply_filters ex_fleet "TESLA" (Some (2019, 2020)%Z)
  = Done (mkFrame all_columns []) /\
  year_slider (mkFrame all_columns []) = Fails ValueError.
Proof.
  assert (H : apply_filters ex_fleet "TESLA" (Some (2019, 2020)%Z)
              = Done (mkFrame all_columns [])) by (vm_compute; reflexivity).
  split; [exact H|].
  destruct (@empty_selection_breaks_year_slider ex_fleet "TESLA"
              (Some (2019, 2020)%Z) (mkFrame all_columns []) H)
    as ((_ & Hfail) & _).
  - vm_compute; reflexivity.
  - apply Hfail. reflexivity.
Defined.

(** ** From the sidebar to the recommendations *)

Lemma use_case_has_weights (use_case range_need : string) (min_range : Q) :
  range_requirement use_case range_need = Ok min_range ->
  exists weights, select_weights use_case "quick" None = Ok weights.
Proof.
  unfold range_requirement, range_requirements, select_weights,
    use_case_weights, dict_get.
  change (String.eqb "quick" "quick") with true. cbv iota.
  repeat match goal with
         | |- context [String.eqb ?k use_case] =>
             destruct (String.eqb k use_case)
         end; eauto.
  intros H. discriminate H.
Qed.

(** X21. From the sidebar to the recommendations: with a sort kernel that
    sorts, on a frame with model-year, MSRP and range columns, a quick match
    over what [apply_filters] returned, under a budget choice with a finite
    upper bound, never raises. It shows the warning when no candidate is left
    and otherwise renders the recommendations, with every composite score of
    the ranking defined. *)
Theorem filtered_fleet_quick_match :
  forall (argsort : list Q -> list nat),
    argsort_sorts argsort ->
    forall (ev_df : Frame Vehicle) (manufacturer : string)
           (year_range : option (Z * Z)) (filtered : Frame Vehicle)
           (use_case budget_choice range_need : string)
           (candidates : Frame Vehicle) (min_range : Q),
      apply_filters ev_df manufacturer year_range = Done filtered ->
      col_in c_Model_Year ev_df = true ->
      col_in c_Base_MSRP ev_df = true ->
      col_in c_Electric_Range ev_df = true ->
      bounded_budget budget_choice ->
      hard_filters filtered use_case budget_choice range_need
      = Ok (candidates, min_range) ->
      (empty candidates = true /\
       quick_match argsort filtered use_case budget_choice range_need
       = Done (NoMatches min_range (min_range - 50))) \/
      (empty candidates = false /\
       exists view,
         quick_match argsort filtered use_case budget_choice range_need
         = Done (Recommended (Some view)) /\
         forall s, In s (rows (view_ranked view)) ->
                   composite_score s <> NaN).
Proof.
  intros argsort Hsorts ev_df manufacturer year_range filtered use_case
         budget_choice range_need cands m Hf Hyear Hmsrp Hrange Hbounded H.
  apply apply_filters_inv in Hf. destruct Hf as (Hmake & Hcols & Hrows).
  pose proof (@hard_filters_columns filtered use_case budget_choice
                range_need cands m H) as Hcols'.
  assert (Hcol : forall c, col_in c cands = col_in c ev_df).
  { intros c. unfold col_in. now rewrite Hcols', Hcols. }
  assert (Hcolf : forall c, col_in c filtered = col_in c ev_df).
  { intros c. unfold col_in. now rewrite Hcols. }
  assert (Hcomplete : forall v, In v (rows cands) -> complete v).
  { intros v Hv.
    destruct (@bounded_budget_known filtered use_case budget_choice
                range_need cands m v Hbounded)
      as (p & r & Hp & Hr); auto; try (rewrite Hcolf; assumption).
    destruct (@hard_filters_In filtered use_case budget_choice range_need
                cands m v H) as (lo & hi & _ & Hin).
    apply Hin in Hv. destruct Hv as (Hv & _).
    apply Hrows in Hv. destruct Hv as (_ & _ & Hy).
    destruct (Hy Hyear) as (_ & _ & y & _ & _ & Hvy & _).
    exists p, r, y. auto. }
  destruct (@hard_filters_inv filtered use_case budget_choice range_need
              cands m H) as (lo & hi & _ & Hreq & _).
  destruct (@use_case_has_weights use_case range_need m Hreq) as (w & Hw).
  unfold quick_match. rewrite H. simpl.
  destruct (empty cands) eqn:He; [left; split; reflexivity|right].
  split; [reflexivity|].
  destruct (@view_done argsort cands use_case budget_choice range_need
              "quick" None None w Hsorts He Hw) as (view & Hview);
    try (rewrite Hcol; assumption); [exact Hcomplete|].
  exists view. rewrite Hview. simpl. split; [reflexivity|].
  intros s Hs. apply view_inv in Hview.
  destruct Hview as (w' & _ & Hw' & Hr & _).
  rewrite Hr in Hs. simpl in Hs. apply take_In in Hs.
  destruct (@scored_all_known cands None w' s Hcomplete Hs) as (c & ->).
  discriminate.
Qed.

(** The sample fleet, unfiltered, under the mid-range budget. *)
Lemma filtered_fleet_quick_match_witness :
  exists view,
    quick_match stable_argsort ex_fleet general_purpose mid_range moderate
    = Done (Recommended (Some view)).
Proof.
  destruct (@filtered_fleet_quick_match stable_argsort stable_argsort_sorts
              ex_fleet "All" None ex_fleet general_purpose mid_range moderate
              ex_mid_range 180%Q)
    as [(He & _)|(_ & view & Hview & _)].
  - vm_compute; reflexivity.
  - vm_compute; reflexivity.
  - vm_compute; reflexivity.
  - vm_compute; reflexivity.
  - right. left. reflexivity.
  - vm_compute; reflexivity.
  - vm_compute in He. discriminate He.
  - exists view. exact Hview.
Defined.

(** ** What each alternative slot holds *)

Lemma pick_greatest {R : Type} (better : Q -> Q -> bool) (key : R -> cell)
  (l : list R) (best : option (R * Q)) (r : R) (q : Q) :
  (forall x y, better x y = true -> (y <= x)%Q) ->
  (forall x y, better x y = false -> (x <= y)%Q) ->
  pick better key l best = Some (r, q) ->
  (forall b qb, best = Some (b, qb) -> (qb <= q)%Q) /\
  (forall r' q', In r' l -> key r' = Some q' -> (q' <= q)%Q).
Proof.
  intros Ht Hf. revert best.
  induction l as [|a t IH]; intros best H; simpl in H.
  - split; [|intros ? ? []].
    intros b qb Hb. rewrite Hb in H. injection H as _ <-. apply Qle_refl.
  - destruct (key a) as [qa|] eqn:Ka.
    + destruct best as [[b qb]|].
      * destruct (better qa qb) eqn:E; apply IH in H; destruct H as [H1 H2];
          specialize (H1 _ _ eq_refl).
        -- split.
           ++ intros b' qb' Hb. injection Hb as _ <-.
              apply Qle_trans with qa; [apply Ht; exact E|exact H1].
           ++ intros r' q' [<-|Hr] Hk; [|eauto].
              rewrite Ka in Hk. injection Hk as <-. exact H1.
        -- split.
           ++ intros b' qb' Hb. injection Hb as _ <-. exact H1.
           ++ intros r' q' [<-|Hr] Hk; [|eauto].
              rewrite Ka in Hk. injection Hk as <-.
              apply Qle_trans with qb; [apply Hf; exact E|exact H1].
      * apply IH in H. destruct H as [H1 H2]. split; [discriminate|].
        intros r' q' [<-|Hr] Hk; [|eauto].
        rewrite Ka in Hk. injection Hk as <-. exact (H1 _ _ eq_refl).
    + apply IH in H. destruct H as [H1 H2]. split; [exact H1|].
      intros r' q' [<-|Hr] Hk; [congruence|eauto].
Qed.

Lemma nlargest1_greatest {R : Type} (key : R -> cell) (l : list R) (r : R)
  (q : Q) :
  nlargest1 key l = Some r -> key r = Some q ->
  forall r' q', In r' l -> key r' = Some q' -> (q' <= q)%Q.
Proof.
  unfold nlargest1, select_n1. intros H Hq r' q' Hr Hk.
  destruct (pick (fun q b => Qlt_b b q) key l None) as [[b qb]|] eqn:E.
  - injection H as ->.
    destruct (pick_In _ _ _ _ E) as [Hn|[_ Hb]]; [discriminate|].
    assert (qb = q) by congruence. subst qb.
    refine (proj2 (pick_greatest _ _ _ _ _ _ E) r' q' Hr Hk).
    + intros x y Hxy. apply Qlt_le_weak. now apply Qlt_b_true.
    + intros x y Hxy. unfold Qlt_b in Hxy. apply negb_false_iff in Hxy.
      now apply Qle_bool_iff.
  - rewrite (pick_none _ _ _ E r' Hr) in Hk. discriminate.
Qed.

Lemma In_pool (ranked_df : Frame Scored) (used : list (option string))
  (s : Scored) :
  In s (rows ranked_df) -> ~ In (Make (vehicle s)) used ->
  In s (rows (select (fun s => negb (isin used (Make (vehicle s))))
                     ranked_df)).
Proof.
  intros Hs Hfresh. simpl. apply filter_In. split; [exact Hs|].
  apply negb_true_iff. now apply isin_false.
Qed.

(** An alternative at a known place of a list of at most three. *)
Ltac place_cases H :=
  match type of H with
  | _ = ?pre ++ _ :: _ =>
      destruct pre as [|? [|? [|? ?]]]; simpl in H;
      try discriminate H; injection H as ?
  end.

(** X22. What each alternative slot holds, among the rows whose brand is
    neither the top match's nor that of an earlier slot: "Most Affordable" a
    row whose known MSRP is the least, "Best Value" a row whose known value
    score is the greatest, and "Longest Range" a row whose known range is the
    least (line 686 selects with [nsmallest]). *)
Theorem alternative_slots_hold_extremes :
  forall (ranked_df : Frame Scored) (top_vehicle : Scored)
         (alts before after : list (string * Scored)) (title : string)
         (a s : Scored),
    get_diverse_alternatives ranked_df top_vehicle = Ok alts ->
    alts = before ++ (title, a) :: after ->
    In s (rows ranked_df) ->
    ~ In (Make (vehicle s)) (Make (vehicle top_vehicle) :: map brand before) ->
    (title = t_affordable ->
     forall p p', Base_MSRP (vehicle a) = Some p ->
                  Base_MSRP (vehicle s) = Some p' -> (p <= p')%Q) /\
    (title = t_range ->
     forall r r', Electric_Range (vehicle a) = Some r ->
                  Electric_Range (vehicle s) = Some r' -> (r <= r')%Q) /\
    (title = t_value ->
     forall q q', value_score a = Some q ->
                  value_score s = Some q' -> (q' <= q)%Q).
Proof.
  intros ranked_df top alts before after title a s H Halts Hs Hfresh.
  destruct (col_in c_Make ranked_df) eqn:Hmake;
    [|unfold get_diverse_alternatives, not_isin in H; rewrite Hmake in H;
      discriminate H].
  revert H. unfold get_diverse_alternatives.
  slot_cases.
  all: slot_cases.
  all: slot_cases.
  all: cbn [firstn app]; intros H; injection H as <-.
  all: place_cases Halts.
  all: subst; unfold brand in Hfresh; simpl in Hfresh.
  all: repeat match goal with
              | H : (_, _) = (_, _) |- _ => injection H as ? ?; subst
              end.
  all: unfold t_affordable, t_range, t_value in *.
  all: repeat split; intros Ht; try discriminate Ht; intros x x' Hx Hx'.
  all: try (exfalso; eapply app_cons_not_nil; eassumption).
  all: match goal with
       | H : nsmallest1 _ _ _ = Some _,
         Ha : _ = Some ?y, Hb : _ = Some ?y' |- (?y <= ?y')%Q =>
           refine (@nsmallest1_least _ _ _ _ _ _ H Ha s y' _ Hb);
           apply In_pool; [exact Hs|simpl; tauto]
       | H : nlargest1 _ _ = Some _,
         Ha : _ = Some ?y, Hb : _ = Some ?y' |- (?y' <= ?y)%Q =>
           refine (@nlargest1_greatest _ _ _ _ _ H Ha s y' _ Hb);
           apply In_pool; [exact Hs|simpl; tauto]
       end.
Qed.

(** In the sample ranking the range slot holds the Kia, whose range is not
    above that of the Chevrolet, which no earlier slot holds. *)
Lemma alternative_slots_hold_extremes_witness :
  exists r r',
    Electric_Range (vehicle (row_at ex_ranked 3)) = Some r /\
    Electric_Range (vehicle (row_at ex_ranked 1)) = Some r' /\
    (r <= r')%Q.
Proof.
  destruct (@alternative_slots_hold_extremes ex_ranked (row_at ex_ranked 0)
              [(t_affordable, row_at ex_ranked 2);
               (t_range, row_at ex_ranked 3);
               (t_value, row_at ex_ranked 1)]
              [(t_affordable, row_at ex_ranked 2)]
              [(t_value, row_at ex_ranked 1)]
              t_range (row_at ex_ranked 3) (row_at ex_ranked 1))
    as (_ & Hrange & _).
  - vm_compute; reflexivity.
  - reflexivity.
  - vm_compute. right. left. reflexivity.
  - vm_compute. intros [H|[H|[]]]; discriminate H.
  - exists 200%Q, 250%Q.
    assert (Ha : Electric_Range (vehicle (row_at ex_ranked 3)) = Some 200%Q)
      by (vm_compute; reflexivity).
    assert (Hb : Electric_Range (vehicle (row_at ex_ranked 1)) = Some 250%Q)
      by (vm_compute; reflexivity).
    split; [exact Ha|]. split; [exact Hb|].
    exact (Hrange eq_refl _ _ Ha Hb).
Defined.

(** ** The filters of the detailed tab *)

Lemma col_in_cond {R : Type} (c : string) (b : bool) (mask : R -> bool)
  (df : Frame R) :
  col_in c (if b then select mask df else df) = col_in c df.
Proof. now destruct b. Qed.

Lemma type_mask_true (t : string) (v : Vehicle) :
  type_mask t v = true <-> Electric_Vehicle_Type v = Some t.
Proof. unfold type_mask. apply opt_string_eqb_eq. Qed.

Lemma brand_mask_true (brand_pref : list string) (v : Vehicle) :
  brand_mask brand_pref v = true <->
  exists b, In b brand_pref /\ Make v = Some b.
Proof.
  unfold brand_mask, isin. rewrite existsb_exists. split.
  - intros (m & Hm & E). apply opt_string_eqb_eq in E.
    apply in_map_iff in Hm. destruct Hm as (b & <- & Hb). eauto.
  - intros (b & Hb & E). exists (Some b). split; [now apply in_map|].
    now apply opt_string_eqb_eq.
Qed.

Lemma year_mask_true (year_pref : Z) (v : Vehicle) :
  year_mask year_pref v = true <->
  exists y, Model_Year v = Some y /\ (inject_Z year_pref <= y)%Q.
Proof.
  unfold year_mask. destruct (Model_Year v) as [y|].
  - rewrite Qle_bool_iff. split; [eauto|].
    intros (y' & E & H). now injection E as <-.
  - split; [discriminate|]. intros (y & E & _). discriminate.
Qed.

(** What the refinements leave of the candidates of the hard filters. *)
Lemma detailed_candidates_spec :
  forall (df_filtered : Frame Vehicle)
         (use_case budget range_need ev_type_pref : string)
         (brand_pref : list string) (year_pref : option Z)
         (cafv_pref : string) (hard candidates : Frame Vehicle)
         (min_range : Q),
    hard_filters df_filtered use_case budget range_need
    = Ok (hard, min_range) ->
    detailed_candidates df_filtered use_case budget range_need ev_type_pref
                        brand_pref year_pref cafv_pref = Ok candidates ->
    columns candidates = columns df_filtered /\
    (forall v, In v (rows candidates) ->
       In v (rows hard) /\
       (ev_type_pref <> "Any (show me all)" ->
        col_in c_EV_Type df_filtered = true ->
        exists t, dict_get type_map ev_type_pref = Ok t /\
                  Electric_Vehicle_Type v = Some t) /\
       (brand_pref <> [] -> col_in c_Make df_filtered = true ->
        exists b, In b brand_pref /\ Make v = Some b) /\
       (forall y, year_pref = Some y ->
                  col_in c_Model_Year df_filtered = true ->
                  exists q, Model_Year v = Some q /\ (inject_Z y <= q)%Q) /\
       (cafv_pref = "Must be CAFV eligible" ->
        col_in c_CAFV df_filtered = true -> cafv_mask v = true)) /\
    (ev_type_pref = "Any (show me all)" -> brand_pref = [] ->
     year_pref = None -> cafv_pref <> "Must be CAFV eligible" ->
     candidates = hard).
Proof.
  intros df use_case budget range_need ev_type_pref brand_pref year_pref
         cafv_pref hard cands m Hhard H.
  pose proof (@hard_filters_columns df use_case budget range_need hard m
                Hhard) as Hcols.
  assert (Hc : forall c, col_in c hard = col_in c df)
    by (intros c; unfold col_in; now rewrite Hcols).
  unfold detailed_candidates in H. rewrite Hhard in H. cbn [bind fst] in H.
  destruct (String.eqb ev_type_pref "Any (show me all)") eqn:Eany;
    cbn [negb andb] in H;
    [|destruct (col_in c_EV_Type hard) eqn:Etype;
      [destruct (dict_get type_map ev_type_pref) as [t|] eqn:Et;
       [|discriminate H]|]];
    cbn [bind] in H; cbv zeta in H;
    destruct year_pref as [y|];
    destruct brand_pref as [|b0 bs];
    cbn [negb andb] in H;
    repeat (rewrite col_in_cond in H || rewrite col_in_select in H);
    rewrite ?Hc in H; try rewrite Hc in Etype;
    destruct (col_in c_Make df) eqn:Emake;
    destruct (col_in c_Model_Year df) eqn:Eyear;
    destruct (col_in c_CAFV df) eqn:Ecafv;
    destruct (String.eqb cafv_pref "Don't care") eqn:Edont;
    destruct (String.eqb cafv_pref "Must be CAFV eligible") eqn:Emust;
    cbn [negb andb] in H;
    injection H as <-.
  all: repeat match goal with
              | E : String.eqb _ _ = true |- _ => apply String.eqb_eq in E
              | E : String.eqb _ _ = false |- _ => apply String.eqb_neq in E
              end.
  all: (split; [exact Hcols|]).
  all: split;
    [intros v Hv; simpl in Hv; rewrite ?filter_In in Hv;
     repeat match goal with
            | H : _ /\ _ |- _ => destruct H
            end;
     repeat match goal with
            | H : type_mask _ _ = true |- _ => apply type_mask_true in H
            | H : brand_mask _ _ = true |- _ => apply brand_mask_true in H
            | H : year_mask _ _ = true |- _ => apply year_mask_true in H
            end;
     repeat split; try assumption; intros;
     try congruence; try discriminate; eauto;
     match goal with
     | E : Some _ = Some _ |- _ => injection E as <-; assumption
     end
    |intros; try congruence; try discriminate; try reflexivity].
Qed.

(** X23. The refinements of the detailed tab only narrow the candidates of the
    two hard filters and keep the columns. Every candidate left satisfies each
    refinement that is switched on and whose column is present: the chosen
    powertrain, one of the preferred brands, a known model year not below the
    chosen minimum, and the CAFV test under "Must be CAFV eligible". With no
    refinement switched on, the candidates are those of the hard filters. *)
Theorem detailed_filters_only_narrow :
  forall (df_filtered : Frame Vehicle)
         (use_case budget range_need ev_type_pref : string)
         (brand_pref : list string) (year_pref : option Z)
         (cafv_pref : string) (hard candidates : Frame Vehicle)
         (min_range : Q),
    hard_filters df_filtered use_case budget range_need
    = Ok (hard, min_range) ->
    detailed_candidates df_filtered use_case budget range_need ev_type_pref
                        brand_pref year_pref cafv_pref = Ok candidates ->
    columns candidates = columns df_filtered /\
    (forall v, In v (rows candidates) ->
       In v (rows hard) /\
       (ev_type_pref <> "Any (show me all)" ->
        col_in c_EV_Type df_filtered = true ->
        exists t, dict_get type_map ev_type_pref = Ok t /\
                  Electric_Vehicle_Type v = Some t) /\
       (brand_pref <> [] -> col_in c_Make df_filtered = true ->
        exists b, In b brand_pref /\ Make v = Some b) /\
       (forall y, year_pref = Some y ->
                  col_in c_Model_Year df_filtered = true ->
                  exists q, Model_Year v = Some q /\ (inject_Z y <= q)%Q) /\
       (cafv_pref = "Must be CAFV eligible" ->
        col_in c_CAFV df_filtered = true -> cafv_mask v = true)) /\
    (ev_type_pref = "Any (show me all)" -> brand_pref = [] ->
     year_pref = None -> cafv_pref <> "Must be CAFV eligible" ->
     candidates = hard).
Proof.
  intros df_filtered use_case budget range_need ev_type_pref brand_pref
         year_pref cafv_pref hard candidates min_range Hhard H.
  exact (@detailed_candidates_spec df_filtered use_case budget range_need
           ev_type_pref brand_pref year_pref cafv_pref hard candidates
           min_range Hhard H).
Qed.

(** Battery-electric Kias and Teslas from 2020 on, under the mid-range
    budget. *)
Lemma detailed_filters_only_narrow_witness :
  detailed_candidates ex_fleet general_purpose mid_range moderate
    "Battery Electric (BEV only)" ["KIA"; "TESLA"] (Some 2020%Z) "Don't care"
  = Ok ex_mid_range /\
  forall v, In v (rows ex_mid_range) ->
            exists b, In b ["KIA"; "TESLA"] /\ Make v = Some b.
Proof.
  assert (H : detailed_candidates ex_fleet general_purpose mid_range moderate
                "Battery Electric (BEV only)" ["KIA"; "TESLA"] (Some 2020%Z)
                "Don't care" = Ok ex_mid_range) by (vm_compute; reflexivity).
  split; [exact H|].
  destruct (@detailed_filters_only_narrow ex_fleet general_purpose mid_range
              moderate "Battery Electric (BEV only)" ["KIA"; "TESLA"]
              (Some 2020%Z) "Don't care" ex_mid_range ex_mid_range 180%Q)
    as (_ & Hrows & _).
  - vm_compute; reflexivity.
  - exact H.
  - intros v Hv. destruct (Hrows v Hv) as (_ & _ & Hbrand & _).
    apply Hbrand; [discriminate|vm_compute; reflexivity].
Defined.

(** ** From the sidebar to the detailed recommendations *)

Lemma detailed_candidates_hard (df_filtered : Frame Vehicle)
  (use_case budget range_need ev_type_pref : string)
  (brand_pref : list string) (year_pref : option Z) (cafv_pref : string)
  (candidates : Frame Vehicle) :
  detailed_candidates df_filtered use_case budget range_need ev_type_pref
                      brand_pref year_pref cafv_pref = Ok candidates ->
  exists hard min_range,
    hard_filters df_filtered use_case budget range_need
    = Ok (hard, min_range).
Proof.
  unfold detailed_candidates.
  destruct (hard_filters df_filtered use_case budget range_need)
    as [[hard m]|e]; [eauto|discriminate].
Qed.

(** X24. From the sidebar to the recommendations of the detailed tab, on a
    frame with model-year, MSRP and range columns and with a sort kernel that
    sorts.  When [apply_filters] returned no vehicle, the run raises
    ValueError while the form is built (the year slider, line 249), whatever
    is submitted.  Otherwise the slider's arguments are computed, and under a
    budget choice with a finite upper bound the submission never raises once
    its look-ups succeed, whatever the refinements and priorities are: it
    shows the warning when no candidate is left and renders the
    recommendations otherwise, with every composite score of the ranking
    defined; a failed look-up is passed on as the KeyError it is. *)
Theorem filtered_fleet_detailed_match :
  forall (argsort : list Q -> list nat),
    argsort_sorts argsort ->
    forall (ev_df : Frame Vehicle) (manufacturer : string)
           (year_range : option (Z * Z)) (filtered : Frame Vehicle)
           (use_case budget range_need ev_type_pref : string)
           (brand_pref : list string) (year_choice : option Z)
           (cafv_pref : string) (priorities : string * string * string),
      apply_filters ev_df manufacturer year_range = Done filtered ->
      col_in c_Model_Year ev_df = true ->
      col_in c_Base_MSRP ev_df = true ->
      col_in c_Electric_Range ev_df = true ->
      bounded_budget budget ->
      let run :=
        detailed_match argsort filtered use_case budget range_need
                       ev_type_pref brand_pref year_choice cafv_pref
                       priorities in
      (rows filtered = [] -> run = Fails ValueError) /\
      (rows filtered <> [] ->
       exists year_min year_max default,
         year_slider filtered = Done (Some (year_min, year_max, default)) /\
         let year_pref :=
           slider_value (Some (year_min, year_max, default)) year_choice in
         (forall e,
             detailed_candidates filtered use_case budget range_need
                                 ev_type_pref brand_pref year_pref cafv_pref
             = Raise e ->
             run = Fails (Exn e)) /\
         (forall candidates,
             detailed_candidates filtered use_case budget range_need
                                 ev_type_pref brand_pref year_pref cafv_pref
             = Ok candidates ->
             (empty candidates = true /\ run = Done None) \/
             (empty candidates = false /\
              exists view,
                run = Done (Some (Some view)) /\
                forall s, In s (rows (view_ranked view)) ->
                          composite_score s <> NaN))).
Proof.
  intros argsort Hsorts ev_df manufacturer year_range filtered use_case
         budget range_need ev_type_pref brand_pref year_choice cafv_pref
         priorities Hf Hyear Hmsrp Hrange Hbounded run.
  destruct (@year_slider_after_filters ev_df manufacturer year_range filtered
              Hf Hyear) as ((_ & Hfail) & Hbuilt).
  split.
  - intros Hnil. unfold run, detailed_match. rewrite (Hfail Hnil).
    reflexivity.
  - intros Hne. destruct (Hbuilt Hne) as (lo & hi & d & Hslider).
    exists lo, hi, d. split; [exact Hslider|]. cbv zeta. split.
    + intros e He. unfold run, detailed_match. rewrite Hslider. cbn [bindA].
      rewrite He. reflexivity.
    + intros cands H.
      destruct (detailed_candidates_hard _ _ _ _ _ _ _ _ H)
        as (hard & m & Hhard).
      destruct (@detailed_candidates_spec filtered use_case budget range_need
                  ev_type_pref brand_pref
                  (slider_value (Some (lo, hi, d)) year_choice) cafv_pref
                  hard cands m Hhard H) as (Hcols' & Hsub & _).
      apply apply_filters_inv in Hf. destruct Hf as (Hmake & Hcols & Hrows).
      assert (Hcol : forall c, col_in c cands = col_in c ev_df).
      { intros c. unfold col_in. now rewrite Hcols', Hcols. }
      assert (Hcolf : forall c, col_in c filtered = col_in c ev_df).
      { intros c. unfold col_in. now rewrite Hcols. }
      assert (Hcomplete : forall v, In v (rows cands) -> complete v).
      { intros v Hv. destruct (Hsub v Hv) as (Hv' & _).
        destruct (@bounded_budget_known filtered use_case budget range_need
                    hard m v Hbounded)
          as (p & r & Hp & Hr); auto; try (rewrite Hcolf; assumption).
        destruct (@hard_filters_In filtered use_case budget range_need
                    hard m v Hhard) as (lo' & hi' & _ & Hin).
        apply Hin in Hv'. destruct Hv' as (Hv' & _).
        apply Hrows in Hv'. destruct Hv' as (_ & _ & Hy).
        destruct (Hy Hyear) as (_ & _ & y & _ & _ & Hvy & _).
        exists p, r, y. auto. }
      unfold run, detailed_match. rewrite Hslider. cbn [bindA].
      rewrite H. cbn [of_result bindA].
      destruct (empty cands) eqn:He; [left; split; reflexivity|right].
      split; [reflexivity|].
      assert (Hw : select_weights use_case "detailed" (Some priorities)
                   = Ok (priority_weights priorities)) by reflexivity.
      destruct (@view_done argsort cands use_case budget range_need
                  "detailed" (Some priorities) (Some cafv_pref)
                  (priority_weights priorities) Hsorts He Hw)
        as (view & Hview);
        try (rewrite Hcol; assumption); [exact Hcomplete|].
      exists view. rewrite Hview. cbn [bindA]. split; [reflexivity|].
      intros s Hs. apply view_inv in Hview.
      destruct Hview as (w' & _ & Hw' & Hr & _).
      rewrite Hr in Hs. simpl in Hs. apply take_In in Hs.
      destruct (@scored_all_known cands (Some cafv_pref) w' s Hcomplete Hs)
        as (c & ->).
      discriminate.
Qed.

(** Battery-electric Kias and Teslas of the sample fleet from 2020 on, with
    price first, are rendered; with no Tesla of 2019 or 2020 in the sidebar
    selection the same submission raises. *)
Lemma filtered_fleet_detailed_match_witness :
  (exists view,
      detailed_match stable_argsort ex_fleet general_purpose mid_range
        moderate "Battery Electric (BEV only)" ["KIA"; "TESLA"]
        (Some 2020%Z) "Prefer CAFV eligible"
        ("Lowest price", "Longest range", "Best value (range/price)")
      = Done (Some (Some view))) /\
  detailed_match stable_argsort (mkFrame all_columns []) general_purpose
    mid_range moderate "Battery Electric (BEV only)" ["KIA"; "TESLA"]
    (Some 2020%Z) "Prefer CAFV eligible"
    ("Lowest price", "Longest range", "Best value (range/price)")
  = Fails ValueError.
Proof.
  split.
  - destruct (@filtered_fleet_detailed_match stable_argsort
                stable_argsort_sorts ex_fleet "All" None ex_fleet
                general_purpose mid_range moderate
                "Battery Electric (BEV only)" ["KIA"; "TESLA"] (Some 2020%Z)
                "Prefer CAFV eligible"
                ("Lowest price", "Longest range", "Best value (range/price)"))
      as (_ & Hrun);
      try (vm_compute; reflexivity); [right; left; reflexivity|].
    destruct Hrun as (lo & hi & d & _ & _ & Hok); [discriminate|].
    destruct (Hok ex_mid_range) as [(He & _)|(_ & view & Hview & _)].
    + vm_compute; reflexivity.
    + vm_compute in He. discriminate He.
    + exists view. exact Hview.
  - refine (proj1 (@filtered_fleet_detailed_match stable_argsort
                     stable_argsort_sorts ex_fleet "TESLA"
                     (Some (2019, 2020)%Z) (mkFrame all_columns [])
                     general_purpose mid_range moderate
                     "Battery Electric (BEV only)" ["KIA"; "TESLA"]
                     (Some 2020%Z) "Prefer CAFV eligible"
                     ("Lowest price", "Longest range",
                      "Best value (range/price)") _ _ _ _ _) _);
      try (vm_compute; reflexivity).
    right. left. reflexivity.
Defined.
